(** * photon-dance-snap: the snapshot store [snap.Snapshotter]

    A shallow embedding of [snapshotter.go] and the properties of its
    save / load / quarantine / cleanup paths.

    Layout of the development:
    - [strings], [filepath], [strconv], [fmt], [sort]: the pieces of the Go
      standard library the package calls, written out as functions;
    - [crc32]: the table-driven CRC-32 with the Castagnoli polynomial;
    - [snappb]: the protobuf messages and the codec interface;
    - [os]: one file system, with an explicit table of injected I/O faults,
      and the [Go] monad (state + panic) every method runs in;
    - [pioutil], [snap]: the package itself, one definition per Go function;
    - [wire]: a proto3 wire-format codec, the instance used for closed
      examples;
    - [View], [Examples]: the vocabulary of the statements and the closed
      inputs they are evaluated at;
    - the facts about the library functions and about the package, and the
      properties of the store (C1 to C10);
    - further facts and further properties of the store (X1 to X25). *)

From Stdlib Require Import ZArith List String Ascii Bool Lia.
From Stdlib.Strings Require Import Byte.
From Stdlib Require Import Permutation Sorted.
Import ListNotations.

Local Open Scope string_scope.
Local Open Scope list_scope.
Local Open Scope Z_scope.

Definition bytes := list byte.

(* ================================================================= *)
(** ** Go strings *)

Module strings.

(** [s[n:]] *)
Fixpoint slice_from (n : nat) (s : string) : string :=
  match n, s with
  | O, _ => s
  | S n', String _ r => slice_from n' r
  | S _, EmptyString => EmptyString
  end.

(** [s[:n]] *)
Fixpoint slice_to (n : nat) (s : string) : string :=
  match n, s with
  | O, _ => EmptyString
  | S n', String c r => String c (slice_to n' r)
  | S _, EmptyString => EmptyString
  end.

(** [len(s) >= len(prefix) && s[:len(prefix)] == prefix] *)
Definition HasPrefix (s prefix : string) : bool :=
  (String.length prefix <=? String.length s)%nat
  && String.eqb (slice_to (String.length prefix) s) prefix.

(** [len(s) >= len(suffix) && s[len(s)-len(suffix):] == suffix] *)
Definition HasSuffix (s suffix : string) : bool :=
  (String.length suffix <=? String.length s)%nat
  && String.eqb (slice_from (String.length s - String.length suffix) s) suffix.

(** [if HasSuffix(s, suffix) { return s[:len(s)-len(suffix)] }; return s] *)
Definition TrimSuffix (s suffix : string) : string :=
  if HasSuffix s suffix
  then slice_to (String.length s - String.length suffix) s
  else s.

(** Go compares strings byte-wise; [a < b]. *)
Definition lt (a b : string) : bool := String.ltb a b.

End strings.

Module filepath.

Definition IsPathSeparator (c : ascii) : bool := Ascii.eqb c "/"%char.

(** The loop [for len(path) > 0 && IsPathSeparator(path[len(path)-1])]. *)
Fixpoint strip_trailing (path : string) : string :=
  match path with
  | EmptyString => EmptyString
  | String c r =>
      match strip_trailing r with
      | EmptyString => if IsPathSeparator c then EmptyString else String c EmptyString
      | r' => String c r'
      end
  end.

Fixpoint has_separator (path : string) : bool :=
  match path with
  | EmptyString => false
  | String c r => IsPathSeparator c || has_separator r
  end.

(** The text after the last separator. *)
Fixpoint last_element (path : string) : string :=
  match path with
  | EmptyString => EmptyString
  | String c r =>
      if has_separator r then last_element r
      else if IsPathSeparator c then r else String c r
  end.

(** [filepath.Base] on a Unix system (no volume names). *)
Definition Base (path : string) : string :=
  if String.eqb path "" then "."
  else
    let p := last_element (strip_trailing path) in
    if String.eqb p "" then "/" else p.

End filepath.

Module strconv.

Inductive NumError := ErrSyntax | ErrRange.

Definition maxUint64 : Z := 2 ^ 64 - 1.

(** [lower(c) = c | ('x' - 'X')] *)
Definition lower (c : Z) : Z := Z.lor c 32.

(** The digit value of one byte in [ParseUint], or [None] for the
    [default:] branch of the switch. *)
Definition digit_val (c : Z) : option Z :=
  if (48 <=? c) && (c <=? 57) then Some (c - 48)
  else if (97 <=? lower c) && (lower c <=? 122) then Some (lower c - 97 + 10)
  else None.

Fixpoint parse_loop (base cutoff maxVal : Z) (s : string) (n : Z)
  : NumError + Z :=
  match s with
  | EmptyString => inr n
  | String c r =>
      match digit_val (Z.of_N (N_of_ascii c)) with
      | None => inl ErrSyntax
      | Some d =>
          if base <=? d then inl ErrSyntax
          else if cutoff <=? n then inl ErrRange
          else
            let n' := (n * base) mod 2 ^ 64 in
            let n1 := (n' + d) mod 2 ^ 64 in
            if (n1 <? n') || (maxVal <? n1) then inl ErrRange
            else parse_loop base cutoff maxVal r n1
      end
  end.

(** [strconv.ParseUint(s, base, 64)] for an explicit base in 2..36
    (no prefix and no underscore handling, which only base 0 has). *)
Definition ParseUint (s : string) (base : Z) : NumError + Z :=
  if String.eqb s "" then inl ErrSyntax
  else parse_loop base (maxUint64 / base + 1) maxUint64 s 0.

End strconv.

Module fmt.

Definition hex_digit (d : Z) : ascii :=
  if d <? 10 then ascii_of_N (Z.to_N (48 + d))
  else ascii_of_N (Z.to_N (97 + (d - 10))).

(** The integer formatter writes digits from the least significant one
    leftwards; with the flag [0] and width 16 the remaining positions are
    filled with ['0'], which is the digit of the exhausted value. *)
Fixpoint hex_fill (width : nat) (u : Z) (acc : string) : string :=
  match width with
  | O => acc
  | S w => hex_fill w (u / 16) (String (hex_digit (u mod 16)) acc)
  end.

(** [Sprintf("%016x", u)] for [u : uint64]. *)
Definition x016 (u : Z) : string := hex_fill 16 u "".

End fmt.

Module sort.

(** [sort.Sort(sort.Reverse(sort.StringSlice(l)))]: the result is the
    descending arrangement of [l]; since equal strings are
    indistinguishable, every correct sorting algorithm yields the same
    list.  [Less(i, j)] of the reversed slice is [l[j] < l[i]]. *)
Fixpoint insert_desc (x : string) (l : list string) : list string :=
  match l with
  | [] => [x]
  | y :: r => if strings.lt x y then y :: insert_desc x r else x :: l
  end.

Fixpoint SortReverseStrings (l : list string) : list string :=
  match l with
  | [] => []
  | x :: r => insert_desc x (SortReverseStrings r)
  end.

End sort.


(* ================================================================= *)
(** ** hash/crc32 *)

Module crc32.

Definition Castagnoli : Z := 0x82f63b78.

(** [uint32(^crc)] *)
Definition not32 (crc : Z) : Z := Z.lxor crc 0xffffffff.

Definition byte_val (v : byte) : Z := Z.of_N (Byte.to_N v).

(** The inner loop of [simplePopulateTable]:
    [if crc&1 == 1 { crc = (crc >> 1) ^ poly } else { crc >>= 1 }]. *)
Fixpoint populate (j : nat) (poly crc : Z) : Z :=
  match j with
  | O => crc
  | S j' =>
      populate j' poly
        (if Z.land crc 1 =? 1 then Z.lxor (Z.shiftr crc 1) poly
         else Z.shiftr crc 1)
  end.

Definition MakeTable (poly : Z) : list Z :=
  map (fun i => populate 8 poly (Z.of_nat i)) (seq 0 256).

(** [crc = tab[byte(crc)^v] ^ (crc >> 8)] *)
Definition step (tab : list Z) (crc : Z) (v : byte) : Z :=
  Z.lxor (nth (Z.to_nat (Z.lxor (Z.land crc 255) (byte_val v))) tab 0)
         (Z.shiftr crc 8).

(** [crc32.Update(crc, tab, p)] (the table-driven [simpleUpdate]; the
    accelerated variants compute the same function). *)
Definition Update (crc : Z) (tab : list Z) (p : bytes) : Z :=
  not32 (fold_left (step tab) p (not32 crc)).

End crc32.

(* ================================================================= *)
(** ** The messages of package [snappb] and the protobuf codec *)

Module snappb.

(** Modelled from the spec: the generated message types of package
    [snappb] are not part of the sources; section 3 of the specification
    gives their fields.  A [uint64] is a [Z] in [0, 2^64), a [uint32] a [Z]
    in [0, 2^32); the metadata is a pointer in Go, hence an [option]. *)
Record SnapshotMetadata := { Term : Z; Index : Z }.

Record Snapshot := { Data : bytes; Metadata : option SnapshotMetadata }.

(** The field [Data] of [SavedSnapshot] is [Payload] here: one module cannot
    hold two projections named [Data]. *)
Record SavedSnapshot := { Crc : Z; Payload : bytes }.

Record WalSnapshot := { WalTerm : Z; WalIndex : Z }.

Definition uint64 (x : Z) : Prop := 0 <= x < 2 ^ 64.
Definition uint32 (x : Z) : Prop := 0 <= x < 2 ^ 32.

Inductive ProtoErr :=
| ErrUnexpectedEOF
| ErrVarintOverflow
| ErrIllegalTag
| ErrWireType
| ErrTooLarge
| ErrFieldRange.

(** [proto.Marshal] and [proto.Unmarshal] at the two message types the
    package serialises.  The codec is an external library; the package is
    written against this interface. *)
Class Codec := {
  MarshalSnapshot : Snapshot -> ProtoErr + bytes;
  UnmarshalSnapshot : bytes -> ProtoErr + Snapshot;
  MarshalSaved : SavedSnapshot -> ProtoErr + bytes;
  UnmarshalSaved : bytes -> ProtoErr + SavedSnapshot;
  (** where the payload bytes start inside a marshalled envelope *)
  PayloadOffset : SavedSnapshot -> nat
}.

(** What the package relies on: unmarshalling inverts marshalling, a
    message with a metadata sub-message is never serialised to zero bytes,
    and the payload of an envelope is embedded verbatim. *)
Record Lawful (C : Codec) : Prop := {
  snapshot_roundtrip :
    forall s b, MarshalSnapshot s = inr b -> UnmarshalSnapshot b = inr s;
  saved_roundtrip :
    forall e b, MarshalSaved e = inr b -> UnmarshalSaved b = inr e;
  snapshot_nonempty :
    forall s b, MarshalSnapshot s = inr b -> Metadata s <> None -> b <> [];
  payload_verbatim :
    forall e b, MarshalSaved e = inr b ->
      exists hd tl,
        b = (hd ++ Payload e ++ tl)%list /\
        List.length hd = PayloadOffset e /\
        forall d, List.length d = List.length (Payload e) ->
          MarshalSaved {| Crc := Crc e; Payload := d |} = inr (hd ++ d ++ tl)%list
}.

End snappb.

(* ================================================================= *)
(** ** The file system and the [Go] monad *)

Module os.

Inductive Errno := ENOENT | EACCES | EIO | EISDIR | ENOTDIR | ENOTEMPTY | ENOSPC | EROFS.

(** The failures that can be injected into a system call.  [ENOENT] is not
    among them: whether a name exists is decided by the directory itself. *)
Inductive Fault :=
| Denied
| IOFailure
| IsDirectory
| NotDirectory
| NotEmpty
| NoSpace
| ReadOnly.

Definition errno (f : Fault) : Errno :=
  match f with
  | Denied => EACCES
  | IOFailure => EIO
  | IsDirectory => EISDIR
  | NotDirectory => ENOTDIR
  | NotEmpty => ENOTEMPTY
  | NoSpace => ENOSPC
  | ReadOnly => EROFS
  end.

(** [filepath.Join(dir, name)] is kept as the pair of its components. *)
Definition path := (string * string)%type.

Definition path_eqb (p q : path) : bool :=
  String.eqb (fst p) (fst q) && String.eqb (snd p) (snd q).

Definition path_string (p : path) : string := (fst p ++ "/" ++ snd p)%string.

Inductive error :=
| ErrNoSnapshot
| ErrEmptySnapshot
| ErrCRCMismatch
| PathError (op : string) (p : path) (e : Errno)
| ProtoError (e : snappb.ProtoErr)
| RemoveOrphanError (filename : string) (rerr : error).

(** [os.IsNotExist(err)] *)
Definition IsNotExist (err : error) : bool :=
  match err with
  | PathError _ _ ENOENT => true
  | _ => false
  end.

(** A Go result [(T, error)]. *)
Inductive Result (T : Type) :=
| Ok (t : T)
| Err (e : error).
Arguments Ok {T} t.
Arguments Err {T} e.

Inductive Level := Info | Warn | Error.

Record LogEntry := { level : Level; msg : string; at_path : string }.

(** The system calls can fail for reasons outside the directory contents
    (permissions, a full or read-only disk, a directory in place of a
    file).  Such failures are an explicit table, fixed for a run. *)
Class Faults := {
  open_fault : string -> option Fault;
  readdir_fault : string -> option Fault;
  read_fault : path -> option Fault;
  write_fault : path -> option Fault;
  remove_fault : path -> option Fault;
  rename_fault : path -> option Fault
}.

(** The entries of every directory, in directory order, and the log
    (newest entry first). *)
Record World := { files : list (path * bytes); log : list LogEntry }.

Inductive PanicValue :=
| NilDereference
| PanicError (e : snappb.ProtoErr).

Inductive Outcome (A : Type) :=
| Done (a : A) (w : World)
| Panicked (v : PanicValue) (w : World).
Arguments Done {A} a w.
Arguments Panicked {A} v w.

Definition Go (A : Type) : Type := World -> Outcome A.

Definition ret {A} (a : A) : Go A := fun w => Done a w.

Definition bind {A B} (m : Go A) (k : A -> Go B) : Go B :=
  fun w =>
    match m w with
    | Done a w' => k a w'
    | Panicked v w' => Panicked v w'
    end.

Definition panic {A} (v : PanicValue) : Go A := fun w => Panicked v w.

Definition world_of {A} (o : Outcome A) : World :=
  match o with
  | Done _ w => w
  | Panicked _ w => w
  end.

Definition logf (l : Level) (m : string) (p : string) : Go unit :=
  fun w => Done tt {| files := files w;
                      log := {| level := l; msg := m; at_path := p |} :: log w |}.

Fixpoint lookup (p : path) (fs : list (path * bytes)) : option bytes :=
  match fs with
  | [] => None
  | (q, b) :: r => if path_eqb p q then Some b else lookup p r
  end.

Definition delete (p : path) (fs : list (path * bytes)) : list (path * bytes) :=
  filter (fun e => negb (path_eqb p (fst e))) fs.

Section Calls.
Context {io : Faults}.

(** [os.Open(dir)] of a directory; the handle is the directory name. *)
Definition Open (dir : string) : Go (Result string) :=
  fun w =>
    match open_fault dir with
    | Some e => Done (Err (PathError "open" (dir, "") (errno e))) w
    | None => Done (Ok dir) w
    end.

(** [dir.Readdirnames(-1)] *)
Definition Readdirnames (dir : string) : Go (Result (list string)) :=
  fun w =>
    match readdir_fault dir with
    | Some e => Done (Err (PathError "readdirent" (dir, "") (errno e))) w
    | None =>
        Done (Ok (map (fun e => snd (fst e))
                      (filter (fun e => String.eqb (fst (fst e)) dir) (files w)))) w
    end.

(** [ioutil.ReadFile(p)] *)
Definition ReadFile (p : path) : Go (Result bytes) :=
  fun w =>
    match read_fault p with
    | Some e => Done (Err (PathError "open" p (errno e))) w
    | None =>
        match lookup p (files w) with
        | Some b => Done (Ok b) w
        | None => Done (Err (PathError "open" p ENOENT)) w
        end
    end.

(** [os.Remove(p)] *)
Definition Remove (p : path) : Go (option error) :=
  fun w =>
    match remove_fault p with
    | Some e => Done (Some (PathError "remove" p (errno e))) w
    | None =>
        match lookup p (files w) with
        | Some _ => Done None {| files := delete p (files w); log := log w |}
        | None => Done (Some (PathError "remove" p ENOENT)) w
        end
    end.

(** [os.Rename(old, new)]: [new] is replaced when it exists. *)
Definition Rename (old new : path) : Go (option error) :=
  fun w =>
    match rename_fault old with
    | Some e => Done (Some (PathError "rename" old (errno e))) w
    | None =>
        match lookup old (files w) with
        | Some b =>
            if path_eqb old new then Done None w
            else Done None {| files := (new, b) :: delete new (delete old (files w));
                              log := log w |}
        | None => Done (Some (PathError "rename" old ENOENT)) w
        end
    end.

End Calls.

End os.

Declare Scope go_scope.
Delimit Scope go_scope with go.
Notation "x <- m ;; k" := (os.bind m (fun x => k))
  (at level 61, m at next level, right associativity) : go_scope.
Notation "m ;;; k" := (os.bind m (fun _ => k))
  (at level 61, right associativity) : go_scope.

(* ================================================================= *)
(** ** Package [ioutil] of the repository *)

Module pioutil.
Import os.

(** Modelled from the spec: [WriteAndSyncFile] lives in the repository's
    [ioutil] package, which is not part of the sources.  The specification
    describes it as the atomic "write bytes, fsync, and make visible at a
    path" primitive: a reader never observes a partially written file, so a
    failed call leaves the directory as it was. *)
Definition WriteAndSyncFile {io : Faults} (p : path) (b : bytes) (perm : Z)
  : Go (option error) :=
  fun w =>
    match write_fault p with
    | Some e => Done (Some (PathError "open" p (errno e))) w
    | None => Done None {| files := (p, b) :: delete p (files w); log := log w |}
    end.

End pioutil.

(* ================================================================= *)
(** ** Package [snap] *)

Module snap.
Import os snappb.
Local Open Scope go_scope.

Definition crcTable : list Z := crc32.MakeTable crc32.Castagnoli.

(** A map of valid files that can be present in the snap folder. *)
Definition validFiles : list (string * bool) := [("db", true)].

Definition validFiles_has (name : string) : bool :=
  existsb (fun kv => String.eqb (fst kv) name) validFiles.

Record Snapshotter := { dir : string }.

Definition NewSnapshotter (d : string) : Snapshotter := {| dir := d |}.

(** [fmt.Sprintf("%016x-%016x.snap", term, index)] *)
Definition snapName (term index : Z) : string :=
  (fmt.x016 term ++ "-" ++ fmt.x016 index ++ ".snap")%string.

Section Methods.
Context {codec : Codec} {io : Faults}.

(** The two [Observe] calls on the timing histograms have no effect on
    the directory or on the result and are left out. *)
Definition save (s : Snapshotter) (snapshot : Snapshot) : Go (option error) :=
  match Metadata snapshot with
  | None => panic NilDereference
  | Some m =>
      let fname := snapName (Term m) (Index m) in
      match MarshalSnapshot snapshot with
      | inl e => panic (PanicError e)
      | inr b =>
          let crc := crc32.Update 0 crcTable b in
          match MarshalSaved {| Crc := crc; Payload := b |} with
          | inl e => panic (PanicError e)
          | inr b =>
              let spath := (dir s, fname) in
              err <- pioutil.WriteAndSyncFile spath b 438 ;;
              match err with
              | Some e =>
                  logf Warn "failed to write a snap file" (path_string spath) ;;;
                  rerr <- Remove spath ;;
                  match rerr with
                  | Some _ =>
                      logf Warn "failed to remove a broken snap file" (path_string spath)
                  | None => ret tt
                  end ;;;
                  ret (Some e)
              | None => ret None
              end
          end
      end
  end.

Definition SaveSnap (s : Snapshotter) (snapshot : Snapshot) : Go (option error) :=
  match Metadata snapshot with
  | None => ret None
  | Some m => if Index m =? 0 then ret None else save s snapshot
  end.

Definition readSnap (snapname : path) : Go (Result Snapshot) :=
  r <- ReadFile snapname ;;
  match r with
  | Err err =>
      logf Warn "failed to read a snap file" (path_string snapname) ;;;
      ret (Err err)
  | Ok b =>
      if (List.length b =? 0)%nat then
        logf Warn "failed to read empty snap file" (path_string snapname) ;;;
        ret (Err ErrEmptySnapshot)
      else
        match UnmarshalSaved b with
        | inl err =>
            logf Warn "failed to unmarshal snappb.SavedSnapshot" (path_string snapname) ;;;
            ret (Err (ProtoError err))
        | inr serializedSnap =>
            if (List.length (Payload serializedSnap) =? 0)%nat || (Crc serializedSnap =? 0)
            then
              logf Warn "failed to read empty snapshot data" (path_string snapname) ;;;
              ret (Err ErrEmptySnapshot)
            else
              let crc := crc32.Update 0 crcTable (Payload serializedSnap) in
              if negb (crc =? Crc serializedSnap) then
                logf Warn "snap file is corrupt" (path_string snapname) ;;;
                ret (Err ErrCRCMismatch)
              else
                match UnmarshalSnapshot (Payload serializedSnap) with
                | inl err =>
                    logf Warn "failed to unmarshal snappb.Snapshot" (path_string snapname) ;;;
                    ret (Err (ProtoError err))
                | inr snap => ret (Ok snap)
                end
        end
  end.

Definition brokenName (name : string) : string := (name ++ ".broken")%string.

Definition loadSnap (d name : string) : Go (Result Snapshot) :=
  let fpath := (d, name) in
  r <- readSnap fpath ;;
  match r with
  | Err err =>
      logf Warn "failed to read a snap file" (path_string fpath) ;;;
      let brokenPath := (d, brokenName name) in
      rerr <- Rename fpath brokenPath ;;
      match rerr with
      | Some _ => logf Warn "failed to rename a broken snap file" (path_string fpath)
      | None => logf Warn "renamed to a broken snap file" (path_string fpath)
      end ;;;
      ret (Err err)
  | Ok snap => ret (Ok snap)
  end.

(** The body of [for i := range filenames] in [checkSuffix]. *)
Fixpoint checkSuffix_loop (filenames snaps : list string) : Go (list string) :=
  match filenames with
  | [] => ret snaps
  | f :: rest =>
      if strings.HasSuffix f ".snap" then checkSuffix_loop rest (snaps ++ [f])%list
      else
        (if negb (validFiles_has f)
         then logf Warn "found unexpected non-snap file; skipping" f
         else ret tt) ;;;
        checkSuffix_loop rest snaps
  end.

Definition checkSuffix (filenames : list string) : Go (list string) :=
  checkSuffix_loop filenames [].

(** The body of [for _, filename := range filenames] in [cleanupSnapdir];
    the function returns the pair [(names, err)]. *)
Fixpoint cleanupSnapdir_loop (s : Snapshotter) (filenames names : list string)
  : Go (list string * option error) :=
  match filenames with
  | [] => ret (names, None)
  | filename :: rest =>
      if strings.HasPrefix filename "db.tmp" then
        logf Info "found orphaned defragmentation file; deleting" filename ;;;
        rerr <- Remove (dir s, filename) ;;
        match rerr with
        | Some e =>
            if negb (IsNotExist e)
            then ret (names, Some (RemoveOrphanError filename e))
            else cleanupSnapdir_loop s rest names
        | None => cleanupSnapdir_loop s rest names
        end
      else cleanupSnapdir_loop s rest (names ++ [filename])%list
  end.

Definition cleanupSnapdir (s : Snapshotter) (filenames : list string)
  : Go (list string * option error) :=
  cleanupSnapdir_loop s filenames [].

(** [defer dir.Close()] has no effect on the directory contents. *)
Definition snapnames (s : Snapshotter) : Go (Result (list string)) :=
  d <- Open (dir s) ;;
  match d with
  | Err err => ret (Err err)
  | Ok d =>
      r <- Readdirnames d ;;
      match r with
      | Err err => ret (Err err)
      | Ok filenames =>
          c <- cleanupSnapdir s filenames ;;
          match snd c with
          | Some err => ret (Err err)
          | None =>
              snaps <- checkSuffix (fst c) ;;
              if (List.length snaps =? 0)%nat then ret (Err ErrNoSnapshot)
              else ret (Ok (sort.SortReverseStrings snaps))
          end
      end
  end.

(** The body of [for _, name := range names] in [loadMatched]. *)
Fixpoint loadMatched_loop (s : Snapshotter) (matchFn : Snapshot -> Go bool)
  (names : list string) : Go (Result Snapshot) :=
  match names with
  | [] => ret (Err ErrNoSnapshot)
  | name :: rest =>
      r <- loadSnap (dir s) name ;;
      match r with
      | Ok snap =>
          ok <- matchFn snap ;;
          if ok then ret (Ok snap) else loadMatched_loop s matchFn rest
      | Err _ => loadMatched_loop s matchFn rest
      end
  end.

Definition loadMatched (s : Snapshotter) (matchFn : Snapshot -> Go bool)
  : Go (Result Snapshot) :=
  r <- snapnames s ;;
  match r with
  | Err err => ret (Err err)
  | Ok names => loadMatched_loop s matchFn names
  end.

Definition Load (s : Snapshotter) : Go (Result Snapshot) :=
  loadMatched s (fun _ => ret true).

(** [for i := len(walSnaps) - 1; i >= 0; i--] over the reversed list;
    [m] is the metadata pointer, dereferenced in the loop body. *)
Fixpoint matchWal (m : option SnapshotMetadata) (backward : list WalSnapshot)
  : Go bool :=
  match backward with
  | [] => ret false
  | ws :: rest =>
      match m with
      | None => panic NilDereference
      | Some md =>
          if (Term md =? WalTerm ws) && (Index md =? WalIndex ws) then ret true
          else matchWal m rest
      end
  end.

Definition LoadNewestAvailable (s : Snapshotter) (walSnaps : list WalSnapshot)
  : Go (Result Snapshot) :=
  loadMatched s (fun snapshot => matchWal (Metadata snapshot) (rev walSnaps)).

(** The body of [for _, filename := range filenames] in [ReleaseSnapDBs]. *)
Fixpoint ReleaseSnapDBs_loop (s : Snapshotter) (snap : Snapshot)
  (filenames : list string) : Go (option error) :=
  match filenames with
  | [] => ret None
  | filename :: rest =>
      if strings.HasSuffix filename ".snap.db" then
        let hexIndex := strings.TrimSuffix (filepath.Base filename) ".snap.db" in
        match strconv.ParseUint hexIndex 16 with
        | inl _ =>
            logf Error "failed to parse index from snapshot database filename" filename ;;;
            ReleaseSnapDBs_loop s snap rest
        | inr index =>
            match Metadata snap with
            | None => panic NilDereference
            | Some m =>
                (if index <? Index m then
                   logf Info "found orphaned .snap.db file; deleting" filename ;;;
                   rerr <- Remove (dir s, filename) ;;
                   match rerr with
                   | Some e =>
                       if negb (IsNotExist e)
                       then logf Error "failed to remove orphaned .snap.db file" filename
                       else ret tt
                   | None => ret tt
                   end
                 else ret tt) ;;;
                ReleaseSnapDBs_loop s snap rest
            end
        end
      else ReleaseSnapDBs_loop s snap rest
  end.

Definition ReleaseSnapDBs (s : Snapshotter) (snap : Snapshot) : Go (option error) :=
  d <- Open (dir s) ;;
  match d with
  | Err err => ret (Some err)
  | Ok d =>
      r <- Readdirnames d ;;
      match r with
      | Err err => ret (Some err)
      | Ok filenames => ReleaseSnapDBs_loop s snap filenames
      end
  end.

End Methods.

End snap.

(* ================================================================= *)
(** ** A proto3 wire-format codec *)

Module wire.
Import snappb.

(** The protobuf wire format: varints, length-delimited fields, zero
    values omitted, fields written in field-number order, unknown fields
    skipped on input. *)

Definition byte_of (z : Z) : byte :=
  match Byte.of_N (Z.to_N z) with
  | Some b => b
  | None => x00
  end.

Fixpoint AppendVarint (fuel : nat) (v : Z) : bytes :=
  match fuel with
  | O => []
  | S f =>
      if v <? 128 then [byte_of v]
      else byte_of (v mod 128 + 128) :: AppendVarint f (v / 128)
  end.

Definition EncodeVarint (v : Z) : bytes := AppendVarint 10 v.

Fixpoint ConsumeVarint (shift acc : Z) (b : bytes) : ProtoErr + (Z * bytes) :=
  match b with
  | [] => inl ErrUnexpectedEOF
  | c :: r =>
      let v := crc32.byte_val c in
      if 63 <? shift then inl ErrVarintOverflow
      else if v <? 128 then
        if (shift =? 63) && (1 <? v) then inl ErrVarintOverflow
        else inr (acc + v * 2 ^ shift, r)
      else ConsumeVarint (shift + 7) (acc + (v - 128) * 2 ^ shift) r
  end.

Definition DecodeVarint (b : bytes) : ProtoErr + (Z * bytes) := ConsumeVarint 0 0 b.

Inductive Field :=
| VarintF (num : Z) (v : Z)
| BytesF (num : Z) (b : bytes)
| Fixed64F (num : Z) (b : bytes)
| Fixed32F (num : Z) (b : bytes).

Definition encode_field (f : Field) : bytes :=
  match f with
  | VarintF num v => EncodeVarint (num * 8 + 0) ++ EncodeVarint v
  | BytesF num b => EncodeVarint (num * 8 + 2) ++ EncodeVarint (Z.of_nat (List.length b)) ++ b
  | Fixed64F num b => EncodeVarint (num * 8 + 1) ++ b
  | Fixed32F num b => EncodeVarint (num * 8 + 5) ++ b
  end.

Definition encode_fields (fs : list Field) : bytes := flat_map encode_field fs.

Definition take_exact (n : nat) (b : bytes) : ProtoErr + (bytes * bytes) :=
  if (n <=? List.length b)%nat then inr (firstn n b, skipn n b)
  else inl ErrUnexpectedEOF.

Fixpoint parse_fields (fuel : nat) (b : bytes) : ProtoErr + list Field :=
  match b with
  | [] => inr []
  | _ :: _ =>
      match fuel with
      | O => inl ErrUnexpectedEOF
      | S fuel' =>
          match DecodeVarint b with
          | inl e => inl e
          | inr (key, r) =>
              let num := key / 8 in
              let continue (f : Field) (r' : bytes) :=
                match parse_fields fuel' r' with
                | inl e => inl e
                | inr fs => inr (f :: fs)
                end in
              if num =? 0 then inl ErrIllegalTag
              else
                match key mod 8 with
                | 0 =>
                    match DecodeVarint r with
                    | inl e => inl e
                    | inr (v, r') => continue (VarintF num v) r'
                    end
                | 1 =>
                    match take_exact 8 r with
                    | inl e => inl e
                    | inr (x, r') => continue (Fixed64F num x) r'
                    end
                | 2 =>
                    match DecodeVarint r with
                    | inl e => inl e
                    | inr (n, r') =>
                        if Z.of_nat (List.length r') <? n then inl ErrUnexpectedEOF
                        else continue (BytesF num (firstn (Z.to_nat n) r'))
                                      (skipn (Z.to_nat n) r')
                    end
                | 5 =>
                    match take_exact 4 r with
                    | inl e => inl e
                    | inr (x, r') => continue (Fixed32F num x) r'
                    end
                | _ => inl ErrWireType
                end
          end
      end
  end.

Definition Parse (b : bytes) : ProtoErr + list Field := parse_fields (List.length b) b.

Definition guard_size (b : bytes) : ProtoErr + bytes :=
  if Z.of_nat (List.length b) <? 2 ^ 31 then inr b else inl ErrTooLarge.

(** *** SnapshotMetadata *)

Definition metadata_fields (m : SnapshotMetadata) : list Field :=
  (if Term m =? 0 then [] else [VarintF 1 (Term m)]) ++
  (if Index m =? 0 then [] else [VarintF 2 (Index m)]).

Definition metadata_set (m : SnapshotMetadata) (f : Field) : SnapshotMetadata :=
  match f with
  | VarintF 1 v => {| Term := v; Index := Index m |}
  | VarintF 2 v => {| Term := Term m; Index := v |}
  | _ => m
  end.

Definition metadata_of_fields (m : SnapshotMetadata) (fs : list Field) : SnapshotMetadata :=
  fold_left metadata_set fs m.

(** *** Snapshot *)

Definition snapshot_fields (s : Snapshot) : list Field :=
  (match Data s with [] => [] | d => [BytesF 1 d] end) ++
  (match Metadata s with
   | None => []
   | Some m => [BytesF 2 (encode_fields (metadata_fields m))]
   end).

Definition in_range64 (x : Z) : bool := (0 <=? x) && (x <? 2 ^ 64).
Definition in_range32 (x : Z) : bool := (0 <=? x) && (x <? 2 ^ 32).

Definition snapshot_in_range (s : Snapshot) : bool :=
  match Metadata s with
  | None => true
  | Some m => in_range64 (Term m) && in_range64 (Index m)
  end.

Definition MarshalSnapshot (s : Snapshot) : ProtoErr + bytes :=
  if snapshot_in_range s then guard_size (encode_fields (snapshot_fields s))
  else inl ErrFieldRange.

Definition snapshot_set (acc : ProtoErr + Snapshot) (f : Field) : ProtoErr + Snapshot :=
  match acc with
  | inl e => inl e
  | inr s =>
      match f with
      | BytesF 1 d => inr {| Data := d; Metadata := Metadata s |}
      | BytesF 2 mb =>
          match Parse mb with
          | inl e => inl e
          | inr mfs =>
              let m0 := match Metadata s with
                        | Some m => m
                        | None => {| Term := 0; Index := 0 |}
                        end in
              inr {| Data := Data s; Metadata := Some (metadata_of_fields m0 mfs) |}
          end
      | _ => inr s
      end
  end.

Definition UnmarshalSnapshot (b : bytes) : ProtoErr + Snapshot :=
  match Parse b with
  | inl e => inl e
  | inr fs => fold_left snapshot_set fs (inr {| Data := []; Metadata := None |})
  end.

(** *** SavedSnapshot *)

Definition saved_fields (e : SavedSnapshot) : list Field :=
  (if Crc e =? 0 then [] else [VarintF 1 (Crc e)]) ++
  (match Payload e with [] => [] | d => [BytesF 2 d] end).

Definition MarshalSaved (e : SavedSnapshot) : ProtoErr + bytes :=
  if in_range32 (Crc e) then guard_size (encode_fields (saved_fields e))
  else inl ErrFieldRange.

Definition saved_set (e : SavedSnapshot) (f : Field) : SavedSnapshot :=
  match f with
  | VarintF 1 v => {| Crc := v mod 2 ^ 32; Payload := Payload e |}
  | BytesF 2 d => {| Crc := Crc e; Payload := d |}
  | _ => e
  end.

Definition UnmarshalSaved (b : bytes) : ProtoErr + SavedSnapshot :=
  match Parse b with
  | inl e => inl e
  | inr fs => inr (fold_left saved_set fs {| Crc := 0; Payload := [] |})
  end.

Definition PayloadOffset (e : SavedSnapshot) : nat :=
  List.length (encode_fields (saved_fields e)) - List.length (Payload e).

(** Modelled from the spec: the [.proto] file of package [snappb] is not
    part of the sources.  The field numbers are taken to be
    [SavedSnapshot { crc = 1; data = 2 }],
    [Snapshot { data = 1; metadata = 2 }],
    [SnapshotMetadata { term = 1; index = 2 }].
    This is one lawful codec; the theorems on package [snap] hold for every
    lawful one, and the closed examples are evaluated with this one. *)
Definition proto3 : Codec := {|
  snappb.MarshalSnapshot := MarshalSnapshot;
  snappb.UnmarshalSnapshot := UnmarshalSnapshot;
  snappb.MarshalSaved := MarshalSaved;
  snappb.UnmarshalSaved := UnmarshalSaved;
  snappb.PayloadOffset := PayloadOffset
|}.

End wire.

(* ================================================================= *)
(** ** Vocabulary of the specification *)

Module View.
Import os snappb snap.

Definition value_of {A} (o : Outcome (Result A)) : Result A :=
  match o with
  | Done r _ => r
  | Panicked _ _ => Err ErrNoSnapshot
  end.

(** An orphaned temporary file of a defragmentation. *)
Definition orphan (name : string) : bool := strings.HasPrefix name "db.tmp".

Definition is_snap (name : string) : bool := strings.HasSuffix name ".snap".

(** A name that survives [cleanupSnapdir] and [checkSuffix]. *)
Definition candidate_name (name : string) : bool := is_snap name && negb (orphan name).

(** The names of the entries of [d], in directory order. *)
Definition listing (d : string) (w : World) : list string :=
  map (fun e => snd (fst e)) (filter (fun e => String.eqb (fst (fst e)) d) (files w)).

Definition unsorted (d : string) (w : World) : list string :=
  filter is_snap (filter (fun n => negb (orphan n)) (listing d w)).

(** The candidates of a load, newest first. *)
Definition candidates (d : string) (w : World) : list string :=
  sort.SortReverseStrings (unsorted d w).

(** [a] does not sort before [b]. *)
Definition ge_str (a b : string) : Prop := strings.lt a b = false.

Definition word32 (x : Z) : Prop := 0 <= x < 2 ^ 32.

Fixpoint distinct (l : list Z) : bool :=
  match l with
  | [] => true
  | x :: r => negb (existsb (Z.eqb x) r) && distinct r
  end.

(** 256 entries, each a 32-bit word, with pairwise different top bytes. *)
Definition table_ok (tab : list Z) : bool :=
  Nat.eqb (List.length tab) 256
  && forallb (fun x => (0 <=? x) && (x <? 2 ^ 32)) tab
  && distinct (map (fun x => Z.shiftr x 24) tab).

Definition wf_field (f : wire.Field) : Prop :=
  match f with
  | wire.VarintF num v => 1 <= num < 2 ^ 60 /\ 0 <= v < 2 ^ 64
  | wire.BytesF num b => 1 <= num < 2 ^ 60 /\ Z.of_nat (List.length b) < 2 ^ 64
  | _ => False
  end.

(** The world after [WriteAndSyncFile] stored [f] at [p]. *)
Definition written (p : path) (f : bytes) (w : World) : World :=
  {| files := (p, f) :: delete p (files w); log := log w |}.

(** [fs'] is [fs] with some of the selected names of [filenames] gone. *)
Definition swept (sel : string -> bool) (d : string) (filenames : list string)
  (fs fs' : list (path * bytes)) : Prop :=
  forall q, lookup q fs' = lookup q fs \/
            (lookup q fs' = None /\
             exists n, In n filenames /\ sel n = true /\ q = (d, n)).

(** The index text of an auxiliary database file name, decoded. *)
Definition dbIndex (name : string) : strconv.NumError + Z :=
  strconv.ParseUint (strings.TrimSuffix (filepath.Base name) ".snap.db") 16.

(** [name] is a [.snap.db] file whose index is below [threshold]. *)
Definition stale (threshold : Z) (name : string) : bool :=
  strings.HasSuffix name ".snap.db" &&
  match dbIndex name with
  | inr index => index <? threshold
  | inl _ => false
  end.

Definition unparseable (name : string) : bool :=
  strings.HasSuffix name ".snap.db" &&
  match dbIndex name with
  | inr _ => false
  | inl _ => true
  end.

Definition parse_failure (name : string) : LogEntry :=
  {| level := Error;
     msg := "failed to parse index from snapshot database filename";
     at_path := name |}.

Definition remove_failure (name : string) : LogEntry :=
  {| level := Error;
     msg := "failed to remove orphaned .snap.db file";
     at_path := name |}.

Definition rename_failure (p : path) : LogEntry :=
  {| level := Warn; msg := "failed to rename a broken snap file"; at_path := path_string p |}.

Definition snapshot_at (term index : Z) (data : bytes) : Snapshot :=
  {| Data := data; Metadata := Some {| Term := term; Index := index |} |}.

(** The answer of the predicate of [LoadNewestAvailable] on a snapshot that
    has metadata. *)
Definition matches (walSnaps : list WalSnapshot) (x : Snapshot) : bool :=
  match Metadata x with
  | Some m => existsb (fun ws => (Term m =? WalTerm ws) && (Index m =? WalIndex ws))
                      (rev walSnaps)
  | None => false
  end.

(** Bit [k] of a byte, inverted. *)
Definition flip_bit (k : nat) (b : byte) : byte :=
  match Byte.of_N (N.lxor (Byte.to_N b) (2 ^ N.of_nat k)) with
  | Some b' => b'
  | None => b
  end.

(** Bit [pos mod 8] of byte [pos / 8] of a file, inverted. *)
Fixpoint flip_at (pos : nat) (f : bytes) : bytes :=
  match f with
  | [] => []
  | c :: r => if (pos <? 8)%nat then flip_bit pos c :: r else c :: flip_at (pos - 8) r
  end.

(** No injected fault concerns the directory [d]. *)
Definition healthy (io : Faults) (d : string) : Prop :=
  open_fault d = None /\ readdir_fault d = None /\
  forall n, read_fault (d, n) = None /\ write_fault (d, n) = None /\
            remove_fault (d, n) = None /\ rename_fault (d, n) = None.

(** The matching function leaves the world as it found it, whether it
    answers or panics. *)
Definition observer (f : Snapshot -> Go bool) : Prop :=
  forall x w, world_of (f x w) = w.

(** The warnings [save] writes when the write, and then the removal of the
    file it may have left, fail. *)
Definition write_failure (p : path) : LogEntry :=
  {| level := Warn; msg := "failed to write a snap file"; at_path := path_string p |}.

Definition cleanup_failure (p : path) : LogEntry :=
  {| level := Warn; msg := "failed to remove a broken snap file"; at_path := path_string p |}.

(** What a load leaves of the entry [n] of [d] that held [before]: the same
    bytes under the same name, or under the quarantine name; an entry that
    was absent stays absent. *)
Definition kept (d n : string) (before : option bytes) (fs : list (path * bytes)) : Prop :=
  match before with
  | Some b => lookup (d, n) fs = Some b \/
              (lookup (d, n) fs = None /\ lookup (d, brokenName n) fs = Some b)
  | None => lookup (d, n) fs = None
  end.

(** A name [checkSuffix] warns about: neither a snapshot nor a valid file. *)
Definition unexpected (name : string) : bool :=
  negb (is_snap name) && negb (validFiles_has name).

Definition unexpected_file (name : string) : LogEntry :=
  {| level := Warn; msg := "found unexpected non-snap file; skipping"; at_path := name |}.

(** [name] is a [.snap.db] file whose index text parses. *)
Definition parseable (name : string) : bool :=
  strings.HasSuffix name ".snap.db" &&
  match dbIndex name with
  | inr _ => true
  | inl _ => false
  end.

Section WithEnv.
Context {codec : Codec} {io : Faults}.

(** What [readSnap] returns for [p] in the world [w]. *)
Definition read_result (w : World) (p : path) : Result Snapshot :=
  value_of (readSnap p w).

(** The candidate [n] reads well and satisfies [p]. *)
Definition accepts (w : World) (d : string) (p : Snapshot -> bool) (n : string) : bool :=
  match read_result w (d, n) with
  | Ok x => p x
  | Err _ => false
  end.

(** The first accepted name of [names] decides the result. *)
Definition scan (w : World) (d : string) (p : Snapshot -> bool) (names : list string)
  : Result Snapshot :=
  match find (accepts w d p) names with
  | Some n => read_result w (d, n)
  | None => Err ErrNoSnapshot
  end.

(** The payload and the file [save] produces for a snapshot. *)
Definition encodes (snapshot : Snapshot) (b f : bytes) : Prop :=
  MarshalSnapshot snapshot = inr b /\
  MarshalSaved {| Crc := crc32.Update 0 crcTable b; Payload := b |} = inr f.

(** The directory after the rename attempted by [loadSnap]. *)
Definition quarantined (d name : string) (fs : list (path * bytes)) : list (path * bytes) :=
  match rename_fault (d, name), lookup (d, name) fs with
  | None, Some b => (d, brokenName name, b) :: delete (d, brokenName name) (delete (d, name) fs)
  | _, _ => fs
  end.

(** [cur] is a later state of the directory [d] of [w]: candidates that
    were valid are untouched, candidates that were not still are not. *)
Definition agrees (d : string) (w cur : World) : Prop :=
  forall n, candidate_name n = true ->
    (forall x, read_result w (d, n) = Ok x ->
               lookup (d, n) (files cur) = lookup (d, n) (files w)) /\
    (forall e, read_result w (d, n) = Err e ->
               exists e', read_result cur (d, n) = Err e').

(** No removal of an orphan of [filenames] meets an injected fault. *)
Definition removable (d : string) (filenames : list string) : Prop :=
  forall n, In n filenames -> orphan n = true -> remove_fault (d, n) = None.

(** [name] is stale and its removal meets no injected fault. *)
Definition released (d : string) (threshold : Z) (name : string) : bool :=
  stale threshold name &&
  match remove_fault (d, name) with None => true | Some _ => false end.

End WithEnv.
End View.

(* ================================================================= *)
(** ** Closed examples *)

Module Examples.
Import os snappb snap View.

Definition no_faults : Faults := {|
  open_fault := fun _ => None;
  readdir_fault := fun _ => None;
  read_fault := fun _ => None;
  write_fault := fun _ => None;
  remove_fault := fun _ => None;
  rename_fault := fun _ => None
|}.

Definition demo : Snapshotter := NewSnapshotter "member/snap".

Definition empty_world : World := {| files := []; log := [] |}.

(** A directory with an orphaned temporary file and the [db] file. *)
Definition stray_world : World :=
  {| files := [(("member/snap", "db.tmp123"), []); (("member/snap", "db"), [])];
     log := [] |}.

(** Three auxiliary database files, indices 1, 5 and 2. *)
Definition aux_world : World :=
  {| files := [(("member/snap", "0000000000000001.snap.db"), []);
               (("member/snap", "0000000000000005.snap.db"), []);
               (("member/snap", "0000000000000002.snap.db"), [])];
     log := [] |}.

Definition retained3 : Snapshot := snapshot_at 1 3 [].

(** The payload and the file of a snapshot under the proto3 codec. *)
Definition payload_of (x : Snapshot) : bytes :=
  match wire.MarshalSnapshot x with
  | inr b => b
  | inl _ => []
  end.

Definition file_of (x : Snapshot) : bytes :=
  match wire.MarshalSaved {| Crc := crc32.Update 0 crcTable (payload_of x);
                             Payload := payload_of x |} with
  | inr f => f
  | inl _ => []
  end.

Definition hello : Snapshot := snapshot_at 1 5 (list_byte_of_string "hello").

Definition hello_name : string := "0000000000000001-0000000000000005.snap".

Definition saved_world : World :=
  written ("member/snap", hello_name) (file_of hello) stray_world.

(** Two snapshots whose serialised payload has the CRC-32C value zero. *)
Definition zero_crc_1 : Snapshot := snapshot_at 1 1 (map wire.byte_of [116; 83; 152; 82]).

Definition zero_crc_5 : Snapshot := snapshot_at 1 5 (map wire.byte_of [122; 162; 162; 197]).

(** A directory on a read-only disk: every write, removal and rename fails. *)
Definition read_only : Faults := {|
  open_fault := fun _ => None;
  readdir_fault := fun _ => None;
  read_fault := fun _ => None;
  write_fault := fun _ => Some ReadOnly;
  remove_fault := fun _ => Some ReadOnly;
  rename_fault := fun _ => Some ReadOnly
|}.

(** A snapshot without metadata; [SaveSnap] never writes one. *)
Definition bare : Snapshot := {| Data := list_byte_of_string "A"; Metadata := None |}.

(** The snapshot (1,1) as saved, and a well-formed envelope around [bare]
    stored under the name of (1,2). *)
Definition bare_world : World :=
  written ("member/snap", "0000000000000001-0000000000000002.snap") (file_of bare)
    (written ("member/snap", "0000000000000001-0000000000000001.snap")
       (file_of (snapshot_at 1 1 [])) empty_world).

(** A full disk: every write fails, removals and renames work. *)
Definition full_disk : Faults := {|
  open_fault := fun _ => None;
  readdir_fault := fun _ => None;
  read_fault := fun _ => None;
  write_fault := fun _ => Some NoSpace;
  remove_fault := fun _ => None;
  rename_fault := fun _ => None
|}.

(** The removal of [db.tmp2] is denied; every other call works. *)
Definition stuck_orphan : Faults := {|
  open_fault := fun _ => None;
  readdir_fault := fun _ => None;
  read_fault := fun _ => None;
  write_fault := fun _ => None;
  remove_fault := fun p => if String.eqb (snd p) "db.tmp2" then Some Denied else None;
  rename_fault := fun _ => None
|}.

(** Three orphans around one other file. *)
Definition orphans_world : World :=
  {| files := [(("member/snap", "db.tmp1"), []); (("member/snap", "x"), []);
               (("member/snap", "db.tmp2"), []); (("member/snap", "db.tmp3"), [])];
     log := [] |}.

(** A saved snapshot next to [db], nothing else. *)
Definition clean_world : World :=
  written ("member/snap", hello_name) (file_of hello)
    {| files := [(("member/snap", "db"), [])]; log := [] |}.

(** A saved snapshot next to the three auxiliary database files. *)
Definition mixed_world : World :=
  written ("member/snap", hello_name) (file_of hello) aux_world.

(** The saved snapshot with one bit of its payload inverted. *)
Definition damaged_world : World :=
  written ("member/snap", hello_name) (flip_at 67 (file_of hello)) stray_world.

(** The entries of [saved_world] in another directory order, with one more
    file that is no candidate. *)
Definition shuffled_world : World :=
  {| files := [(("member/snap", "db"), []);
               (("member/snap", "notes.txt"), []);
               (("member/snap", hello_name), file_of hello);
               (("member/snap", "db.tmp123"), [])];
     log := [] |}.

End Examples.

(* ================================================================= *)
(** ** Proof steps used more than once *)

(** Unfold the monad. *)
Ltac go := unfold os.bind, os.ret, os.logf, os.panic in *; simpl in *.

(** The log of a later world extends the log of an earlier one. *)
Ltac log_ext :=
  match goal with
  | |- exists l, ?a :: ?b :: os.log ?w = l ++ os.log ?w => exists [a; b]; reflexivity
  | |- exists l, ?a :: os.log ?w = l ++ os.log ?w => exists [a]; reflexivity
  | |- exists l, os.log ?w = l ++ os.log ?w => exists []; reflexivity
  end.

(* ================================================================= *)
(** ** Facts about the library functions *)

Module StringFacts.
Import strings.

Lemma append_assoc (a b c : string) : ((a ++ b) ++ c = a ++ (b ++ c))%string.
Proof. induction a; simpl; congruence. Qed.

Lemma append_nil_r (a : string) : (a ++ "")%string = a.
Proof. induction a; simpl; congruence. Qed.

Lemma length_append (a b : string) :
  String.length (a ++ b) = (String.length a + String.length b)%nat.
Proof. induction a; simpl; congruence. Qed.

Lemma slice_from_append (p q : string) : slice_from (String.length p) (p ++ q) = q.
Proof. induction p; simpl; auto. Qed.

Lemma slice_to_append (p q : string) : slice_to (String.length p) (p ++ q) = p.
Proof. induction p; simpl; congruence. Qed.

Lemma slice_split (n : nat) (s : string) :
  (n <= String.length s)%nat ->
  s = (slice_to n s ++ slice_from n s)%string /\ String.length (slice_to n s) = n.
Proof.
  revert s; induction n as [|n IH]; intros [|c r] Hn; simpl in *; auto; try lia.
  destruct (IH r) as [E L]; [lia|]. split; [congruence | lia].
Qed.

Lemma HasSuffix_iff (s suf : string) :
  HasSuffix s suf = true <-> exists p, s = (p ++ suf)%string.
Proof.
  unfold HasSuffix. rewrite andb_true_iff, Nat.leb_le, String.eqb_eq. split.
  - intros [Hl He].
    destruct (slice_split (String.length s - String.length suf) s) as [E _]; [lia|].
    rewrite He in E. eauto.
  - intros [p ->]. rewrite length_append. split; [lia|].
    replace (String.length p + String.length suf - String.length suf)%nat
      with (String.length p) by lia.
    apply slice_from_append.
Qed.

Lemma HasPrefix_iff (s pre : string) :
  HasPrefix s pre = true <-> exists r, s = (pre ++ r)%string.
Proof.
  unfold HasPrefix. rewrite andb_true_iff, Nat.leb_le, String.eqb_eq. split.
  - intros [Hl He].
    destruct (slice_split (String.length pre) s) as [E _]; [lia|].
    rewrite He in E. eauto.
  - intros [r ->]. rewrite length_append. split; [lia|]. apply slice_to_append.
Qed.

Lemma append_last_inj (a b : string) (c d : ascii) :
  (a ++ String c "")%string = (b ++ String d "")%string -> a = b /\ c = d.
Proof.
  revert b; induction a as [|x a IH]; intros [|y b] H; simpl in H.
  - inversion H; auto.
  - inversion H as [[H1 H2]]. destruct b; discriminate.
  - inversion H as [[H1 H2]]. destruct a; discriminate.
  - inversion H as [[H1 H2]]. destruct (IH _ H2). split; congruence.
Qed.

Lemma append_inj_r (a b suf : string) :
  (a ++ suf)%string = (b ++ suf)%string -> a = b.
Proof.
  revert a b; induction suf as [|c suf IH]; intros a b H.
  - now rewrite !append_nil_r in H.
  - change (String c suf) with (String c "" ++ suf)%string in H.
    rewrite <- !append_assoc in H. apply IH in H.
    now apply append_last_inj in H.
Qed.

Lemma TrimSuffix_append (p suf : string) : TrimSuffix (p ++ suf) suf = p.
Proof.
  unfold TrimSuffix.
  assert (H : HasSuffix (p ++ suf) suf = true) by (apply HasSuffix_iff; eauto).
  rewrite H, length_append.
  replace (String.length p + String.length suf - String.length suf)%nat
    with (String.length p) by lia.
  apply slice_to_append.
Qed.

(** A quarantined name is never a candidate again. *)
Lemma broken_not_snap (n : string) : HasSuffix (n ++ ".broken") ".snap" = false.
Proof.
  destruct (HasSuffix (n ++ ".broken") ".snap") eqn:E; auto.
  apply HasSuffix_iff in E. destruct E as [p E].
  change ".broken" with (".broke" ++ String "n" "")%string in E.
  change ".snap" with (".sna" ++ String "p" "")%string in E.
  rewrite <- !append_assoc in E. apply append_last_inj in E.
  destruct E as [_ E]. discriminate.
Qed.

Lemma broken_neq (n : string) : (n ++ ".broken")%string <> n.
Proof.
  intros E. apply (f_equal String.length) in E. rewrite length_append in E.
  simpl in E. lia.
Qed.

Lemma broken_not_orphan (n : string) :
  HasSuffix n ".snap" = true ->
  HasPrefix (n ++ ".broken") "db.tmp" = true -> HasPrefix n "db.tmp" = true.
Proof.
  intros Hs Hp. apply HasSuffix_iff in Hs. destruct Hs as [p ->].
  apply HasPrefix_iff in Hp. destruct Hp as [r Hp]. apply HasPrefix_iff.
  do 6 (destruct p as [|? p]; [simpl in Hp; inversion Hp|]).
  simpl in Hp. inversion Hp; subst. simpl. eauto.
Qed.

End StringFacts.

Module OrderFacts.
Import strings sort View.

Lemma ascii_compare_refl (c : ascii) : Ascii.compare c c = Eq.
Proof. unfold Ascii.compare. apply N.compare_refl. Qed.

Lemma compare_refl (a : string) : String.compare a a = Eq.
Proof. induction a; simpl; auto. now rewrite ascii_compare_refl. Qed.

Lemma compare_lt_trans (a b c : string) :
  String.compare a b = Lt -> String.compare b c = Lt -> String.compare a c = Lt.
Proof.
  revert b c; induction a as [|x a IH]; intros [|y b] [|z c]; simpl; try congruence.
  unfold Ascii.compare.
  destruct (N.compare_spec (N_of_ascii x) (N_of_ascii y)) as [E1|L1|G1]; try congruence;
  destruct (N.compare_spec (N_of_ascii y) (N_of_ascii z)) as [E2|L2|G2]; try congruence;
  intros H1 H2.
  - rewrite E1, E2, N.compare_refl. eauto.
  - rewrite E1. now apply N.compare_lt_iff in L2 as ->.
  - rewrite <- E2. now apply N.compare_lt_iff in L1 as ->.
  - assert (L : (N_of_ascii x < N_of_ascii z)%N) by lia.
    now apply N.compare_lt_iff in L as ->.
Qed.

Lemma lt_irrefl (a : string) : lt a a = false.
Proof. unfold lt, String.ltb. now rewrite compare_refl. Qed.

Lemma lt_trans (a b c : string) : lt a b = true -> lt b c = true -> lt a c = true.
Proof.
  unfold lt, String.ltb. intros H1 H2.
  destruct (String.compare a b) eqn:E1; try discriminate.
  destruct (String.compare b c) eqn:E2; try discriminate.
  now rewrite (compare_lt_trans _ _ _ E1 E2).
Qed.

Lemma lt_total (a b : string) : lt a b = false -> lt b a = false -> a = b.
Proof.
  unfold lt, String.ltb. rewrite (String.compare_antisym b a).
  destruct (String.compare a b) eqn:E; simpl; try discriminate.
  intros _ _. now apply String.compare_eq_iff.
Qed.

Lemma ge_str_trans (a b c : string) : ge_str a b -> ge_str b c -> ge_str a c.
Proof.
  unfold ge_str. intros H1 H2. destruct (lt a c) eqn:E; auto.
  destruct (lt b a) eqn:E1.
  - rewrite (lt_trans _ _ _ E1 E) in H2. discriminate.
  - rewrite (lt_total _ _ H1 E1) in E. congruence.
Qed.

Lemma lt_ge_str (a b : string) : lt a b = true -> ge_str b a.
Proof.
  unfold ge_str. intros H. destruct (lt b a) eqn:E; auto.
  pose proof (lt_trans _ _ _ H E) as C. rewrite lt_irrefl in C. discriminate.
Qed.

Lemma insert_desc_perm (x : string) (l : list string) :
  Permutation (x :: l) (insert_desc x l).
Proof.
  induction l as [|y r IH]; simpl; auto.
  destruct (lt x y); auto.
  rewrite perm_swap. now constructor.
Qed.

Lemma SortReverseStrings_perm (l : list string) :
  Permutation l (SortReverseStrings l).
Proof.
  induction l as [|x r IH]; simpl; auto.
  rewrite <- insert_desc_perm. now constructor.
Qed.

Lemma insert_desc_sorted (x : string) (l : list string) :
  StronglySorted ge_str l -> StronglySorted ge_str (insert_desc x l).
Proof.
  induction 1 as [|y r Hs IH Hall]; simpl.
  - repeat constructor.
  - destruct (lt x y) eqn:E.
    + constructor; auto.
      apply Forall_forall. intros z Hz.
      apply (Permutation_in _ (Permutation_sym (insert_desc_perm x r))) in Hz.
      destruct Hz as [<-|Hz]; [now apply lt_ge_str|].
      rewrite Forall_forall in Hall. auto.
    + constructor; [constructor; auto|].
      constructor; [exact E|].
      apply Forall_forall. intros z Hz. rewrite Forall_forall in Hall.
      apply ge_str_trans with y; auto.
Qed.

Lemma SortReverseStrings_sorted (l : list string) :
  StronglySorted ge_str (SortReverseStrings l).
Proof.
  induction l; simpl; [constructor | now apply insert_desc_sorted].
Qed.

Lemma SortReverseStrings_In (l : list string) (x : string) :
  In x (SortReverseStrings l) <-> In x l.
Proof.
  split; apply Permutation_in;
    [apply Permutation_sym|]; apply SortReverseStrings_perm.
Qed.

End OrderFacts.

Module FmtFacts.
Import fmt.

Lemma hex_digit_compare (a b : Z) :
  0 <= a < 16 -> 0 <= b < 16 ->
  Ascii.compare (hex_digit a) (hex_digit b) = (a ?= b).
Proof.
  intros Ha Hb.
  assert (Ea : a = 0 \/ a = 1 \/ a = 2 \/ a = 3 \/ a = 4 \/ a = 5 \/ a = 6 \/ a = 7 \/
               a = 8 \/ a = 9 \/ a = 10 \/ a = 11 \/ a = 12 \/ a = 13 \/ a = 14 \/ a = 15) by lia.
  assert (Eb : b = 0 \/ b = 1 \/ b = 2 \/ b = 3 \/ b = 4 \/ b = 5 \/ b = 6 \/ b = 7 \/
               b = 8 \/ b = 9 \/ b = 10 \/ b = 11 \/ b = 12 \/ b = 13 \/ b = 14 \/ b = 15) by lia.
  repeat (destruct Ea as [->|Ea]); try subst a;
  repeat (destruct Eb as [->|Eb]); try subst b; reflexivity.
Qed.

Lemma hex_digit_not_dot (a : Z) : 0 <= a < 16 -> hex_digit a <> "."%char.
Proof.
  intros Ha.
  assert (Ea : a = 0 \/ a = 1 \/ a = 2 \/ a = 3 \/ a = 4 \/ a = 5 \/ a = 6 \/ a = 7 \/
               a = 8 \/ a = 9 \/ a = 10 \/ a = 11 \/ a = 12 \/ a = 13 \/ a = 14 \/ a = 15) by lia.
  repeat (destruct Ea as [->|Ea]); try subst a; discriminate.
Qed.

Lemma hex_fill_acc (w : nat) (u : Z) (acc : string) :
  hex_fill w u acc = (hex_fill w u "" ++ acc)%string.
Proof.
  revert u acc; induction w as [|w IH]; intros u acc; simpl; auto.
  rewrite IH. rewrite (IH _ (String _ "")).
  now rewrite StringFacts.append_assoc.
Qed.

Lemma hex_fill_compare (w : nat) (u1 u2 : Z) (a1 a2 : string) :
  String.compare (hex_fill w u1 a1) (hex_fill w u2 a2) =
  match u1 mod 16 ^ Z.of_nat w ?= u2 mod 16 ^ Z.of_nat w with
  | Eq => String.compare a1 a2
  | o => o
  end.
Proof.
  revert u1 u2 a1 a2; induction w as [|w IH]; intros u1 u2 a1 a2.
  - simpl. now rewrite !Z.mod_1_r.
  - cbn [hex_fill]. rewrite IH. cbn [String.compare].
    rewrite hex_digit_compare by (apply Z.mod_pos_bound; lia).
    assert (E : forall u, u mod 16 ^ Z.of_nat (S w) =
                          16 * ((u / 16) mod 16 ^ Z.of_nat w) + u mod 16).
    { intros u. rewrite Nat2Z.inj_succ, Z.pow_succ_r by lia.
      rewrite Z.rem_mul_r by lia. lia. }
    rewrite (E u1), (E u2).
    set (q1 := (u1 / 16) mod 16 ^ Z.of_nat w).
    set (q2 := (u2 / 16) mod 16 ^ Z.of_nat w).
    pose proof (Z.mod_pos_bound u1 16 ltac:(lia)).
    pose proof (Z.mod_pos_bound u2 16 ltac:(lia)).
    destruct (Z.compare_spec q1 q2);
    destruct (Z.compare_spec (u1 mod 16) (u2 mod 16));
    destruct (Z.compare_spec (16 * q1 + u1 mod 16) (16 * q2 + u2 mod 16)); auto; lia.
Qed.

End FmtFacts.

Module NameFacts.
Import strings snap snappb FmtFacts.

Lemma snapName_acc (t i : Z) :
  snapName t i = fmt.hex_fill 16 t (String "-" (fmt.hex_fill 16 i ".snap")).
Proof.
  unfold snapName, fmt.x016.
  rewrite (hex_fill_acc 16 i ".snap"), (hex_fill_acc 16 t (String _ _)).
  reflexivity.
Qed.

Lemma snapName_compare (t1 i1 t2 i2 : Z) :
  uint64 t1 -> uint64 i1 -> uint64 t2 -> uint64 i2 ->
  String.compare (snapName t1 i1) (snapName t2 i2) =
  match t1 ?= t2 with Eq => i1 ?= i2 | o => o end.
Proof.
  unfold uint64. intros Ht1 Hi1 Ht2 Hi2.
  rewrite !snapName_acc, hex_fill_compare.
  change (16 ^ Z.of_nat 16) with (2 ^ 64).
  rewrite !Z.mod_small by assumption.
  destruct (t1 ?= t2); auto.
  cbn [String.compare]. rewrite OrderFacts.ascii_compare_refl.
  rewrite hex_fill_compare.
  change (16 ^ Z.of_nat 16) with (2 ^ 64).
  rewrite !Z.mod_small by assumption.
  destruct (i1 ?= i2); auto.
Qed.

Lemma snapName_suffix (t i : Z) : HasSuffix (snapName t i) ".snap" = true.
Proof.
  apply StringFacts.HasSuffix_iff.
  exists (fmt.x016 t ++ "-" ++ fmt.x016 i)%string.
  unfold snapName. now rewrite !StringFacts.append_assoc.
Qed.

Lemma snapName_not_orphan (t i : Z) : HasPrefix (snapName t i) "db.tmp" = false.
Proof.
  destruct (HasPrefix (snapName t i) "db.tmp") eqn:E; auto.
  apply StringFacts.HasPrefix_iff in E. destruct E as [r E].
  rewrite snapName_acc in E.
  change 16%nat with (13 + 3)%nat in E at 1.
  revert E. generalize (String "-" (fmt.hex_fill 16 i ".snap")) as acc.
  generalize t as u. clear. generalize 13%nat as n.
  induction n as [|n IH]; intros u acc E.
  - cbn [Nat.add fmt.hex_fill] in E.
    simpl append in E. inversion E as [[H1 H2 H3]].
    exfalso. apply (hex_digit_not_dot (u mod 16)); auto.
    apply Z.mod_pos_bound; lia.
  - cbn [Nat.add fmt.hex_fill] in E. eapply IH; eauto.
Qed.

End NameFacts.

Module FsFacts.
Import os.

Lemma path_eqb_eq (p q : path) : path_eqb p q = true <-> p = q.
Proof.
  destruct p, q. unfold path_eqb. simpl.
  rewrite andb_true_iff, !String.eqb_eq. split; [intros []|intros [=]]; subst; auto.
Qed.

Lemma path_eqb_refl (p : path) : path_eqb p p = true.
Proof. now apply path_eqb_eq. Qed.

Lemma path_eqb_neq (p q : path) : path_eqb p q = false <-> p <> q.
Proof.
  rewrite <- path_eqb_eq. destruct (path_eqb p q); split; congruence.
Qed.

Lemma lookup_delete_same (p : path) fs : lookup p (delete p fs) = None.
Proof.
  induction fs as [|[q b] r IH]; simpl; auto.
  destruct (path_eqb p q) eqn:E; simpl; auto. now rewrite E.
Qed.

Lemma lookup_delete_other (p q : path) fs :
  p <> q -> lookup p (delete q fs) = lookup p fs.
Proof.
  intros N. induction fs as [|[x b] r IH]; simpl; auto.
  destruct (path_eqb q x) eqn:E; simpl.
  - apply path_eqb_eq in E. subst x.
    apply path_eqb_neq in N. now rewrite N.
  - now rewrite IH.
Qed.

Lemma lookup_cons_same (p : path) b fs : lookup p ((p, b) :: fs) = Some b.
Proof. simpl. now rewrite path_eqb_refl. Qed.

Lemma lookup_cons_other (p q : path) b fs :
  p <> q -> lookup p ((q, b) :: fs) = lookup p fs.
Proof. intros N. simpl. apply path_eqb_neq in N. now rewrite N. Qed.

Lemma lookup_In (p : path) fs b : lookup p fs = Some b -> In (p, b) fs.
Proof.
  induction fs as [|[q c] r IH]; simpl; [discriminate|].
  destruct (path_eqb p q) eqn:E.
  - apply path_eqb_eq in E. intros [=]. subst. auto.
  - auto.
Qed.

Lemma In_lookup (p : path) fs b : In (p, b) fs -> lookup p fs <> None.
Proof.
  induction fs as [|[q c] r IH]; simpl; [tauto|].
  intros [[=]|H]; subst.
  - now rewrite path_eqb_refl.
  - destruct (path_eqb p q); [discriminate|auto].
Qed.

End FsFacts.

Module CrcFacts.
Import crc32 snap View.

Lemma distinct_NoDup (l : list Z) : distinct l = true -> NoDup l.
Proof.
  induction l as [|x r IH]; simpl; [constructor|].
  rewrite andb_true_iff, negb_true_iff. intros [H1 H2].
  constructor; auto. intros Hin.
  assert (E : existsb (Z.eqb x) r = true).
  { apply existsb_exists. exists x. split; auto. apply Z.eqb_refl. }
  congruence.
Qed.

Lemma crcTable_ok : table_ok crcTable = true.
Proof. vm_compute. reflexivity. Qed.

Lemma crcTable_length : List.length crcTable = 256%nat.
Proof.
  pose proof crcTable_ok as H. unfold table_ok in H.
  rewrite !andb_true_iff in H. now apply Nat.eqb_eq.
Qed.

Lemma crcTable_range (i : nat) : (i < 256)%nat -> word32 (nth i crcTable 0).
Proof.
  intros Hi. pose proof crcTable_ok as H. unfold table_ok in H.
  rewrite !andb_true_iff in H. destruct H as [[_ H] _].
  rewrite forallb_forall in H.
  specialize (H (nth i crcTable 0)).
  rewrite andb_true_iff in H. unfold word32.
  destruct H; [apply nth_In; rewrite crcTable_length; lia | lia].
Qed.

Lemma crcTable_top_inj (i j : nat) :
  (i < 256)%nat -> (j < 256)%nat ->
  Z.shiftr (nth i crcTable 0) 24 = Z.shiftr (nth j crcTable 0) 24 -> i = j.
Proof.
  intros Hi Hj E. pose proof crcTable_ok as H. unfold table_ok in H.
  rewrite !andb_true_iff in H. destruct H as [_ H].
  apply distinct_NoDup in H.
  rewrite NoDup_nth with (d := 0) in H.
  apply H; rewrite ?length_map, ?crcTable_length; auto.
  assert (M : forall k, nth k (map (fun x => Z.shiftr x 24) crcTable) 0
                        = Z.shiftr (nth k crcTable 0) 24)
    by (intros k; exact (map_nth (fun x => Z.shiftr x 24) crcTable 0 k)).
  now rewrite !M.
Qed.

Lemma lxor_bound (n a b : Z) :
  0 <= n -> 0 <= a < 2 ^ n -> 0 <= b < 2 ^ n -> 0 <= Z.lxor a b < 2 ^ n.
Proof.
  intros Hn Ha Hb.
  assert (H0 : 0 <= Z.lxor a b) by (apply Z.lxor_nonneg; lia).
  split; [assumption|].
  destruct (Z.eq_dec (Z.lxor a b) 0) as [->|N]; [lia|].
  assert (Hp : 0 < n).
  { destruct (Z.eq_dec n 0) as [->|]; [|lia].
    change (2 ^ 0) with 1 in *.
    assert (a = 0) by lia. assert (b = 0) by lia. subst. now elim N. }
  apply Z.log2_lt_pow2; [lia|].
  eapply Z.le_lt_trans; [apply Z.log2_lxor; lia|].
  apply Z.max_lub_lt.
  - destruct (Z.eq_dec a 0) as [->|]; [simpl; lia|]. apply Z.log2_lt_pow2; lia.
  - destruct (Z.eq_dec b 0) as [->|]; [simpl; lia|]. apply Z.log2_lt_pow2; lia.
Qed.

Lemma lxor_cancel_l (a b c : Z) : Z.lxor a b = Z.lxor a c -> b = c.
Proof.
  intros H. apply (f_equal (Z.lxor a)) in H.
  now rewrite <- !Z.lxor_assoc, Z.lxor_nilpotent, !Z.lxor_0_l in H.
Qed.

Lemma lxor_cancel_r (a b c : Z) : Z.lxor b a = Z.lxor c a -> b = c.
Proof. rewrite !(Z.lxor_comm _ a). apply lxor_cancel_l. Qed.

Lemma byte_val_range (v : byte) : 0 <= byte_val v < 256.
Proof. unfold byte_val. pose proof (Byte.to_N_bounded v). lia. Qed.

Lemma byte_val_inj (u v : byte) : byte_val u = byte_val v -> u = v.
Proof.
  unfold byte_val. intros H. apply N2Z.inj in H.
  pose proof (Byte.of_to_N u) as Hu. rewrite H, Byte.of_to_N in Hu. congruence.
Qed.

Lemma low8_range (s : Z) : 0 <= Z.land s 255 < 256.
Proof.
  change 255 with (Z.ones 8). rewrite Z.land_ones by lia.
  apply Z.mod_pos_bound. lia.
Qed.

Lemma index_range (s : Z) (v : byte) :
  0 <= Z.lxor (Z.land s 255) (byte_val v) < 256.
Proof.
  apply (lxor_bound 8); [lia | apply low8_range | apply byte_val_range].
Qed.

Lemma step_range (s : Z) (v : byte) : word32 s -> word32 (step crcTable s v).
Proof.
  unfold word32, step. intros Hs.
  pose proof (index_range s v) as Hi.
  apply (lxor_bound 32); [lia | apply crcTable_range; lia |].
  rewrite Z.shiftr_div_pow2 by lia. split.
  - apply Z.div_pos; lia.
  - apply Z.div_lt_upper_bound; lia.
Qed.

Lemma step_top (s : Z) (v : byte) :
  word32 s ->
  Z.shiftr (step crcTable s v) 24 =
  Z.shiftr (nth (Z.to_nat (Z.lxor (Z.land s 255) (byte_val v))) crcTable 0) 24.
Proof.
  unfold word32, step. intros Hs.
  rewrite Z.shiftr_lxor, Z.shiftr_shiftr by lia.
  replace (Z.shiftr s (8 + 24)) with 0; [apply Z.lxor_0_r|].
  rewrite Z.shiftr_div_pow2 by lia. symmetry. apply Z.div_small. lia.
Qed.

Lemma step_index (s1 s2 : Z) (v1 v2 : byte) :
  word32 s1 -> word32 s2 ->
  step crcTable s1 v1 = step crcTable s2 v2 ->
  Z.lxor (Z.land s1 255) (byte_val v1) = Z.lxor (Z.land s2 255) (byte_val v2).
Proof.
  intros H1 H2 E.
  pose proof (index_range s1 v1). pose proof (index_range s2 v2).
  apply (f_equal (fun x => Z.shiftr x 24)) in E.
  rewrite !step_top in E by assumption.
  apply crcTable_top_inj in E; lia.
Qed.

Lemma step_inj_state (s1 s2 : Z) (v : byte) :
  word32 s1 -> word32 s2 -> step crcTable s1 v = step crcTable s2 v -> s1 = s2.
Proof.
  intros H1 H2 E. pose proof (step_index _ _ _ _ H1 H2 E) as Ei.
  unfold step in E. rewrite Ei in E. apply lxor_cancel_l in E.
  apply lxor_cancel_r in Ei.
  change 255 with (Z.ones 8) in Ei. rewrite !Z.land_ones in Ei by lia.
  rewrite !Z.shiftr_div_pow2 in E by lia.
  rewrite (Z.div_mod s1 (2 ^ 8)), (Z.div_mod s2 (2 ^ 8)) by lia. congruence.
Qed.

Lemma step_inj_byte (s : Z) (v1 v2 : byte) :
  word32 s -> step crcTable s v1 = step crcTable s v2 -> v1 = v2.
Proof.
  intros H E. pose proof (step_index _ _ _ _ H H E) as Ei.
  apply lxor_cancel_l in Ei. now apply byte_val_inj.
Qed.

Lemma run_range (p : bytes) (s : Z) :
  word32 s -> word32 (fold_left (step crcTable) p s).
Proof.
  revert s; induction p as [|v p IH]; intros s Hs; simpl; auto.
  apply IH. now apply step_range.
Qed.

Lemma run_inj (p : bytes) (s1 s2 : Z) :
  word32 s1 -> word32 s2 ->
  fold_left (step crcTable) p s1 = fold_left (step crcTable) p s2 -> s1 = s2.
Proof.
  revert s1 s2; induction p as [|v p IH]; intros s1 s2 H1 H2 E; simpl in E; auto.
  apply IH in E; try now apply step_range.
  eapply step_inj_state; eauto.
Qed.

Lemma Update_range (p : bytes) : word32 (Update 0 crcTable p).
Proof.
  unfold Update, not32.
  assert (H : word32 (fold_left (step crcTable) p (Z.lxor 0 4294967295))).
  { apply run_range. unfold word32. simpl. lia. }
  unfold word32 in *. apply (lxor_bound 32); lia.
Qed.

(** Two inputs that differ in exactly one byte have different checksums. *)
Lemma Update_one_byte (a c : bytes) (x y : byte) :
  x <> y ->
  Update 0 crcTable (a ++ x :: c) <> Update 0 crcTable (a ++ y :: c).
Proof.
  intros N E. unfold Update, not32 in E. apply lxor_cancel_r in E.
  rewrite !fold_left_app in E. simpl in E.
  set (s := fold_left (step crcTable) a (Z.lxor 0 4294967295)) in *.
  assert (Hs : word32 s) by (apply run_range; unfold word32; simpl; lia).
  apply run_inj in E; try now apply step_range.
  apply step_inj_byte in E; auto.
Qed.

End CrcFacts.

Module WireFacts.
Import snappb wire View.

Lemma byte_val_of (z : Z) : 0 <= z < 256 -> crc32.byte_val (byte_of z) = z.
Proof.
  intros Hz. unfold byte_of, crc32.byte_val.
  destruct (Byte.of_N (Z.to_N z)) as [b|] eqn:E.
  - apply Byte.to_of_N in E. rewrite E. lia.
  - apply Byte.of_N_None_iff in E. lia.
Qed.

Lemma AppendVarint_nonempty (fuel : nat) (v : Z) :
  (0 < fuel)%nat -> AppendVarint fuel v <> [].
Proof. destruct fuel; [lia|]. simpl. destruct (v <? 128); discriminate. Qed.

Lemma varint_roundtrip (fuel : nat) :
  forall v shift acc rest,
    0 <= v -> 0 <= shift <= 63 -> v * 2 ^ shift < 2 ^ 64 ->
    70 <= shift + 7 * Z.of_nat fuel ->
    ConsumeVarint shift acc (AppendVarint fuel v ++ rest)
    = inr (acc + v * 2 ^ shift, rest).
Proof.
  induction fuel as [|fuel IH]; intros v shift acc rest Hv Hs Hb Hf; [lia|].
  cbn [AppendVarint]. destruct (v <? 128) eqn:E.
  - apply Z.ltb_lt in E. cbn [app ConsumeVarint].
    rewrite byte_val_of by lia.
    replace (63 <? shift) with false by (symmetry; apply Z.ltb_ge; lia).
    replace (v <? 128) with true by (symmetry; apply Z.ltb_lt; lia).
    destruct (shift =? 63) eqn:E63; simpl; auto.
    apply Z.eqb_eq in E63. subst shift.
    replace (1 <? v) with false; auto.
    symmetry. apply Z.ltb_ge. lia.
  - apply Z.ltb_ge in E. cbn [app ConsumeVarint].
    pose proof (Z.mod_pos_bound v 128 ltac:(lia)) as Hm.
    rewrite byte_val_of by lia.
    assert (Hp : 2 ^ (shift + 7) = 128 * 2 ^ shift)
      by (rewrite Z.pow_add_r by lia; lia).
    assert (Hsh : shift + 7 <= 63).
    { destruct (Z_le_gt_dec (shift + 7) 63) as [|G]; auto. exfalso.
      assert (2 ^ 64 <= 2 ^ (shift + 7)) by (apply Z.pow_le_mono_r; lia).
      assert (0 < 2 ^ shift) by (apply Z.pow_pos_nonneg; lia). nia. }
    replace (63 <? shift) with false by (symmetry; apply Z.ltb_ge; lia).
    replace (v mod 128 + 128 <? 128) with false by (symmetry; apply Z.ltb_ge; lia).
    assert (0 < 2 ^ shift) by (apply Z.pow_pos_nonneg; lia).
    pose proof (Z.div_mod v 128 ltac:(lia)) as Hd.
    rewrite IH.
    + f_equal. f_equal. rewrite Hp. nia.
    + apply Z.div_pos; lia.
    + lia.
    + rewrite Hp.
      assert (v / 128 * 128 <= v) by lia. nia.
    + lia.
Qed.

Lemma DecodeVarint_Encode (v : Z) (rest : bytes) :
  0 <= v < 2 ^ 64 -> DecodeVarint (EncodeVarint v ++ rest) = inr (v, rest).
Proof.
  intros Hv. unfold DecodeVarint, EncodeVarint.
  rewrite varint_roundtrip; try lia.
  simpl. f_equal. f_equal. lia.
Qed.

Lemma EncodeVarint_nonempty (v : Z) : EncodeVarint v <> [].
Proof. apply AppendVarint_nonempty. lia. Qed.

Lemma encode_field_nonempty (f : Field) : (1 <= List.length (encode_field f))%nat.
Proof.
  destruct f; simpl; rewrite length_app;
  match goal with
  | |- context [List.length (EncodeVarint ?k)] =>
      pose proof (EncodeVarint_nonempty k);
      destruct (EncodeVarint k); [congruence | simpl; lia]
  end.
Qed.

Lemma encode_fields_length (fs : list Field) :
  (List.length fs <= List.length (encode_fields fs))%nat.
Proof.
  induction fs as [|f fs IH]; simpl; auto.
  rewrite length_app. pose proof (encode_field_nonempty f). lia.
Qed.

Lemma parse_fields_step (fuel : nat) (f : Field) (rest : bytes) :
  wf_field f ->
  parse_fields (S fuel) (encode_field f ++ rest) =
  match parse_fields fuel rest with
  | inl e => inl e
  | inr fs => inr (f :: fs)
  end.
Proof.
  intros Hw.
  destruct (encode_field f ++ rest) as [|c b] eqn:Eb.
  { pose proof (encode_field_nonempty f) as H.
    apply (f_equal (@List.length _)) in Eb. rewrite length_app in Eb.
    simpl in Eb. lia. }
  cbn [parse_fields]. rewrite <- Eb. clear Eb c b.
  destruct f as [num v|num b| |]; cbn [wf_field] in Hw; try contradiction;
    destruct Hw as [Hn Hv]; cbn [encode_field]; rewrite <- !app_assoc.
  - rewrite DecodeVarint_Encode by lia.
    replace ((num * 8 + 0) / 8) with num by (apply Z.div_unique with 0; lia).
    replace ((num * 8 + 0) mod 8) with 0 by (apply Z.mod_unique with num; lia).
    replace (num =? 0) with false by (symmetry; apply Z.eqb_neq; lia).
    rewrite DecodeVarint_Encode by lia. reflexivity.
  - rewrite DecodeVarint_Encode by lia.
    replace ((num * 8 + 2) / 8) with num by (apply Z.div_unique with 2; lia).
    replace ((num * 8 + 2) mod 8) with 2 by (apply Z.mod_unique with num; lia).
    replace (num =? 0) with false by (symmetry; apply Z.eqb_neq; lia).
    rewrite DecodeVarint_Encode by lia.
    replace (Z.of_nat (List.length (b ++ rest)) <? Z.of_nat (List.length b)) with false
      by (symmetry; apply Z.ltb_ge; rewrite length_app; lia).
    rewrite Nat2Z.id.
    rewrite firstn_app, skipn_app, Nat.sub_diag, firstn_all, skipn_all.
    simpl. now rewrite app_nil_r.
Qed.

Lemma parse_fields_encode (fs : list Field) :
  forall fuel, (List.length fs <= fuel)%nat -> Forall wf_field fs ->
    parse_fields fuel (encode_fields fs) = inr fs.
Proof.
  induction fs as [|f fs IH]; intros fuel Hf Hw.
  - destruct fuel; reflexivity.
  - destruct fuel as [|fuel]; [simpl in Hf; lia|].
    inversion Hw; subst. cbn [encode_fields flat_map].
    rewrite parse_fields_step by assumption.
    change (flat_map encode_field fs) with (encode_fields fs).
    rewrite IH; auto. simpl in Hf. lia.
Qed.

Lemma Parse_encode (fs : list Field) :
  Forall wf_field fs -> Parse (encode_fields fs) = inr fs.
Proof.
  intros Hw. apply parse_fields_encode; auto. apply encode_fields_length.
Qed.

Lemma guard_size_inv (b out : bytes) :
  guard_size b = inr out -> out = b /\ Z.of_nat (List.length b) < 2 ^ 31.
Proof.
  unfold guard_size. destruct (Z.of_nat (List.length b) <? 2 ^ 31) eqn:E; [|discriminate].
  intros [=]. apply Z.ltb_lt in E. auto.
Qed.

Lemma metadata_fields_wf (m : SnapshotMetadata) :
  in_range64 (Term m) = true -> in_range64 (Index m) = true ->
  Forall wf_field (metadata_fields m).
Proof.
  unfold in_range64, metadata_fields. rewrite !andb_true_iff, !Z.leb_le, !Z.ltb_lt.
  intros H1 H2. apply Forall_app. split.
  - destruct (Term m =? 0); [constructor|].
    constructor; [cbn [wf_field]; lia | constructor].
  - destruct (Index m =? 0); [constructor|].
    constructor; [cbn [wf_field]; lia | constructor].
Qed.

Lemma metadata_of_fields_inv (m : SnapshotMetadata) :
  metadata_of_fields {| Term := 0; Index := 0 |} (metadata_fields m) = m.
Proof.
  destruct m as [t i]. unfold metadata_fields, metadata_of_fields. simpl.
  destruct (Z.eqb_spec t 0), (Z.eqb_spec i 0); subst; reflexivity.
Qed.

Lemma bytes_field_le (num : Z) (b : bytes) (fs : list Field) :
  In (BytesF num b) fs -> (List.length b <= List.length (encode_fields fs))%nat.
Proof.
  induction fs as [|f fs IH]; simpl; [tauto|].
  rewrite length_app. intros [->|H].
  - simpl. rewrite !length_app. lia.
  - apply IH in H. lia.
Qed.

Lemma snapshot_fields_wf (s : Snapshot) :
  snapshot_in_range s = true ->
  Z.of_nat (List.length (encode_fields (snapshot_fields s))) < 2 ^ 31 ->
  Forall wf_field (snapshot_fields s).
Proof.
  intros R Hlen. apply Forall_forall. intros f Hin.
  assert (Hb : forall num b, f = BytesF num b -> 1 <= num < 2 ^ 60 -> wf_field f).
  { intros num b -> Hn. split; auto.
    apply bytes_field_le in Hin. lia. }
  unfold snapshot_fields in Hin. apply in_app_or in Hin. destruct Hin as [Hin|Hin].
  - destruct (Data s); simpl in Hin; [tauto|].
    destruct Hin as [<-|[]]. eapply Hb; eauto. lia.
  - destruct (Metadata s); simpl in Hin; [|tauto].
    destruct Hin as [<-|[]]. eapply Hb; eauto. lia.
Qed.

Lemma wire_snapshot_roundtrip (s : Snapshot) (b : bytes) :
  MarshalSnapshot s = inr b -> UnmarshalSnapshot b = inr s.
Proof.
  unfold MarshalSnapshot. destruct (snapshot_in_range s) eqn:R; [|discriminate].
  intros H. apply guard_size_inv in H. destruct H as [-> Hlen].
  unfold UnmarshalSnapshot.
  rewrite Parse_encode by (now apply snapshot_fields_wf).
  destruct s as [d m]. unfold snapshot_in_range in R.
  unfold snapshot_fields. cbn [Data Metadata] in *.
  destruct m as [m|].
  - apply andb_true_iff in R. destruct R as [R1 R2].
    assert (E : snapshot_set (inr {| Data := d; Metadata := None |})
                  (BytesF 2 (encode_fields (metadata_fields m)))
                = inr {| Data := d; Metadata := Some m |}).
    { cbn [snapshot_set Data Metadata].
      rewrite Parse_encode by (now apply metadata_fields_wf).
      now rewrite metadata_of_fields_inv. }
    destruct d as [|x d]; cbn [app fold_left]; [exact E|].
    cbn [snapshot_set Data Metadata] in *. exact E.
  - destruct d as [|x d]; reflexivity.
Qed.

Lemma saved_fields_wf (e : SavedSnapshot) :
  in_range32 (Crc e) = true ->
  Z.of_nat (List.length (encode_fields (saved_fields e))) < 2 ^ 31 ->
  Forall wf_field (saved_fields e).
Proof.
  intros R Hlen. apply Forall_forall. intros f Hin.
  unfold in_range32 in R. rewrite andb_true_iff, Z.leb_le, Z.ltb_lt in R.
  pose proof Hin as Hin'.
  unfold saved_fields in Hin. apply in_app_or in Hin. destruct Hin as [Hin|Hin].
  - destruct (Crc e =? 0); simpl in Hin; [tauto|].
    destruct Hin as [<-|[]]. cbn [wf_field]. lia.
  - destruct (Payload e) eqn:P; simpl in Hin; [tauto|].
    destruct Hin as [<-|[]]. split; [lia|].
    apply bytes_field_le in Hin'. lia.
Qed.

Lemma wire_saved_roundtrip (e : SavedSnapshot) (b : bytes) :
  MarshalSaved e = inr b -> UnmarshalSaved b = inr e.
Proof.
  unfold MarshalSaved. destruct (in_range32 (Crc e)) eqn:R; [|discriminate].
  intros H. apply guard_size_inv in H. destruct H as [-> Hlen].
  unfold UnmarshalSaved.
  rewrite Parse_encode by (now apply saved_fields_wf).
  f_equal. destruct e as [c d]. unfold saved_fields. cbn [Crc Payload] in *.
  unfold in_range32 in R. rewrite andb_true_iff, Z.leb_le, Z.ltb_lt in R.
  destruct (Z.eqb_spec c 0) as [->|N]; destruct d as [|x d]; cbn; auto;
    rewrite Z.mod_small by lia; reflexivity.
Qed.

Lemma wire_snapshot_nonempty (s : Snapshot) (b : bytes) :
  MarshalSnapshot s = inr b -> Metadata s <> None -> b <> [].
Proof.
  unfold MarshalSnapshot. destruct (snapshot_in_range s); [|discriminate].
  intros H. apply guard_size_inv in H. destruct H as [-> _]. intros Hm E.
  apply (f_equal (@List.length _)) in E.
  pose proof (encode_fields_length (snapshot_fields s)) as L.
  rewrite E in L. unfold snapshot_fields in L.
  destruct (Metadata s); [|congruence].
  rewrite length_app in L. simpl in L. lia.
Qed.

Lemma wire_payload_verbatim (e : SavedSnapshot) (b : bytes) :
  MarshalSaved e = inr b ->
  exists hd tl,
    b = hd ++ Payload e ++ tl /\
    List.length hd = PayloadOffset e /\
    forall d, List.length d = List.length (Payload e) ->
      MarshalSaved {| Crc := Crc e; Payload := d |} = inr (hd ++ d ++ tl).
Proof.
  unfold MarshalSaved, PayloadOffset.
  destruct (in_range32 (Crc e)) eqn:R; [|discriminate].
  intros H. apply guard_size_inv in H. destruct H as [-> Hlen].
  destruct e as [c p]. cbn [Crc Payload] in *. rewrite R.
  unfold saved_fields in *. cbn [Crc Payload] in *.
  set (pre := if c =? 0 then [] else [VarintF 1 c]) in *.
  destruct p as [|x p].
  - exists (encode_fields (pre ++ [])), []. rewrite !app_nil_r. repeat split.
    + simpl. lia.
    + intros d Hd. destruct d; [|discriminate]. rewrite !app_nil_r.
      unfold guard_size. rewrite app_nil_r in Hlen.
      apply Z.ltb_lt in Hlen. now rewrite Hlen.
  - set (p' := x :: p) in *.
    exists (encode_fields pre ++ EncodeVarint (2 * 8 + 2)
            ++ EncodeVarint (Z.of_nat (List.length p'))), [].
    assert (E : forall d, List.length d = List.length p' ->
              encode_fields (pre ++ [BytesF 2 d]) =
              (encode_fields pre ++ EncodeVarint (2 * 8 + 2)
                ++ EncodeVarint (Z.of_nat (List.length p'))) ++ d ++ []).
    { intros d Hd. unfold encode_fields. rewrite flat_map_app. simpl.
      rewrite Hd, !app_nil_r, <- !app_assoc. reflexivity. }
    repeat split.
    + now apply E.
    + rewrite (E p' eq_refl), !length_app. simpl. lia.
    + intros d Hd. destruct d as [|y d]; [discriminate|].
      rewrite (E (y :: d) Hd). unfold guard_size.
      rewrite (E p' eq_refl) in Hlen.
      rewrite !length_app in *. rewrite Hd.
      apply Z.ltb_lt in Hlen. now rewrite Hlen.
Qed.

Lemma proto3_lawful : Lawful proto3.
Proof.
  constructor.
  - exact wire_snapshot_roundtrip.
  - exact wire_saved_roundtrip.
  - exact wire_snapshot_nonempty.
  - exact wire_payload_verbatim.
Qed.

End WireFacts.

(* ================================================================= *)
(** ** Facts about package [snap] *)

Module SnapFacts.
Import os snappb snap View.

Section WithEnv.
Context {codec : Codec} {io : Faults}.

Lemma readSnap_frame (p : path) (w : World) :
  exists r w', readSnap p w = Done r w' /\ files w' = files w.
Proof.
  unfold readSnap, ReadFile. go.
  destruct (read_fault p); [eauto|].
  destruct (lookup p (files w)) as [b|]; [|eauto].
  destruct (List.length b =? 0)%nat; [eauto|].
  destruct (UnmarshalSaved b) as [e|e]; [eauto|].
  destruct ((List.length (Payload e) =? 0)%nat || (Crc e =? 0)); [eauto|].
  destruct (negb _); [eauto|].
  destruct (UnmarshalSnapshot _); eauto.
Qed.

Lemma readSnap_result (p : path) (w : World) :
  exists w', readSnap p w = Done (read_result w p) w' /\ files w' = files w.
Proof.
  unfold read_result. destruct (readSnap_frame p w) as (r & w' & E & F).
  rewrite E. simpl. eauto.
Qed.

Lemma read_result_ext (p : path) (w1 w2 : World) :
  lookup p (files w1) = lookup p (files w2) -> read_result w1 p = read_result w2 p.
Proof.
  intros E. unfold read_result, readSnap, ReadFile. go. rewrite E.
  destruct (read_fault p); [reflexivity|].
  destruct (lookup p (files w2)) as [b|]; [|reflexivity].
  destruct (List.length b =? 0)%nat; [reflexivity|].
  destruct (UnmarshalSaved b) as [e|e]; [reflexivity|].
  destruct ((List.length (Payload e) =? 0)%nat || (Crc e =? 0)); [reflexivity|].
  destruct (negb _); [reflexivity|].
  destruct (UnmarshalSnapshot _); reflexivity.
Qed.

Lemma read_result_missing (p : path) (w : World) :
  lookup p (files w) = None -> exists e, read_result w p = Err e.
Proof.
  intros E. unfold read_result, readSnap, ReadFile. go. rewrite E.
  destruct (read_fault p); simpl; eauto.
Qed.

(** [loadSnap] on a candidate that reads well: nothing happens. *)
Lemma loadSnap_ok (d name : string) (w : World) (x : Snapshot) :
  read_result w (d, name) = Ok x ->
  exists w', loadSnap d name w = Done (Ok x) w' /\ files w' = files w.
Proof.
  intros R. unfold loadSnap. go.
  destruct (readSnap_result (d, name) w) as (w' & E & F).
  rewrite E, R. eauto.
Qed.

(** [loadSnap] on a candidate that does not: the error is returned and the
    rename is attempted. *)
Lemma loadSnap_err (d name : string) (w : World) (e : error) :
  read_result w (d, name) = Err e ->
  exists w', loadSnap d name w = Done (Err e) w' /\
             files w' = quarantined d name (files w).
Proof.
  intros R. unfold loadSnap. go.
  destruct (readSnap_result (d, name) w) as (w' & E & F).
  rewrite E, R. unfold Rename, quarantined. simpl. rewrite F.
  destruct (rename_fault (d, name)); [eauto|].
  destruct (lookup (d, name) (files w)); [|eauto].
  assert (N : path_eqb (d, name) (d, brokenName name) = false).
  { apply FsFacts.path_eqb_neq. intros [=H]. symmetry in H.
    now apply StringFacts.broken_neq in H. }
  rewrite N. eauto.
Qed.

Lemma quarantined_other (d name : string) (fs : list (path * bytes)) (q : path) :
  q <> (d, name) -> q <> (d, brokenName name) ->
  lookup q (quarantined d name fs) = lookup q fs.
Proof.
  intros N1 N2. unfold quarantined.
  destruct (rename_fault (d, name)); auto.
  destruct (lookup (d, name) fs); auto.
  rewrite FsFacts.lookup_cons_other, !FsFacts.lookup_delete_other; auto.
Qed.

Lemma quarantined_self (d name : string) (fs : list (path * bytes)) :
  lookup (d, name) (quarantined d name fs) = None \/
  quarantined d name fs = fs.
Proof.
  unfold quarantined.
  destruct (rename_fault (d, name)); auto.
  destruct (lookup (d, name) fs) eqn:E; auto. left.
  assert (N : (d, name) <> (d, brokenName name)).
  { intros [=H]. symmetry in H. now apply StringFacts.broken_neq in H. }
  rewrite FsFacts.lookup_cons_other, FsFacts.lookup_delete_other by auto.
  apply FsFacts.lookup_delete_same.
Qed.

End WithEnv.
End SnapFacts.

Module LoopFacts.
Import os snappb snap View SnapFacts.

Section WithEnv.
Context {codec : Codec} {io : Faults}.

Lemma agrees_refl (d : string) (w : World) : agrees d w w.
Proof. intros n _. split; eauto. Qed.

Lemma agrees_valid (d : string) (w cur : World) (n : string) (x : Snapshot) :
  agrees d w cur -> candidate_name n = true ->
  read_result w (d, n) = Ok x -> read_result cur (d, n) = Ok x.
Proof.
  intros A Sn R. rewrite <- R. apply read_result_ext.
  exact (proj1 (A n Sn) x R).
Qed.

Lemma agrees_same_files (d : string) (w cur cur' : World) :
  files cur' = files cur -> agrees d w cur -> agrees d w cur'.
Proof.
  intros F A n S. destruct (A n S) as [A1 A2]. split.
  - intros x R. rewrite F. eauto.
  - intros e R. destruct (A2 e R) as [e' R'].
    exists e'. rewrite <- R'. apply read_result_ext. now rewrite F.
Qed.

Lemma agrees_quarantine (d : string) (w cur cur' : World) (n : string) (e : error) :
  agrees d w cur -> candidate_name n = true ->
  read_result cur (d, n) = Err e ->
  files cur' = quarantined d n (files cur) ->
  agrees d w cur'.
Proof.
  intros A S R F m Sm. destruct (A m Sm) as [A1 A2].
  destruct (String.eqb_spec m n) as [->|N].
  - assert (Hbad : forall x, read_result w (d, n) <> Ok x).
    { intros x Rx. rewrite (agrees_valid _ _ _ _ _ A S Rx) in R. discriminate. }
    split; [intros x Rx; now elim (Hbad x)|].
    intros e0 _.
    destruct (quarantined_self d n (files cur)) as [Q|Q].
    + apply read_result_missing. now rewrite F.
    + exists e. rewrite <- R. apply read_result_ext. now rewrite F, Q.
  - assert (Q : lookup (d, m) (files cur') = lookup (d, m) (files cur)).
    { rewrite F. apply quarantined_other; intros [=H]; auto.
      unfold candidate_name, is_snap in Sm. rewrite H in Sm.
      unfold brokenName in Sm. rewrite StringFacts.broken_not_snap in Sm.
      discriminate. }
    split.
    + intros x Rx. rewrite Q. eauto.
    + intros e0 R0. destruct (A2 e0 R0) as [e' R'].
      exists e'. rewrite <- R'. now apply read_result_ext.
Qed.

(** The scan never disturbs a candidate that was valid, whatever the
    predicate answers and even when it panics. *)
Lemma loop_agrees (s : Snapshotter) (matchFn : Snapshot -> Go bool) (w : World) :
  observer matchFn ->
  forall names cur,
    Forall (fun n => candidate_name n = true) names ->
    agrees (dir s) w cur ->
    agrees (dir s) w (world_of (loadMatched_loop s matchFn names cur)).
Proof.
  intros Hobs. induction names as [|n names IH]; intros cur Hs A; [exact A|].
  inversion Hs as [|? ? Sn Hs']; subst.
  cbn [loadMatched_loop]. unfold bind.
  destruct (read_result cur (dir s, n)) as [x|e] eqn:R.
  - destruct (loadSnap_ok _ _ _ _ R) as (w' & E & F). rewrite E.
    pose proof (Hobs x w') as O.
    destruct (matchFn x w') as [b w''|v w'']; simpl in O; subst w''.
    + destruct b; simpl.
      * eapply agrees_same_files; eauto.
      * apply IH; auto. eapply agrees_same_files; eauto.
    + simpl. eapply agrees_same_files; eauto.
  - destruct (loadSnap_err _ _ _ _ R) as (w' & E & F). rewrite E.
    apply IH; auto. eapply agrees_quarantine; eauto.
Qed.

(** The result of the scan, for a predicate that is a total boolean
    function on the snapshots it is shown. *)
Lemma loop_scan (s : Snapshotter) (matchFn : Snapshot -> Go bool)
  (p : Snapshot -> bool) (w : World) :
  forall names cur,
    Forall (fun n => candidate_name n = true) names ->
    (forall n x, In n names -> read_result w (dir s, n) = Ok x ->
                 forall w', matchFn x w' = Done (p x) w') ->
    agrees (dir s) w cur ->
    exists cur', loadMatched_loop s matchFn names cur
                 = Done (scan w (dir s) p names) cur'.
Proof.
  induction names as [|n names IH]; intros cur Hs Hm A.
  - simpl. unfold ret. eauto.
  - inversion Hs as [|? ? Sn Hs']; subst.
    cbn [loadMatched_loop]. unfold bind, scan. cbn [find]. unfold accepts at 1.
    destruct (read_result w (dir s, n)) as [x|e] eqn:Rw.
    + pose proof (agrees_valid _ _ _ _ _ A Sn Rw) as R.
      destruct (loadSnap_ok _ _ _ _ R) as (w' & E & F). rewrite E.
      rewrite (Hm n x (or_introl eq_refl) Rw).
      destruct (p x) eqn:P.
      * rewrite Rw. unfold ret. eauto.
      * apply IH; auto.
        -- intros; eapply Hm; eauto. now right.
        -- eapply agrees_same_files; eauto.
    + destruct (proj2 (A n Sn) e Rw) as [e' R].
      destruct (loadSnap_err _ _ _ _ R) as (w' & E & F). rewrite E.
      apply IH; auto.
      * intros; eapply Hm; eauto. now right.
      * eapply agrees_quarantine; eauto.
Qed.

(** The footprint of the scan: only candidates and their quarantine names. *)
Lemma loop_footprint (s : Snapshotter) (matchFn : Snapshot -> Go bool) :
  observer matchFn ->
  forall names cur q,
    (forall n, In n names -> q <> (dir s, n) /\ q <> (dir s, brokenName n)) ->
    lookup q (files (world_of (loadMatched_loop s matchFn names cur)))
    = lookup q (files cur).
Proof.
  intros Hobs. induction names as [|n names IH]; intros cur q Hq; [reflexivity|].
  cbn [loadMatched_loop]. unfold bind.
  assert (Hq' : forall m, In m names ->
                  q <> (dir s, m) /\ q <> (dir s, brokenName m))
    by (intros; apply Hq; now right).
  destruct (read_result cur (dir s, n)) as [x|e] eqn:R.
  - destruct (loadSnap_ok _ _ _ _ R) as (w' & E & F). rewrite E.
    pose proof (Hobs x w') as O.
    destruct (matchFn x w') as [b w''|v w'']; simpl in O; subst w''.
    + destruct b; simpl; [now rewrite F|]. rewrite IH by auto. now rewrite F.
    + simpl. now rewrite F.
  - destruct (loadSnap_err _ _ _ _ R) as (w' & E & F). rewrite E.
    rewrite IH by auto. rewrite F.
    destruct (Hq n (or_introl eq_refl)). now apply quarantined_other.
Qed.

End WithEnv.
End LoopFacts.

Module ListingFacts.
Import os snappb snap View SnapFacts LoopFacts.

Section WithEnv.
Context {codec : Codec} {io : Faults}.

Lemma swept_refl sel d filenames fs : swept sel d filenames fs fs.
Proof. intros q. now left. Qed.

Lemma swept_step sel d f rest fs fs1 fs' :
  (fs1 = fs \/ (sel f = true /\ fs1 = delete (d, f) fs)) ->
  swept sel d rest fs1 fs' -> swept sel d (f :: rest) fs fs'.
Proof.
  intros H1 H2 q. destruct (H2 q) as [E|[E (n & Hin & Ho & ->)]].
  - destruct H1 as [->|[Ho ->]]; [now left|].
    destruct (path_eqb q (d, f)) eqn:P.
    + apply FsFacts.path_eqb_eq in P. subst q. right.
      rewrite E, FsFacts.lookup_delete_same. split; auto.
      exists f. simpl. auto.
    + apply FsFacts.path_eqb_neq in P. left.
      now rewrite E, FsFacts.lookup_delete_other.
  - right. split; auto. exists n. simpl. auto.
Qed.

Lemma errno_exists (op : string) (p : path) (f : Fault) :
  IsNotExist (PathError op p (errno f)) = false.
Proof. destruct f; reflexivity. Qed.

Lemma Remove_cases (p : path) (w : World) :
  remove_fault p = None ->
  exists r w1,
    Remove p w = Done r w1 /\
    (r = None \/ exists e, r = Some e /\ IsNotExist e = true) /\
    (files w1 = files w \/ files w1 = delete p (files w)) /\
    lookup p (files w1) = None.
Proof.
  intros E. unfold Remove. rewrite E.
  destruct (lookup p (files w)) eqn:L.
  - eexists _, _. split; [reflexivity|]. split; [now left|]. split; [now right|].
    apply FsFacts.lookup_delete_same.
  - eexists _, _. split; [reflexivity|]. split; [right; eauto|].
    split; [now left|]. auto.
Qed.

Lemma cleanup_loop_ok (s : Snapshotter) (filenames : list string) :
  removable (dir s) filenames ->
  forall names w,
  exists w',
    cleanupSnapdir_loop s filenames names w
    = Done (names ++ filter (fun n => negb (orphan n)) filenames, None) w' /\
    swept orphan (dir s) filenames (files w) (files w') /\
    (forall n, In n filenames -> orphan n = true -> lookup (dir s, n) (files w') = None).
Proof.
  induction filenames as [|f rest IH]; intros Hr names w.
  - simpl. unfold ret. rewrite app_nil_r. eexists. split; [reflexivity|].
    split; [apply swept_refl | intros n []].
  - assert (Hr' : removable (dir s) rest) by (intros n Hn; apply Hr; now right).
    cbn [cleanupSnapdir_loop filter]. fold (orphan f).
    destruct (orphan f) eqn:Of; cbn [negb].
    + unfold bind, logf.
      match goal with
      | |- context [Remove (dir s, f) ?w0] =>
          destruct (Remove_cases (dir s, f) w0 (Hr f (or_introl eq_refl) Of))
            as (r & w1 & St & Hres & Hf & Hgone)
      end.
      cbn [files] in Hf.
      destruct (IH Hr' names w1) as (w' & E & Sw & Gone).
      exists w'.
      assert (Sw' : swept orphan (dir s) (f :: rest) (files w) (files w')).
      { eapply swept_step; [|exact Sw]. destruct Hf as [->| ->]; auto. }
      assert (Gone' : forall n, In n (f :: rest) -> orphan n = true ->
                 lookup (dir s, n) (files w') = None).
      { intros n [<-|Hn] Ho; [|now apply Gone].
        destruct (Sw (dir s, f)) as [Q|[Q _]]; [|exact Q].
        now rewrite Q. }
      rewrite St. destruct Hres as [->|[e [-> Hn]]]; [|rewrite Hn; cbn [negb]];
        rewrite E; auto.
    + destruct (IH Hr' (names ++ [f]) w) as (w' & E & Sw & Gone).
      exists w'. rewrite E, <- app_assoc. split; [reflexivity|]. split.
      * eapply swept_step; [|exact Sw]. now left.
      * intros n [<-|Hn] Ho; [congruence | now apply Gone].
Qed.

Lemma cleanup_loop_fail (s : Snapshotter) (filenames : list string) :
  (exists n, In n filenames /\ orphan n = true /\ remove_fault (dir s, n) <> None) ->
  forall names w,
  exists w' names' n e,
    cleanupSnapdir_loop s filenames names w
    = Done (names', Some (RemoveOrphanError n (PathError "remove" (dir s, n) (errno e)))) w' /\
    In n filenames /\ orphan n = true /\ remove_fault (dir s, n) = Some e.
Proof.
  induction filenames as [|f rest IH]; intros (n & Hin & Ho & Hf) names w;
    [destruct Hin|].
  cbn [cleanupSnapdir_loop]. fold (orphan f).
  assert (Next : f <> n -> exists k, In k rest /\ orphan k = true /\
                                   remove_fault (dir s, k) <> None).
  { intros N. exists n. destruct Hin as [->|Hin]; [congruence|]. auto. }
  destruct (orphan f) eqn:Of.
  - unfold bind, logf, Remove. cbn [files log].
    destruct (remove_fault (dir s, f)) as [e0|] eqn:Ef.
    + rewrite errno_exists. cbn [negb]. unfold ret.
      eexists _, _, f, e0. split; [reflexivity|]. simpl. auto.
    + assert (N : f <> n) by (intros ->; congruence).
      destruct (lookup (dir s, f) (files w)); cbn [IsNotExist negb];
      match goal with
      | |- context [cleanupSnapdir_loop s rest names ?w0] =>
          destruct (IH (Next N) names w0) as (w' & nm & n' & e' & E & H1 & H2 & H3)
      end;
      exists w', nm, n', e'; rewrite E; simpl; auto.
  - assert (N : f <> n) by (intros ->; congruence).
    destruct (IH (Next N) (names ++ [f]) w) as (w' & nm & n' & e' & E & H1 & H2 & H3).
    exists w', nm, n', e'. rewrite E. simpl. auto.
Qed.

Lemma checkSuffix_loop_spec (filenames : list string) :
  forall snaps w,
  exists w', checkSuffix_loop filenames snaps w
             = Done (snaps ++ filter is_snap filenames) w' /\
             files w' = files w.
Proof.
  induction filenames as [|f rest IH]; intros snaps w.
  - simpl. unfold ret. rewrite app_nil_r. eauto.
  - cbn [checkSuffix_loop filter]. fold (is_snap f). destruct (is_snap f).
    + destruct (IH (snaps ++ [f]) w) as (w' & E & F).
      exists w'. rewrite E, <- app_assoc. auto.
    + unfold bind.
      destruct (negb (validFiles_has f)); unfold logf, ret;
      match goal with
      | |- context [checkSuffix_loop rest snaps ?w0] =>
          destruct (IH snaps w0) as (w' & E & F)
      end; exists w'; rewrite E; auto.
Qed.

Lemma candidates_names (d : string) (w : World) :
  Forall (fun n => candidate_name n = true) (candidates d w).
Proof.
  apply Forall_forall. intros n Hn.
  unfold candidates, unsorted in Hn.
  apply (proj1 (OrderFacts.SortReverseStrings_In _ _)) in Hn.
  apply filter_In in Hn. destruct Hn as [Hn S].
  apply filter_In in Hn. destruct Hn as [_ O].
  unfold candidate_name. now rewrite S, O.
Qed.

Lemma snapnames_ok (s : Snapshotter) (w : World) :
  open_fault (dir s) = None -> readdir_fault (dir s) = None ->
  removable (dir s) (listing (dir s) w) ->
  exists w',
    snapnames s w
    = Done (match unsorted (dir s) w with
            | [] => Err ErrNoSnapshot
            | _ :: _ => Ok (candidates (dir s) w)
            end) w' /\
    swept orphan (dir s) (listing (dir s) w) (files w) (files w') /\
    (forall n, In n (listing (dir s) w) -> orphan n = true ->
               lookup (dir s, n) (files w') = None).
Proof.
  intros Ho Hr Hrm. unfold snapnames, bind, Open, Readdirnames. rewrite Ho, Hr.
  fold (listing (dir s) w). unfold cleanupSnapdir.
  destruct (cleanup_loop_ok s _ Hrm [] w) as (w1 & E & Sw & Gone).
  rewrite E. cbn [snd fst app]. unfold checkSuffix.
  destruct (checkSuffix_loop_spec (filter (fun n => negb (orphan n)) (listing (dir s) w)) [] w1)
    as (w2 & E2 & F2).
  rewrite E2. cbn [app]. fold (unsorted (dir s) w).
  exists w2. rewrite F2. split; [|auto].
  unfold candidates.
  destruct (unsorted (dir s) w); reflexivity.
Qed.

Lemma snapnames_fail (s : Snapshotter) (w : World) :
  open_fault (dir s) = None -> readdir_fault (dir s) = None ->
  (exists n, In n (listing (dir s) w) /\ orphan n = true /\
             remove_fault (dir s, n) <> None) ->
  exists w' n e,
    snapnames s w
    = Done (Err (RemoveOrphanError n (PathError "remove" (dir s, n) (errno e)))) w' /\
    In n (listing (dir s) w) /\ orphan n = true /\ remove_fault (dir s, n) = Some e.
Proof.
  intros Ho Hr Hbad. unfold snapnames, bind, Open, Readdirnames. rewrite Ho, Hr.
  fold (listing (dir s) w). unfold cleanupSnapdir.
  destruct (cleanup_loop_fail s _ Hbad [] w) as (w' & nm & n & e & E & H).
  rewrite E. cbn [snd]. unfold ret. eauto 6.
Qed.

End WithEnv.
End ListingFacts.

Module LoadFacts.
Import os snappb snap View SnapFacts LoopFacts ListingFacts.

Section WithEnv.
Context {codec : Codec} {io : Faults}.

Lemma Remove_swept (p : path) (w : World) :
  exists r w1, Remove p w = Done r w1 /\
               (files w1 = files w \/ files w1 = delete p (files w)).
Proof.
  unfold Remove. destruct (remove_fault p); [eauto|].
  destruct (lookup p (files w)); eauto.
Qed.

Lemma cleanup_loop_any (s : Snapshotter) (filenames : list string) :
  forall names w,
  exists r w',
    cleanupSnapdir_loop s filenames names w = Done r w' /\
    swept orphan (dir s) filenames (files w) (files w') /\
    (snd r = None -> fst r = names ++ filter (fun n => negb (orphan n)) filenames).
Proof.
  induction filenames as [|f rest IH]; intros names w.
  - simpl. unfold ret. eexists _, _. split; [reflexivity|].
    split; [apply swept_refl|]. intros _. simpl. now rewrite app_nil_r.
  - cbn [cleanupSnapdir_loop filter]. fold (orphan f).
    destruct (orphan f) eqn:Of; cbn [negb].
    + unfold bind, logf.
      match goal with
      | |- context [Remove (dir s, f) ?w0] =>
          destruct (Remove_swept (dir s, f) w0) as (r & w1 & St & Hf)
      end.
      cbn [files] in Hf. rewrite St.
      assert (Sw1 : forall w', swept orphan (dir s) rest (files w1) (files w') ->
                               swept orphan (dir s) (f :: rest) (files w) (files w')).
      { intros w' Sw. eapply swept_step; [|exact Sw]. destruct Hf as [->| ->]; auto. }
      destruct (IH names w1) as (r' & w' & E & Sw & Hn).
      destruct r as [e|].
      * destruct (negb (IsNotExist e)).
        -- unfold ret. eexists _, _. split; [reflexivity|]. split.
           ++ apply Sw1, swept_refl.
           ++ simpl. discriminate.
        -- rewrite E. eexists _, _. split; [reflexivity|].
           split; [apply Sw1; exact Sw | exact Hn].
      * rewrite E. eexists _, _. split; [reflexivity|].
        split; [apply Sw1; exact Sw | exact Hn].
    + destruct (IH (names ++ [f]) w) as (r' & w' & E & Sw & Hn).
      rewrite E. eexists _, _. split; [reflexivity|]. split.
      * eapply swept_step; [|exact Sw]. now left.
      * intros H. rewrite (Hn H), <- app_assoc. reflexivity.
Qed.

(** Whatever happens while listing, only orphans disappear, and a list of
    names, when one is returned, is the sorted list of candidates. *)
Lemma snapnames_any (s : Snapshotter) (w : World) :
  exists r w',
    snapnames s w = Done r w' /\
    swept orphan (dir s) (listing (dir s) w) (files w) (files w') /\
    (forall names, r = Ok names -> names = candidates (dir s) w).
Proof.
  unfold snapnames, bind, Open, Readdirnames.
  destruct (open_fault (dir s)).
  { unfold ret. eexists _, _. split; [reflexivity|]. split; [apply swept_refl|discriminate]. }
  destruct (readdir_fault (dir s)).
  { unfold ret. eexists _, _. split; [reflexivity|]. split; [apply swept_refl|discriminate]. }
  fold (listing (dir s) w). unfold cleanupSnapdir.
  destruct (cleanup_loop_any s (listing (dir s) w) [] w) as ([nm err] & w1 & E & Sw & Hn).
  rewrite E. cbn [snd fst] in *. destruct err as [e|].
  { unfold ret. eexists _, _. split; [reflexivity|]. split; [exact Sw|discriminate]. }
  rewrite (Hn eq_refl). cbn [app]. unfold checkSuffix.
  destruct (checkSuffix_loop_spec (filter (fun n => negb (orphan n)) (listing (dir s) w)) [] w1)
    as (w2 & E2 & F2).
  rewrite E2. cbn [app]. unfold ret.
  destruct (List.length _ =? 0)%nat; eexists _, _;
    (split; [reflexivity|]); rewrite F2; (split; [exact Sw|]).
  - discriminate.
  - intros names [=]. subst. reflexivity.
Qed.

Lemma agrees_swept (d : string) (l : list string) (w w1 : World) :
  swept orphan d l (files w) (files w1) -> agrees d w w1.
Proof.
  intros Sw.
  assert (L : forall n, candidate_name n = true ->
                lookup (d, n) (files w1) = lookup (d, n) (files w)).
  { intros n C. destruct (Sw (d, n)) as [E|[_ (m & _ & Om & [=H])]]; auto.
    subst m. unfold candidate_name in C. rewrite Om in C.
    rewrite andb_false_r in C. discriminate. }
  intros n C. split.
  - intros x _. auto.
  - intros e R. exists e. rewrite <- R. apply read_result_ext. auto.
Qed.

(** *** The scan as a whole *)

Lemma loadMatched_scan (s : Snapshotter) (matchFn : Snapshot -> Go bool)
  (p : Snapshot -> bool) (w : World) :
  open_fault (dir s) = None -> readdir_fault (dir s) = None ->
  removable (dir s) (listing (dir s) w) ->
  (forall n x, In n (candidates (dir s) w) -> read_result w (dir s, n) = Ok x ->
               forall w', matchFn x w' = Done (p x) w') ->
  exists w', loadMatched s matchFn w
             = Done (scan w (dir s) p (candidates (dir s) w)) w'.
Proof.
  intros Ho Hr Hrm Hm. unfold loadMatched, bind.
  destruct (snapnames_ok s w Ho Hr Hrm) as (w1 & E & Sw & _). rewrite E.
  destruct (unsorted (dir s) w) eqn:U.
  - unfold candidates. rewrite U. simpl.
    unfold ret. eauto.
  - apply loop_scan; auto.
    + apply candidates_names.
    + eapply agrees_swept; eauto.
Qed.

Lemma loadMatched_agrees (s : Snapshotter) (matchFn : Snapshot -> Go bool) (w : World) :
  observer matchFn ->
  agrees (dir s) w (world_of (loadMatched s matchFn w)).
Proof.
  intros Hobs. unfold loadMatched, bind.
  destruct (snapnames_any s w) as (r & w1 & E & Sw & Hn). rewrite E.
  destruct r as [names|e].
  - rewrite (Hn names eq_refl). apply loop_agrees; auto.
    + apply candidates_names.
    + eapply agrees_swept; eauto.
  - simpl. eapply agrees_swept; eauto.
Qed.

Lemma scan_newest (w : World) (d : string) (p : Snapshot -> bool)
  (names : list string) (n : string) (x : Snapshot) :
  StronglySorted ge_str names ->
  In n names -> read_result w (d, n) = Ok x -> p x = true ->
  (forall m, In m names -> strings.lt n m = true -> accepts w d p m = false) ->
  scan w d p names = Ok x.
Proof.
  intros Hs Hin R P Hnew. unfold scan.
  induction Hs as [|h rest Hs IH Hall]; [destruct Hin|].
  cbn [find]. destruct (String.eqb_spec h n) as [->|N].
  - unfold accepts. rewrite R, P. exact R.
  - destruct Hin as [->|Hin]; [congruence|].
    rewrite Forall_forall in Hall. pose proof (Hall n Hin) as G.
    assert (L : strings.lt n h = true).
    { destruct (strings.lt n h) eqn:L; auto.
      elim N. now apply OrderFacts.lt_total. }
    rewrite (Hnew h (or_introl eq_refl) L).
    apply IH; auto. intros m Hm. apply Hnew. now right.
Qed.

Lemma listing_In (d n : string) (w : World) :
  In n (listing d w) <-> lookup (d, n) (files w) <> None.
Proof.
  unfold listing. rewrite in_map_iff. split.
  - intros ([[d' n'] b] & E & Hin). simpl in E. subst n'.
    apply filter_In in Hin. destruct Hin as [Hin Hd]. simpl in Hd.
    apply String.eqb_eq in Hd. subst d'. eapply FsFacts.In_lookup; eauto.
  - intros H. destruct (lookup (d, n) (files w)) as [b|] eqn:L; [|congruence].
    apply FsFacts.lookup_In in L. exists (d, n, b). split; auto.
    apply filter_In. split; auto. simpl. apply String.eqb_refl.
Qed.

Lemma candidates_In (d n : string) (w : World) :
  In n (candidates d w) <->
  lookup (d, n) (files w) <> None /\ candidate_name n = true.
Proof.
  unfold candidates, unsorted.
  rewrite OrderFacts.SortReverseStrings_In, !filter_In, listing_In.
  unfold candidate_name. rewrite andb_true_iff. tauto.
Qed.

(** *** Saving *)

Lemma SaveSnap_ok (s : Snapshotter) (snapshot : Snapshot) (m : SnapshotMetadata)
  (b f : bytes) (w : World) :
  Metadata snapshot = Some m -> Index m <> 0 ->
  MarshalSnapshot snapshot = inr b ->
  MarshalSaved {| Crc := crc32.Update 0 crcTable b; Payload := b |} = inr f ->
  write_fault (dir s, snapName (Term m) (Index m)) = None ->
  SaveSnap s snapshot w
  = Done None (written (dir s, snapName (Term m) (Index m)) f w).
Proof.
  intros Hm Hi Hb Hf Hw. unfold SaveSnap, save. rewrite Hm.
  apply Z.eqb_neq in Hi. rewrite Hi, Hb, Hf.
  unfold bind, pioutil.WriteAndSyncFile. rewrite Hw. reflexivity.
Qed.

Lemma lookup_written_same (p : path) (f : bytes) (w : World) :
  lookup p (files (written p f w)) = Some f.
Proof. apply FsFacts.lookup_cons_same. Qed.

Lemma lookup_written_other (p q : path) (f : bytes) (w : World) :
  q <> p -> lookup q (files (written p f w)) = lookup q (files w).
Proof.
  intros N. unfold written. cbn [files].
  rewrite FsFacts.lookup_cons_other, FsFacts.lookup_delete_other; auto.
Qed.

(** What [readSnap] makes of a file written by [save]. *)
Lemma read_result_saved (snapshot : Snapshot) (b f : bytes) (p : path) (w : World) :
  Lawful codec ->
  Metadata snapshot <> None ->
  MarshalSnapshot snapshot = inr b ->
  MarshalSaved {| Crc := crc32.Update 0 crcTable b; Payload := b |} = inr f ->
  read_fault p = None ->
  lookup p (files w) = Some f ->
  read_result w p = if crc32.Update 0 crcTable b =? 0 then Err ErrEmptySnapshot
                    else Ok snapshot.
Proof.
  intros L Hm Hb Hf Hr Hl.
  pose proof (snapshot_nonempty _ L _ _ Hb Hm) as Nb.
  destruct (payload_verbatim _ L _ _ Hf) as (hd & tl & Ef & _ & _).
  cbn [Payload] in Ef.
  assert (Nf : (List.length f =? 0)%nat = false).
  { apply Nat.eqb_neq. rewrite Ef, !length_app. destruct b; [congruence|]. simpl. lia. }
  assert (Nb' : (List.length b =? 0)%nat = false).
  { apply Nat.eqb_neq. destruct b; [congruence|]. simpl. lia. }
  unfold read_result, readSnap, bind, ReadFile. rewrite Hr, Hl, Nf.
  rewrite (saved_roundtrip _ L _ _ Hf). cbn [Payload Crc]. rewrite Nb'. cbn [orb].
  destruct (crc32.Update 0 crcTable b =? 0); [reflexivity|].
  rewrite Z.eqb_refl. cbn [negb].
  rewrite (snapshot_roundtrip _ L _ _ Hb). reflexivity.
Qed.

(** The scan passes over a prefix of candidates none of which is accepted. *)
Lemma loop_prefix (s : Snapshotter) (p : Snapshot -> bool) (w : World) :
  forall pre rest cur,
    Forall (fun n => candidate_name n = true) pre ->
    agrees (dir s) w cur ->
    (forall m, In m pre -> accepts w (dir s) p m = false) ->
    exists cur1,
      loadMatched_loop s (fun x => ret (p x)) (pre ++ rest) cur
      = loadMatched_loop s (fun x => ret (p x)) rest cur1 /\
      agrees (dir s) w cur1 /\
      (forall q, (forall m, In m pre -> q <> (dir s, m) /\ q <> (dir s, brokenName m)) ->
                 lookup q (files cur1) = lookup q (files cur)).
Proof.
  induction pre as [|h pre IH]; intros rest cur Hc A Hrej.
  - exists cur. auto.
  - inversion Hc as [|? ? Ch Hc']; subst.
    assert (Hrej' : forall m, In m pre -> accepts w (dir s) p m = false)
      by (intros; apply Hrej; now right).
    pose proof (Hrej h (or_introl eq_refl)) as Rh. unfold accepts in Rh.
    cbn [app loadMatched_loop]. unfold bind at 1.
    destruct (read_result w (dir s, h)) as [x|e] eqn:Rw.
    + pose proof (agrees_valid _ _ _ _ _ A Ch Rw) as R.
      destruct (loadSnap_ok _ _ _ _ R) as (w' & E & F). rewrite E.
      unfold bind, ret at 1. rewrite Rh.
      destruct (IH rest w' Hc' (agrees_same_files _ _ _ _ F A) Hrej')
        as (cur1 & E1 & A1 & Fp).
      exists cur1. split; [exact E1|]. split; [exact A1|].
      intros q Hq. rewrite Fp, F; auto. intros m Hm. apply Hq. now right.
    + destruct (proj2 (A h Ch) e Rw) as [e' R].
      destruct (loadSnap_err _ _ _ _ R) as (w' & E & F). rewrite E.
      destruct (IH rest w' Hc' (agrees_quarantine _ _ _ _ _ _ A Ch R F) Hrej')
        as (cur1 & E1 & A1 & Fp).
      exists cur1. split; [exact E1|]. split; [exact A1|].
      intros q Hq. rewrite Fp by (intros m Hm; apply Hq; now right).
      rewrite F. destruct (Hq h (or_introl eq_refl)). now apply quarantined_other.
Qed.

(** A failing candidate the scan reaches ends up under its quarantine name. *)
Lemma loadMatched_quarantines (s : Snapshotter) (p : Snapshot -> bool) (w : World)
  (pre post : list string) (n : string) (e : error) (b : bytes) :
  open_fault (dir s) = None -> readdir_fault (dir s) = None ->
  removable (dir s) (listing (dir s) w) ->
  candidates (dir s) w = pre ++ n :: post -> NoDup (candidates (dir s) w) ->
  (forall m, In m pre -> accepts w (dir s) p m = false) ->
  read_result w (dir s, n) = Err e ->
  lookup (dir s, n) (files w) = Some b ->
  rename_fault (dir s, n) = None ->
  let w' := world_of (loadMatched s (fun x => ret (p x)) w) in
  lookup (dir s, n) (files w') = None /\
  lookup (dir s, brokenName n) (files w') = Some b.
Proof.
  intros Ho Hr Hrm Hc Hnd Hrej R L Hrn w'. subst w'.
  unfold loadMatched, bind.
  destruct (snapnames_ok s w Ho Hr Hrm) as (w1 & E & Sw & _). rewrite E.
  pose proof (candidates_names (dir s) w) as Hall. rewrite Hc in Hall, Hnd.
  apply Forall_app in Hall. destruct Hall as [Hpre Hn].
  inversion Hn as [|? ? Cn Hpost]; subst.
  apply NoDup_remove_2 in Hnd.
  assert (Npre : ~ In n pre) by (intros H; apply Hnd, in_or_app; now left).
  assert (Npost : ~ In n post) by (intros H; apply Hnd, in_or_app; now right).
  assert (Snap : forall a c, candidate_name a = true -> a <> brokenName c).
  { intros a c Ca ->. unfold candidate_name, is_snap, brokenName in Ca.
    rewrite StringFacts.broken_not_snap in Ca. discriminate. }
  assert (Binj : forall m, brokenName n = brokenName m -> n = m).
  { intros m H. unfold brokenName in H. now apply StringFacts.append_inj_r in H. }
  assert (Far : forall l, Forall (fun m => candidate_name m = true) l -> ~ In n l ->
                forall m, In m l ->
                  ((dir s, n) <> (dir s, m) /\ (dir s, n) <> (dir s, brokenName m)) /\
                  ((dir s, brokenName n) <> (dir s, m) /\
                   (dir s, brokenName n) <> (dir s, brokenName m))).
  { intros l Hl Nl m Hm. rewrite Forall_forall in Hl. pose proof (Hl m Hm) as Cm.
    repeat split; intros [=H].
    - subst m. contradiction.
    - now apply (Snap n m Cn).
    - symmetry in H. now apply (Snap m n Cm).
    - apply Binj in H. subst m. contradiction. }
  destruct (unsorted (dir s) w) eqn:U.
  { exfalso. unfold candidates in Hc. rewrite U in Hc. simpl in Hc.
    destruct pre; discriminate. }
  rewrite Hc.
  destruct (loop_prefix s p w pre (n :: post) w1 Hpre (agrees_swept _ _ _ _ Sw) Hrej)
    as (cur1 & E1 & A1 & Fp).
  rewrite E1.
  destruct (proj2 (A1 n Cn) e R) as [e' R1].
  destruct (loadSnap_err _ _ _ _ R1) as (w2 & E2 & F2).
  assert (Estep : loadMatched_loop s (fun x => ret (p x)) (n :: post) cur1
                  = loadMatched_loop s (fun x => ret (p x)) post w2).
  { cbn [loadMatched_loop]. unfold bind. now rewrite E2. }
  rewrite Estep.
  assert (L1 : lookup (dir s, n) (files cur1) = Some b).
  { rewrite Fp by (intros m Hm; apply (Far pre Hpre Npre m Hm)).
    destruct (Sw (dir s, n)) as [Q|[_ (k & _ & Ok & [= ->])]]; [congruence|].
    unfold candidate_name in Cn. rewrite Ok, andb_false_r in Cn. discriminate. }
  assert (Nbr : (dir s, n) <> (dir s, brokenName n)).
  { intros [=H]. symmetry in H. now apply StringFacts.broken_neq in H. }
  assert (Q2 : lookup (dir s, n) (files w2) = None /\
               lookup (dir s, brokenName n) (files w2) = Some b).
  { rewrite F2. unfold quarantined. rewrite Hrn, L1. split.
    - rewrite FsFacts.lookup_cons_other, FsFacts.lookup_delete_other by auto.
      apply FsFacts.lookup_delete_same.
    - apply FsFacts.lookup_cons_same. }
  assert (Hobs : observer (fun x => ret (p x))) by (intros x w0; reflexivity).
  split.
  - rewrite (loop_footprint s _ Hobs post w2 (dir s, n)); [apply Q2|].
    intros m Hm. apply (Far post Hpost Npost m Hm).
  - rewrite (loop_footprint s _ Hobs post w2 (dir s, brokenName n)); [apply Q2|].
    intros m Hm. apply (Far post Hpost Npost m Hm).
Qed.

End WithEnv.
End LoadFacts.

Module ReleaseFacts.
Import os snappb snap View SnapFacts LoopFacts ListingFacts LoadFacts.

Section WithEnv.
Context {io : Faults}.

Lemma Release_step (s : Snapshotter) (snap : Snapshot) (m : SnapshotMetadata)
  (f : string) (rest : list string) (w : World) :
  Metadata snap = Some m ->
  exists w1,
    ReleaseSnapDBs_loop s snap (f :: rest) w = ReleaseSnapDBs_loop s snap rest w1 /\
    (files w1 = files w \/
     (released (dir s) (Index m) f = true /\ files w1 = delete (dir s, f) (files w))) /\
    (released (dir s) (Index m) f = true -> lookup (dir s, f) (files w1) = None) /\
    (exists l, log w1 = l ++ log w) /\
    (unparseable f = true -> In (parse_failure f) (log w1)) /\
    (forall e, stale (Index m) f = true -> remove_fault (dir s, f) = Some e ->
               In (remove_failure f) (log w1)).
Proof.
  intros Hm. cbn [ReleaseSnapDBs_loop]. unfold released, stale, unparseable.
  fold (dbIndex f).
  destruct (strings.HasSuffix f ".snap.db"); cbn [andb].
  2:{ exists w. split; [reflexivity|]. split; [now left|].
      split; [discriminate|]. split; [now exists []|].
      split; [discriminate|]. discriminate. }
  destruct (dbIndex f) as [err|index].
  { unfold bind, logf. eexists. split; [reflexivity|]. cbn [files log].
    split; [now left|]. split; [discriminate|].
    split; [now exists [parse_failure f]|].
    split; [intros _; now left|]. discriminate. }
  rewrite Hm. unfold bind at 1.
  destruct (index <? Index m).
  2:{ unfold ret. exists w. split; [reflexivity|]. split; [now left|].
      split; [discriminate|]. split; [now exists []|].
      split; [discriminate|]. discriminate. }
  unfold bind, logf, Remove. cbn [files log].
  destruct (remove_fault (dir s, f)) as [e|].
  - rewrite errno_exists. cbn [negb]. unfold logf, ret.
    eexists. split; [reflexivity|]. cbn [files log].
    split; [now left|]. split; [discriminate|]. split; [log_ext|].
    split; [discriminate|]. intros e0 _ _. now left.
  - destruct (lookup (dir s, f) (files w)) eqn:L; unfold ret, logf;
      (eexists; split; [reflexivity|]); cbn [files log].
    + split; [right; auto|]. split; [intros _; apply FsFacts.lookup_delete_same|].
      split; [log_ext|]. split; discriminate.
    + split; [now left|]. split; [auto|].
      split; [log_ext|]. split; discriminate.
Qed.

Lemma Release_loop (s : Snapshotter) (snap : Snapshot) (m : SnapshotMetadata) :
  Metadata snap = Some m ->
  forall filenames w,
  exists w',
    ReleaseSnapDBs_loop s snap filenames w = Done None w' /\
    swept (released (dir s) (Index m)) (dir s) filenames (files w) (files w') /\
    (forall n, In n filenames -> released (dir s) (Index m) n = true ->
               lookup (dir s, n) (files w') = None) /\
    (exists l, log w' = l ++ log w) /\
    (forall n, In n filenames -> unparseable n = true ->
               In (parse_failure n) (log w')) /\
    (forall n e, In n filenames -> stale (Index m) n = true ->
                 remove_fault (dir s, n) = Some e ->
                 In (remove_failure n) (log w')).
Proof.
  intros Hm. induction filenames as [|f rest IH]; intros w.
  - exists w. split; [reflexivity|]. split; [apply swept_refl|].
    split; [intros n []|]. split; [now exists []|].
    split; [intros n []|intros n e []].
  - destruct (Release_step s snap m f rest w Hm)
      as (w1 & E & Hf & Hgone & (l1 & Hl1) & Hp & Hr).
    destruct (IH w1) as (w' & E' & Sw & Gone & (l & Hl) & Hp' & Hr').
    exists w'. rewrite E, E'. split; [reflexivity|].
    assert (Later : forall x, In x (log w1) -> In x (log w'))
      by (intros x Hx; rewrite Hl; apply in_or_app; now right).
    split; [|split; [|split; [|split]]].
    + eapply swept_step; [|exact Sw]. destruct Hf as [->|[? ->]]; auto.
    + intros n [<-|Hn] Hrel; [|now apply Gone].
      destruct (Sw (dir s, f)) as [Q|[Q _]]; [|exact Q].
      rewrite Q. now apply Hgone.
    + exists (l ++ l1). now rewrite Hl, Hl1, app_assoc.
    + intros n [<-|Hn] U; [apply Later; auto | now apply Hp'].
    + intros n e [<-|Hn] St Hrem; [apply Later; eauto | eapply Hr'; eauto].
Qed.

End WithEnv.
End ReleaseFacts.

Module FlipFacts.
Import View.

Lemma flip_bit_neq (k : nat) (b : byte) : (k < 8)%nat -> flip_bit k b <> b.
Proof.
  intros Hk E. unfold flip_bit in E.
  destruct (Byte.of_N (N.lxor (Byte.to_N b) (2 ^ N.of_nat k))) as [b'|] eqn:O.
  - subst b'. apply Byte.to_of_N in O.
    assert (T : N.testbit (N.lxor (Byte.to_N b) (2 ^ N.of_nat k)) (N.of_nat k)
                = N.testbit (Byte.to_N b) (N.of_nat k)) by now rewrite <- O.
    rewrite N.lxor_spec, N.pow2_bits_true in T.
    destruct (N.testbit (Byte.to_N b) (N.of_nat k)); simpl in T; discriminate.
  - apply Byte.of_N_None_iff in O.
    pose proof (Byte.to_N_bounded b) as Hb.
    assert (L : (N.lxor (Byte.to_N b) (2 ^ N.of_nat k) < 2 ^ 8)%N).
    { destruct (N.eq_dec (N.lxor (Byte.to_N b) (2 ^ N.of_nat k)) 0) as [->|Nz]; [reflexivity|].
      apply N.log2_lt_pow2; [lia|].
      eapply N.le_lt_trans; [apply N.log2_lxor|].
      apply N.max_lub_lt.
      - destruct (N.eq_dec (Byte.to_N b) 0) as [->|]; [reflexivity|].
        apply N.log2_lt_pow2; [lia|]. change (2 ^ 8)%N with 256%N. lia.
      - rewrite N.log2_pow2 by lia. lia. }
    change (2 ^ 8)%N with 256%N in L. lia.
Qed.

Lemma flip_at_length (f : bytes) : forall pos, List.length (flip_at pos f) = List.length f.
Proof.
  induction f as [|c r IH]; intros pos; simpl; auto.
  destruct (pos <? 8)%nat; simpl; auto.
Qed.

Lemma flip_at_app_r (hd r : bytes) (pos : nat) :
  flip_at (8 * List.length hd + pos) (hd ++ r) = hd ++ flip_at pos r.
Proof.
  induction hd as [|c hd IH]; [reflexivity|].
  cbn [List.length app flip_at].
  replace (8 * S (List.length hd) + pos <? 8)%nat with false
    by (symmetry; apply Nat.ltb_ge; lia).
  replace (8 * S (List.length hd) + pos - 8)%nat with (8 * List.length hd + pos)%nat by lia.
  now rewrite IH.
Qed.

Lemma flip_at_inside (d : bytes) :
  forall pos tl, (pos < 8 * List.length d)%nat ->
  exists a x c k,
    d = a ++ x :: c /\ (k < 8)%nat /\ flip_at pos (d ++ tl) = (a ++ flip_bit k x :: c) ++ tl.
Proof.
  induction d as [|y d IH]; intros pos tl Hp; [simpl in Hp; lia|].
  cbn [app flip_at]. destruct (pos <? 8)%nat eqn:E.
  - apply Nat.ltb_lt in E. exists [], y, d, pos. auto.
  - apply Nat.ltb_ge in E.
    destruct (IH (pos - 8)%nat tl) as (a & x & c & k & Ed & Hk & Ef).
    { simpl in Hp. lia. }
    exists (y :: a), x, c, k. rewrite Ef, Ed. auto.
Qed.

End FlipFacts.


(* ================================================================= *)
(** ** The properties of the snapshot store *)

Import os snappb snap View Examples.
Import SnapFacts LoopFacts ListingFacts LoadFacts ReleaseFacts FlipFacts.


Section WithEnv.
Context {codec : Codec} {io : Faults}.

(** C7.  For every snapshot whose metadata is absent or whose index is 0,
    [SaveSnap] returns [nil] and leaves the world (every file and the log)
    exactly as it was. *)
Theorem SaveSnap_without_index_is_noop (s : Snapshotter) (snapshot : Snapshot) (w : World) :
  Metadata snapshot = None \/
  (exists m, Metadata snapshot = Some m /\ Index m = 0) ->
  SaveSnap s snapshot w = Done None w.
Proof.
  unfold SaveSnap. intros [->|(m & -> & ->)]; reflexivity.
Qed.

(** C3.  [readSnap] on a file that can be read, by cases on its contents
    [b]: it fails with [ErrEmptySnapshot] exactly when [b] is empty, or the
    parsed envelope has an empty payload or a zero checksum; with the
    codec's error when the envelope does not parse; with [ErrCRCMismatch]
    exactly when the envelope is non-empty with a non-zero checksum that
    differs from the CRC-32C of the payload; and only then is the payload
    unmarshalled, whose own failure is a different error.  The directory is
    never changed. *)
Theorem readSnap_error_cases (p : path) (w : World) (b : bytes) :
  read_fault p = None -> lookup p (files w) = Some b ->
  exists r w',
    readSnap p w = Done r w' /\ files w' = files w /\
    (r = Err ErrEmptySnapshot <->
       b = [] \/
       exists e, UnmarshalSaved b = inr e /\ (Payload e = [] \/ Crc e = 0)) /\
    (forall err, b <> [] -> UnmarshalSaved b = inl err -> r = Err (ProtoError err)) /\
    (r = Err ErrCRCMismatch <->
       b <> [] /\
       exists e, UnmarshalSaved b = inr e /\ Payload e <> [] /\ Crc e <> 0 /\
                 crc32.Update 0 crcTable (Payload e) <> Crc e) /\
    (forall e, b <> [] -> UnmarshalSaved b = inr e ->
               Payload e <> [] -> Crc e <> 0 ->
               crc32.Update 0 crcTable (Payload e) = Crc e ->
               r = match UnmarshalSnapshot (Payload e) with
                   | inl err => Err (ProtoError err)
                   | inr x => Ok x
                   end).
Proof.
  intros Hr Hl. unfold readSnap, bind, ReadFile. rewrite Hr, Hl.
  assert (Len : forall l : bytes, (List.length l =? 0)%nat = true <-> l = []).
  { intros l. rewrite Nat.eqb_eq. destruct l; simpl; split; congruence. }
  destruct (List.length b =? 0)%nat eqn:Eb.
  { apply Len in Eb. subst b. unfold logf, ret. eexists _, _.
    split; [reflexivity|]. split; [reflexivity|].
    split; [tauto|]. split; [congruence|]. split; [|congruence].
    split; [discriminate | intros [N _]; congruence]. }
  assert (Nb : b <> []) by (intros E; apply Len in E; congruence).
  destruct (UnmarshalSaved b) as [err|e] eqn:Eu.
  { unfold logf, ret. eexists _, _.
    split; [reflexivity|]. split; [reflexivity|].
    split; [|split; [|split]].
    - split; [discriminate|]. intros [E|(e & E & _)]; congruence.
    - intros err' _ [=]. congruence.
    - split; [discriminate|]. intros [_ (e & E & _)]. congruence.
    - intros e _ E. congruence. }
  destruct (List.length (Payload e) =? 0)%nat eqn:Ep.
  { apply Len in Ep. cbn [orb]. unfold logf, ret. eexists _, _.
    split; [reflexivity|]. split; [reflexivity|].
    split; [|split; [|split]].
    - split; eauto.
    - intros err _ E. congruence.
    - split; [discriminate|]. intros [_ (e' & E & N & _)].
      assert (e' = e) by congruence. subst. congruence.
    - intros e' _ E N. assert (e' = e) by congruence. subst. congruence. }
  assert (Np : Payload e <> []) by (intros E; apply Len in E; congruence).
  cbn [orb]. destruct (Z.eqb_spec (Crc e) 0) as [Ec|Nc].
  { unfold logf, ret. eexists _, _.
    split; [reflexivity|]. split; [reflexivity|].
    split; [|split; [|split]].
    - split; eauto.
    - intros err _ E. congruence.
    - split; [discriminate|]. intros [_ (e' & E & _ & N & _)].
      assert (e' = e) by congruence. subst. congruence.
    - intros e' _ E _ N. assert (e' = e) by congruence. subst. congruence. }
  destruct (Z.eqb_spec (crc32.Update 0 crcTable (Payload e)) (Crc e)) as [Ecrc|Ncrc];
    cbn [negb].
  - destruct (UnmarshalSnapshot (Payload e)) as [err|x] eqn:Ux;
      unfold logf, ret; eexists _, _;
      (split; [reflexivity|]); (split; [reflexivity|]);
      (split; [|split; [|split]]).
    + split; [discriminate|]. intros [E|(e' & E & H)]; [congruence|].
      assert (e' = e) by congruence. subst. tauto.
    + intros err' _ E. congruence.
    + split; [discriminate|]. intros [_ (e' & E & H)].
      assert (e' = e) by congruence. subst. tauto.
    + intros e' _ E _ _ _. assert (e' = e) by congruence. subst. now rewrite Ux.
    + split; [discriminate|]. intros [E|(e' & E & H)]; [congruence|].
      assert (e' = e) by congruence. subst. tauto.
    + intros err' _ E. congruence.
    + split; [discriminate|]. intros [_ (e' & E & H)].
      assert (e' = e) by congruence. subst. tauto.
    + intros e' _ E _ _ _. assert (e' = e) by congruence. subst. now rewrite Ux.
  - unfold logf, ret. eexists _, _.
    split; [reflexivity|]. split; [reflexivity|].
    split; [|split; [|split]].
    + split; [discriminate|]. intros [E|(e' & E & [H|H])]; [congruence| |];
        assert (e' = e) by congruence; subst; congruence.
    + intros err _ E. congruence.
    + split; eauto 8.
    + intros e' _ E _ _ H. assert (e' = e) by congruence. subst. congruence.
Qed.

(** C2.  When the listing succeeds, the candidates are the [.snap] names
    that are not orphans, sorted in descending order, and [loadMatched]
    returns what the first candidate that both validates and satisfies the
    predicate holds ([scan]); a candidate that fails never stops the scan;
    when no candidate is accepted, or there is no [.snap] name at all, the
    result is [ErrNoSnapshot]. *)
Theorem loadMatched_returns_first_match (s : Snapshotter) (p : Snapshot -> bool) (w : World) :
  open_fault (dir s) = None -> readdir_fault (dir s) = None ->
  removable (dir s) (listing (dir s) w) ->
  let names := candidates (dir s) w in
  StronglySorted (fun a b => strings.lt a b = false) names /\
  (forall n, In n names <->
             In n (listing (dir s) w) /\ strings.HasSuffix n ".snap" = true /\
             strings.HasPrefix n "db.tmp" = false) /\
  (exists w', loadMatched s (fun x => ret (p x)) w = Done (scan w (dir s) p names) w') /\
  (forall pre n post x,
      names = pre ++ n :: post ->
      (forall m, In m pre -> accepts w (dir s) p m = false) ->
      read_result w (dir s, n) = Ok x -> p x = true ->
      scan w (dir s) p names = Ok x) /\
  ((forall n, In n names -> accepts w (dir s) p n = false) ->
   scan w (dir s) p names = Err ErrNoSnapshot) /\
  ((forall n, In n (listing (dir s) w) -> strings.HasSuffix n ".snap" = false) ->
   names = []).
Proof.
  intros Ho Hr Hrm names.
  assert (Mem : forall n, In n names <->
             In n (listing (dir s) w) /\ strings.HasSuffix n ".snap" = true /\
             strings.HasPrefix n "db.tmp" = false).
  { intros n. unfold names. rewrite candidates_In, listing_In.
    unfold candidate_name, is_snap, orphan.
    rewrite andb_true_iff, negb_true_iff. tauto. }
  split; [apply OrderFacts.SortReverseStrings_sorted|].
  split; [exact Mem|].
  split; [apply loadMatched_scan; auto|].
  split; [|split].
  - intros pre n post x E Hpre R P. unfold scan. rewrite E.
    assert (F : find (accepts w (dir s) p) (pre ++ n :: post) = Some n).
    { clear E. induction pre as [|h pre IH]; cbn [app find].
      - unfold accepts. now rewrite R, P.
      - rewrite (Hpre h (or_introl eq_refl)). apply IH.
        intros m Hm. apply Hpre. now right. }
    now rewrite F.
  - intros Hnone. unfold scan.
    destruct (find (accepts w (dir s) p) names) as [n|] eqn:F; auto.
    apply find_some in F. destruct F as [Hin A].
    rewrite (Hnone n Hin) in A. discriminate.
  - intros Hno. subst names. destruct (candidates (dir s) w) as [|n rest]; auto.
    destruct (proj1 (Mem n) (or_introl eq_refl)) as (Hl & Hs & _).
    rewrite (Hno n Hl) in Hs. discriminate.
Qed.

(** C10.  A candidate that validates is left exactly as it was by
    [loadMatched], whatever the predicate answers and even when it panics,
    and so by [LoadNewestAvailable] for any list of markers; conversely a
    candidate that was changed is one whose read or validation failed. *)
Theorem valid_candidates_untouched (s : Snapshotter) (matchFn : Snapshot -> Go bool)
  (walSnaps : list WalSnapshot) (w : World) (n : string) :
  strings.HasSuffix n ".snap" = true -> strings.HasPrefix n "db.tmp" = false ->
  (forall x, read_result w (dir s, n) = Ok x ->
     (observer matchFn ->
      lookup (dir s, n) (files (world_of (loadMatched s matchFn w)))
      = lookup (dir s, n) (files w)) /\
     lookup (dir s, n) (files (world_of (LoadNewestAvailable s walSnaps w)))
     = lookup (dir s, n) (files w)) /\
  (observer matchFn ->
   lookup (dir s, n) (files (world_of (loadMatched s matchFn w)))
   <> lookup (dir s, n) (files w) ->
   exists e, read_result w (dir s, n) = Err e).
Proof.
  intros Hs Hp.
  assert (C : candidate_name n = true).
  { unfold candidate_name, is_snap, orphan. now rewrite Hs, Hp. }
  assert (G : forall f x, observer f -> read_result w (dir s, n) = Ok x ->
            lookup (dir s, n) (files (world_of (loadMatched s f w)))
            = lookup (dir s, n) (files w)).
  { intros f x Hobs R. exact (proj1 (loadMatched_agrees s f w Hobs n C) x R). }
  split.
  - intros x R. split; [intros Hobs; now apply (G matchFn x)|].
    apply (G _ x); auto.
    intros y w0. induction (rev walSnaps) as [|ws l IH]; simpl; auto.
    destruct (Metadata y) as [md|]; simpl; auto.
    destruct ((Term md =? WalTerm ws) && (Index md =? WalIndex ws)); simpl; auto.
  - intros Hobs Hneq. destruct (read_result w (dir s, n)) as [x|e] eqn:R; [|eauto].
    elim Hneq. now apply (G matchFn x).
Qed.

End WithEnv.


Section WithEnv.
Context {codec : Codec} {io : Faults}.

(** C8.  [cleanupSnapdir] removes every listed name with prefix [db.tmp]
    (a name that is already gone is passed over) and returns the other names
    unchanged, touching nothing else; after any load whose listing meets no
    removal fault no [db.tmp] name is left in the directory, whether or not a
    valid snapshot exists; and a removal that fails for another reason than
    "not exist" makes [snapnames], and with it the load, fail with that
    error. *)
Theorem orphans_deleted_while_listing (s : Snapshotter) (matchFn : Snapshot -> Go bool)
  (w : World) :
  open_fault (dir s) = None -> readdir_fault (dir s) = None ->
  (forall filenames w0,
      (forall n, In n filenames -> strings.HasPrefix n "db.tmp" = true ->
                 remove_fault (dir s, n) = None) ->
      exists w',
        cleanupSnapdir s filenames w0
        = Done (filter (fun n => negb (strings.HasPrefix n "db.tmp")) filenames, None) w' /\
        (forall n, In n filenames -> strings.HasPrefix n "db.tmp" = true ->
                   lookup (dir s, n) (files w') = None) /\
        (forall q, (forall n, strings.HasPrefix n "db.tmp" = true -> q <> (dir s, n)) ->
                   lookup q (files w') = lookup q (files w0))) /\
  (observer matchFn ->
   (forall n, strings.HasPrefix n "db.tmp" = true -> remove_fault (dir s, n) = None) ->
   forall n, strings.HasPrefix n "db.tmp" = true ->
             lookup (dir s, n) (files (world_of (loadMatched s matchFn w))) = None) /\
  ((exists n, In n (listing (dir s) w) /\ strings.HasPrefix n "db.tmp" = true /\
              remove_fault (dir s, n) <> None) ->
   exists n e w1 w2,
     strings.HasPrefix n "db.tmp" = true /\ remove_fault (dir s, n) = Some e /\
     snapnames s w
     = Done (Err (RemoveOrphanError n (PathError "remove" (dir s, n) (errno e)))) w1 /\
     loadMatched s matchFn w
     = Done (Err (RemoveOrphanError n (PathError "remove" (dir s, n) (errno e)))) w2).
Proof.
  intros Ho Hr. split; [|split].
  - intros filenames w0 Hrm.
    destruct (cleanup_loop_ok s filenames Hrm [] w0) as (w' & E & Sw & Gone).
    exists w'. split; [exact E|]. split; [exact Gone|].
    intros q Hq. destruct (Sw q) as [Q|[_ (n & _ & On & ->)]]; auto.
    now elim (Hq n On).
  - intros Hobs Hrm n On. unfold loadMatched, bind.
    assert (Hrm' : removable (dir s) (listing (dir s) w))
      by (intros k _ Ok; now apply Hrm).
    destruct (snapnames_ok s w Ho Hr Hrm') as (w1 & E & Sw & Gone). rewrite E.
    assert (G1 : lookup (dir s, n) (files w1) = None).
    { destruct (lookup (dir s, n) (files w)) eqn:L.
      - apply Gone; auto. apply listing_In. congruence.
      - destruct (Sw (dir s, n)) as [Q|[Q _]]; congruence. }
    destruct (unsorted (dir s) w); [exact G1|].
    rewrite loop_footprint; auto.
    intros k Hk. apply candidates_In in Hk. destruct Hk as [_ Ck].
    unfold candidate_name in Ck. apply andb_true_iff in Ck.
    destruct Ck as [Sk Ok]. apply negb_true_iff in Ok.
    split; intros [=H]; subst.
    + unfold orphan in Ok. congruence.
    + apply StringFacts.broken_not_orphan in On; auto.
      unfold orphan in Ok. congruence.
  - intros Hbad.
    destruct (snapnames_fail s w Ho Hr Hbad) as (w1 & n & e & E & _ & On & Hf).
    exists n, e, w1, w1. repeat split; auto.
    unfold loadMatched, bind. now rewrite E.
Qed.

End WithEnv.

Section WithFaults.
Context {io : Faults}.

(** C9.  [ReleaseSnapDBs] returns [nil] and removes exactly the [.snap.db]
    entries whose decoded index is below [snap.Metadata.Index]: such an entry
    is gone when its removal meets no fault; entries with an undecodable
    index are logged and kept; entries with an index at or above the
    threshold, and all other entries, are kept; a removal that fails is
    logged and the entry kept.  With files for the indices 1, 2 and 5 and the
    threshold 3, only the file of index 5 remains. *)
Theorem ReleaseSnapDBs_deletes_stale (s : Snapshotter) (snap : Snapshot)
  (m : SnapshotMetadata) (w : World) :
  Metadata snap = Some m ->
  open_fault (dir s) = None -> readdir_fault (dir s) = None ->
  (exists w',
    ReleaseSnapDBs s snap w = Done None w' /\
    (forall n, In n (listing (dir s) w) -> stale (Index m) n = true ->
               remove_fault (dir s, n) = None -> lookup (dir s, n) (files w') = None) /\
    (forall q, (forall n, q = (dir s, n) -> stale (Index m) n = false) ->
               lookup q (files w') = lookup q (files w)) /\
    (forall n, unparseable n = true ->
               lookup (dir s, n) (files w') = lookup (dir s, n) (files w) /\
               (In n (listing (dir s) w) -> In (parse_failure n) (log w'))) /\
    (forall n index, dbIndex n = inr index -> Index m <= index ->
               lookup (dir s, n) (files w') = lookup (dir s, n) (files w)) /\
    (forall n e, In n (listing (dir s) w) -> stale (Index m) n = true ->
               remove_fault (dir s, n) = Some e ->
               lookup (dir s, n) (files w') = lookup (dir s, n) (files w) /\
               In (remove_failure n) (log w'))) /\
  (let after := world_of (ReleaseSnapDBs (io := no_faults) demo retained3 aux_world) in
   map fst (files aux_world)
   = [("member/snap", "0000000000000001.snap.db");
      ("member/snap", "0000000000000005.snap.db");
      ("member/snap", "0000000000000002.snap.db")] /\
   Metadata retained3 = Some {| Term := 1; Index := 3 |} /\
   ReleaseSnapDBs (io := no_faults) demo retained3 aux_world = Done None after /\
   map fst (files after) = [("member/snap", "0000000000000005.snap.db")]).
Proof.
  intros Hm Ho Hr. split.
  - unfold ReleaseSnapDBs, bind, Open, Readdirnames. rewrite Ho, Hr.
    fold (listing (dir s) w).
    destruct (Release_loop s snap m Hm (listing (dir s) w) w)
      as (w' & E & Sw & Gone & _ & Hp & Hrem).
    exists w'. split; [exact E|].
    assert (Keep : forall q, (forall n, q = (dir s, n) -> released (dir s) (Index m) n = false) ->
                             lookup q (files w') = lookup q (files w)).
    { intros q Hq. destruct (Sw q) as [Q|[_ (n & _ & Rn & ->)]]; auto.
      rewrite (Hq n eq_refl) in Rn. discriminate. }
    split; [|split; [|split; [|split]]].
    + intros n Hn St Hf. apply Gone; auto. unfold released. now rewrite St, Hf.
    + intros q Hq. apply Keep. intros n ->. unfold released.
      now rewrite (Hq n eq_refl).
    + intros n U. split; [|intros Hn; now apply Hp].
      apply Keep. intros k [= <-]. unfold released, stale. unfold unparseable in U.
      destruct (strings.HasSuffix n ".snap.db"); auto.
      destruct (dbIndex n); [reflexivity | discriminate].
    + intros n index Hi Hle. apply Keep. intros k [= <-].
      unfold released, stale. rewrite Hi.
      replace (index <? Index m) with false by (symmetry; apply Z.ltb_ge; lia).
      now rewrite andb_false_r.
    + intros n e Hn St Hf. split; [|eapply Hrem; eauto].
      apply Keep. intros k [= <-]. unfold released. rewrite Hf.
      apply andb_false_r.
  - vm_compute. repeat split.
Qed.

End WithFaults.

Section WithEnv.
Context {codec : Codec} {io : Faults}.

Lemma flipped_payload_mismatch (snapshot : Snapshot) (b f : bytes) (pos : nat)
  (p : path) (w : World) :
  Lawful codec -> Metadata snapshot <> None ->
  encodes snapshot b f ->
  crc32.Update 0 crcTable b <> 0 ->
  let off := PayloadOffset {| Crc := crc32.Update 0 crcTable b; Payload := b |} in
  (8 * off <= pos < 8 * (off + List.length b))%nat ->
  read_fault p = None ->
  lookup p (files w) = Some (flip_at pos f) ->
  read_result w p = Err ErrCRCMismatch.
Proof.
  intros L Hm [Hb Hf] Hc off Hpos Hr Hl.
  destruct (payload_verbatim _ L _ _ Hf) as (hd & tl & Ef & Eo & Hd).
  cbn [Payload Crc] in *. fold off in Eo.
  assert (Ep : pos = (8 * List.length hd + (pos - 8 * off))%nat) by lia.
  destruct (flip_at_inside b (pos - 8 * off)%nat tl ltac:(lia))
    as (a & x & c & k & Eb & Hk & Eflip).
  assert (Ef' : flip_at pos f = hd ++ (a ++ flip_bit k x :: c) ++ tl).
  { rewrite Ef, Ep, flip_at_app_r. now rewrite Eflip. }
  assert (Hlen : List.length (a ++ flip_bit k x :: c) = List.length b)
    by (rewrite Eb, !length_app; reflexivity).
  pose proof (saved_roundtrip _ L _ _ (Hd _ Hlen)) as Hu.
  rewrite <- Ef' in Hu.
  unfold read_result, readSnap, bind, ReadFile. rewrite Hr, Hl.
  replace (List.length (flip_at pos f) =? 0)%nat with false.
  2:{ symmetry. apply Nat.eqb_neq. rewrite Ef', !length_app. simpl. lia. }
  rewrite Hu. cbn [Payload Crc].
  replace (List.length (a ++ flip_bit k x :: c) =? 0)%nat with false
    by (symmetry; apply Nat.eqb_neq; rewrite length_app; simpl; lia).
  apply Z.eqb_neq in Hc. rewrite Hc. cbn [orb].
  replace (crc32.Update 0 crcTable (a ++ flip_bit k x :: c)
           =? crc32.Update 0 crcTable b) with false; [reflexivity|].
  symmetry. apply Z.eqb_neq. rewrite Eb.
  apply CrcFacts.Update_one_byte. now apply flip_bit_neq.
Qed.

(** C4 (amended).  When a candidate fails to read or validate, [loadSnap]
    returns that error; if the rename meets no fault the file is then found
    under [name ++ ".broken"] and no longer under [name]; if the rename
    fails, this is logged, the directory is unchanged and the same error is
    returned.  A file written by [SaveSnap] whose stored checksum is not zero
    and in whose payload region one bit is inverted fails with
    [ErrCRCMismatch] and is quarantined in this way.  In a load scan whose
    listing succeeds, a failing candidate that the scan reaches (no name
    sorted before it is accepted) is, when its rename meets no fault, found
    under its quarantine name once [loadMatched] has returned. *)
Theorem failed_candidate_is_quarantined (s : Snapshotter) (name : string) (w : World) :
  (forall e, read_result w (dir s, name) = Err e ->
     exists w',
       loadSnap (dir s) name w = Done (Err e) w' /\
       (forall b, rename_fault (dir s, name) = None ->
                  lookup (dir s, name) (files w) = Some b ->
                  lookup (dir s, name) (files w') = None /\
                  lookup (dir s, brokenName name) (files w') = Some b /\
                  forall q, q <> (dir s, name) -> q <> (dir s, brokenName name) ->
                            lookup q (files w') = lookup q (files w)) /\
       (forall x, rename_fault (dir s, name) = Some x ->
                  files w' = files w /\ In (rename_failure (dir s, name)) (log w'))) /\
  (forall snapshot m b f pos w0,
     Lawful codec -> Metadata snapshot = Some m -> Index m <> 0 ->
     name = snapName (Term m) (Index m) ->
     encodes snapshot b f ->
     crc32.Update 0 crcTable b <> 0 ->
     write_fault (dir s, name) = None -> read_fault (dir s, name) = None ->
     rename_fault (dir s, name) = None ->
     let off := PayloadOffset {| Crc := crc32.Update 0 crcTable b; Payload := b |} in
     (8 * off <= pos < 8 * (off + List.length b))%nat ->
     exists w1,
       SaveSnap s snapshot w0 = Done None w1 /\
       lookup (dir s, name) (files w1) = Some f /\
       (lookup (dir s, name) (files w) = Some (flip_at pos f) ->
        exists w',
          loadSnap (dir s) name w = Done (Err ErrCRCMismatch) w' /\
          lookup (dir s, name) (files w') = None /\
          lookup (dir s, brokenName name) (files w') = Some (flip_at pos f))) /\
  (forall (p : Snapshot -> bool) pre post e b,
     open_fault (dir s) = None -> readdir_fault (dir s) = None ->
     removable (dir s) (listing (dir s) w) ->
     candidates (dir s) w = pre ++ name :: post -> NoDup (candidates (dir s) w) ->
     (forall m, In m pre -> accepts w (dir s) p m = false) ->
     read_result w (dir s, name) = Err e ->
     lookup (dir s, name) (files w) = Some b ->
     rename_fault (dir s, name) = None ->
     let w' := world_of (loadMatched s (fun x => ret (p x)) w) in
     lookup (dir s, name) (files w') = None /\
     lookup (dir s, brokenName name) (files w') = Some b).
Proof.
  set (d := dir s).
  assert (Nbr : (d, name) <> (d, brokenName name)).
  { intros [=H]. symmetry in H. now apply StringFacts.broken_neq in H. }
  assert (Gen : forall e, read_result w (d, name) = Err e ->
     exists w',
       loadSnap d name w = Done (Err e) w' /\
       (forall b, rename_fault (d, name) = None ->
                  lookup (d, name) (files w) = Some b ->
                  lookup (d, name) (files w') = None /\
                  lookup (d, brokenName name) (files w') = Some b /\
                  forall q, q <> (d, name) -> q <> (d, brokenName name) ->
                            lookup q (files w') = lookup q (files w)) /\
       (forall x, rename_fault (d, name) = Some x ->
                  files w' = files w /\ In (rename_failure (d, name)) (log w'))).
  { intros e R. unfold loadSnap, bind.
    destruct (readSnap_result (d, name) w) as (w1 & E & F). rewrite E, R.
    unfold logf, Rename. cbn [files log]. rewrite F.
    destruct (rename_fault (d, name)) as [x|] eqn:Rf.
    - unfold ret. eexists. split; [reflexivity|]. cbn [files log].
      split; [discriminate|]. intros y _. split; [reflexivity|now left].
    - destruct (lookup (d, name) (files w)) as [b|] eqn:L.
      + apply FsFacts.path_eqb_neq in Nbr as Nb. rewrite Nb.
        unfold ret. eexists. split; [reflexivity|]. cbn [files log].
        split; [|discriminate]. intros b' _ [= <-].
        split; [|split].
        * rewrite FsFacts.lookup_cons_other, FsFacts.lookup_delete_other by auto.
          apply FsFacts.lookup_delete_same.
        * apply FsFacts.lookup_cons_same.
        * intros q N1 N2.
          rewrite FsFacts.lookup_cons_other, !FsFacts.lookup_delete_other; auto.
      + unfold ret. eexists. split; [reflexivity|]. cbn [files log].
        split; [discriminate|]. discriminate. }
  split; [exact Gen|].
  split; [|intros p pre post e b;
            exact (loadMatched_quarantines s p w pre post name e b)].
  intros snapshot m b f pos w0 L Hm Hi Hname Enc Hc Hw Hr Hrn off Hpos.
  destruct Enc as [Hb Hf].
  exists (written (d, name) f w0). split; [|split].
  - rewrite Hname in *. apply (SaveSnap_ok s snapshot m b f w0); auto.
  - apply lookup_written_same.
  - intros Hl.
    assert (R : read_result w (d, name) = Err ErrCRCMismatch).
    { assert (Hm' : Metadata snapshot <> None) by (rewrite Hm; discriminate).
      exact (flipped_payload_mismatch snapshot b f pos (d, name) w L Hm'
               (conj Hb Hf) Hc Hpos Hr Hl). }
    destruct (Gen _ R) as (w' & E & Q & _). exists w'. split; [exact E|].
    destruct (Q _ Hrn Hl) as (Q1 & Q2 & _). auto.
Qed.

End WithEnv.

Section WithEnv.
Context {codec : Codec} {io : Faults}.

Lemma healthy_removable (d : string) (l : list string) : healthy io d -> removable d l.
Proof. intros (_ & _ & H) n _ _. apply H. Qed.

Lemma load_newest (s : Snapshotter) (matchFn : Snapshot -> Go bool)
  (p : Snapshot -> bool) (w : World) (n : string) (x : Snapshot) :
  healthy io (dir s) ->
  (forall k y, In k (candidates (dir s) w) -> read_result w (dir s, k) = Ok y ->
               forall w', matchFn y w' = Done (p y) w') ->
  In n (candidates (dir s) w) ->
  read_result w (dir s, n) = Ok x -> p x = true ->
  (forall k, In k (candidates (dir s) w) -> strings.lt n k = true ->
             accepts w (dir s) p k = false) ->
  exists w', loadMatched s matchFn w = Done (Ok x) w'.
Proof.
  intros H Hm Hin R P Hnew. pose proof H as (Ho & Hr & _).
  destruct (loadMatched_scan s matchFn p w Ho Hr (healthy_removable _ _ H) Hm) as (w' & E).
  exists w'. rewrite E. f_equal.
  eapply scan_newest; eauto. apply OrderFacts.SortReverseStrings_sorted.
Qed.

Lemma scan_ok_iff (w : World) (d : string) (p : Snapshot -> bool) (names : list string) :
  (exists x, scan w d p names = Ok x) <->
  (exists n x, In n names /\ read_result w (d, n) = Ok x /\ p x = true).
Proof.
  unfold scan. split.
  - intros [x E]. destruct (find (accepts w d p) names) as [n|] eqn:F; [|discriminate].
    apply find_some in F. destruct F as [Hin A]. unfold accepts in A.
    rewrite E in A. eauto.
  - intros (n & x & Hin & R & P).
    destruct (find (accepts w d p) names) as [k|] eqn:F.
    + apply find_some in F. destruct F as [_ A]. unfold accepts in A.
      destruct (read_result w (d, k)); [eauto|discriminate].
    + apply find_none with (x := n) in F; auto. unfold accepts in F.
      rewrite R, P in F. discriminate.
Qed.

Lemma matchWal_some (m : SnapshotMetadata) (l : list WalSnapshot) (w : World) :
  matchWal (Some m) l w
  = Done (existsb (fun ws => (Term m =? WalTerm ws) && (Index m =? WalIndex ws)) l) w.
Proof.
  induction l as [|ws l IH]; simpl; [reflexivity|].
  destruct ((Term m =? WalTerm ws) && (Index m =? WalIndex ws)); simpl; auto.
Qed.

Lemma snapName_lt (t i j : Z) :
  uint64 t -> uint64 i -> uint64 j -> i < j ->
  strings.lt (snapName t j) (snapName t i) = false /\ snapName t i <> snapName t j.
Proof.
  intros Ht Hi Hj L.
  assert (C : String.compare (snapName t j) (snapName t i) = Gt).
  { rewrite NameFacts.snapName_compare by assumption.
    rewrite Z.compare_refl. apply Z.compare_gt_iff. lia. }
  split.
  - unfold strings.lt, String.ltb. now rewrite C.
  - intros E. rewrite E, OrderFacts.compare_refl in C. discriminate.
Qed.

Lemma snapName_candidate (t i : Z) : candidate_name (snapName t i) = true.
Proof.
  unfold candidate_name, is_snap, orphan.
  now rewrite NameFacts.snapName_suffix, NameFacts.snapName_not_orphan.
Qed.

(** C1 (amended).  In a directory without injected faults, for every
    snapshot with metadata and a non-zero index that serialises and whose
    payload has a non-zero CRC-32C: if every other candidate that sorts after
    its name fails to validate, then [SaveSnap] followed by [Load] returns
    the snapshot. *)
Theorem save_then_load (s : Snapshotter) (snapshot : Snapshot) (m : SnapshotMetadata)
  (b f : bytes) (w : World) :
  Lawful codec -> healthy io (dir s) ->
  Metadata snapshot = Some m -> Index m <> 0 ->
  encodes snapshot b f ->
  crc32.Update 0 crcTable b <> 0 ->
  (forall n, In n (listing (dir s) w) ->
             strings.HasSuffix n ".snap" = true -> strings.HasPrefix n "db.tmp" = false ->
             strings.lt (snapName (Term m) (Index m)) n = true ->
             exists e, read_result w (dir s, n) = Err e) ->
  exists w1 w2,
    SaveSnap s snapshot w = Done None w1 /\
    lookup (dir s, snapName (Term m) (Index m)) (files w1) = Some f /\
    Load s w1 = Done (Ok snapshot) w2.
Proof.
  intros L H Hm Hi [Hb Hf] Hc Hnew.
  pose proof H as (Ho & Hr & Hn).
  set (name := snapName (Term m) (Index m)) in *.
  set (w1 := written (dir s, name) f w).
  assert (R : read_result w1 (dir s, name) = Ok snapshot).
  { rewrite (read_result_saved snapshot b f (dir s, name) w1 L); auto.
    - apply Z.eqb_neq in Hc. now rewrite Hc.
    - rewrite Hm. discriminate.
    - apply Hn.
    - apply lookup_written_same. }
  assert (E : exists w2, loadMatched s (fun _ => ret true) w1 = Done (Ok snapshot) w2).
  { apply (load_newest s _ (fun _ => true) w1 name snapshot); auto.
    - apply candidates_In. split; [|apply snapName_candidate].
      unfold w1. rewrite lookup_written_same. discriminate.
    - intros k Hk Lt. apply candidates_In in Hk. destruct Hk as [Hk Ck].
      assert (N : k <> name).
      { intros ->. rewrite OrderFacts.lt_irrefl in Lt. discriminate. }
      assert (Q : lookup (dir s, k) (files w1) = lookup (dir s, k) (files w)).
      { apply lookup_written_other. congruence. }
      unfold candidate_name, is_snap, orphan in Ck.
      apply andb_true_iff in Ck. destruct Ck as [Sk Ok].
      apply negb_true_iff in Ok.
      destruct (Hnew k) as [e Re]; auto.
      { apply listing_In. congruence. }
      unfold accepts. rewrite (read_result_ext _ w1 w Q), Re. reflexivity. }
  destruct E as [w2 E]. exists w1, w2. split; [|split].
  - apply (SaveSnap_ok s snapshot m b f w); auto. apply Hn.
  - apply lookup_written_same.
  - exact E.
Qed.

End WithEnv.

Section WithEnv.
Context {codec : Codec} {io : Faults}.

Lemma candidates_written (d n k : string) (f : bytes) (w : World) :
  In k (candidates d (written (d, n) f w)) -> k = n \/ In k (candidates d w).
Proof.
  intros H. apply candidates_In in H. destruct H as [H C].
  destruct (String.eqb_spec k n) as [->|N]; [now left|]. right.
  apply candidates_In. split; auto.
  rewrite lookup_written_other in H; auto. congruence.
Qed.

Lemma no_snap_no_candidates (d : string) (w : World) :
  (forall n, In n (listing d w) -> strings.HasSuffix n ".snap" = false) ->
  forall k, ~ In k (candidates d w).
Proof.
  intros H k Hk. apply candidates_In in Hk. destruct Hk as [Hk C].
  apply listing_In in Hk. apply H in Hk.
  unfold candidate_name, is_snap in C. rewrite Hk in C. discriminate.
Qed.

Lemma read_saved_at (t i : Z) (data b f : bytes) (p : path) (w : World) :
  Lawful codec -> encodes (snapshot_at t i data) b f ->
  read_fault p = None -> lookup p (files w) = Some f ->
  read_result w p = if crc32.Update 0 crcTable b =? 0 then Err ErrEmptySnapshot
                    else Ok (snapshot_at t i data).
Proof.
  intros L [Hb Hf] Hr Hl. eapply read_result_saved; eauto. discriminate.
Qed.

(** C5 (amended).  The names [snapName t i] compare, as strings, the way
    the pairs [(t, i)] compare (term first, then index).  Snapshots saved at
    the indices 1, 5 and 3 of one term into a directory without snapshot
    files: [Load] returns the snapshot of index 5, provided its payload has
    a non-zero CRC-32C. *)
Theorem names_sort_like_pairs (s : Snapshotter) (t : Z) (d1 d5 d3 : bytes)
  (b1 f1 b5 f5 b3 f3 : bytes) (w0 : World) :
  (forall t1 i1 t2 i2,
      uint64 t1 -> uint64 i1 -> uint64 t2 -> uint64 i2 ->
      String.compare (snapName t1 i1) (snapName t2 i2)
      = match t1 ?= t2 with Eq => i1 ?= i2 | o => o end) /\
  (Lawful codec -> healthy io (dir s) -> uint64 t ->
   encodes (snapshot_at t 1 d1) b1 f1 ->
   encodes (snapshot_at t 5 d5) b5 f5 ->
   encodes (snapshot_at t 3 d3) b3 f3 ->
   crc32.Update 0 crcTable b5 <> 0 ->
   (forall n, In n (listing (dir s) w0) -> strings.HasSuffix n ".snap" = false) ->
   exists w1 w2 w3 w4,
     SaveSnap s (snapshot_at t 1 d1) w0 = Done None w1 /\
     SaveSnap s (snapshot_at t 5 d5) w1 = Done None w2 /\
     SaveSnap s (snapshot_at t 3 d3) w2 = Done None w3 /\
     Load s w3 = Done (Ok (snapshot_at t 5 d5)) w4).
Proof.
  split; [intros; now apply NameFacts.snapName_compare|].
  intros L H Ht E1 E5 E3 Hc Hempty.
  pose proof H as (Ho & Hr & Hn).
  set (w1 := written (dir s, snapName t 1) f1 w0).
  set (w2 := written (dir s, snapName t 5) f5 w1).
  set (w3 := written (dir s, snapName t 3) f3 w2).
  assert (U1 : uint64 1) by (unfold uint64; lia).
  assert (U3 : uint64 3) by (unfold uint64; lia).
  assert (U5 : uint64 5) by (unfold uint64; lia).
  destruct (snapName_lt t 1 5 Ht U1 U5 ltac:(lia)) as [L15 N15].
  destruct (snapName_lt t 3 5 Ht U3 U5 ltac:(lia)) as [L35 N35].
  assert (Q5 : lookup (dir s, snapName t 5) (files w3) = Some f5).
  { unfold w3. rewrite lookup_written_other by congruence. apply lookup_written_same. }
  assert (R5 : read_result w3 (dir s, snapName t 5) = Ok (snapshot_at t 5 d5)).
  { rewrite (read_saved_at t 5 d5 b5 f5 _ w3 L E5 (proj1 (Hn _)) Q5).
    apply Z.eqb_neq in Hc. now rewrite Hc. }
  assert (E : exists w4, loadMatched s (fun _ => ret true) w3
                         = Done (Ok (snapshot_at t 5 d5)) w4).
  { apply (load_newest s _ (fun _ => true) w3 (snapName t 5)); auto.
    - apply candidates_In. split; [congruence | apply snapName_candidate].
    - intros k Hk Lt.
      apply candidates_written in Hk. destruct Hk as [->|Hk]; [congruence|].
      apply candidates_written in Hk. destruct Hk as [->|Hk].
      { rewrite OrderFacts.lt_irrefl in Lt. discriminate. }
      apply candidates_written in Hk. destruct Hk as [->|Hk]; [congruence|].
      now apply no_snap_no_candidates in Hk. }
  destruct E as [w4 E]. exists w1, w2, w3, w4.
  destruct E1 as [Hb1 Hf1], E5 as [Hb5 Hf5], E3 as [Hb3 Hf3].
  repeat split; auto;
    match goal with
    | |- SaveSnap s (snapshot_at t ?i ?d) ?w = _ =>
        eapply (SaveSnap_ok s (snapshot_at t i d) {| Term := t; Index := i |});
        eauto; try apply Hn; cbn; lia
    end.
Qed.

(** C6 (amended).  The predicate of [LoadNewestAvailable] accepts a
    snapshot with metadata exactly when its term and index equal those of
    some marker.  When the listing succeeds and every candidate that
    validates has metadata, the call returns the newest accepted candidate,
    and it returns a snapshot if and only if some valid candidate matches
    some marker.  With snapshots saved at (1,1) and (1,2) and the markers
    [[(1,1)]] it returns the snapshot of index 1, provided the payload of
    that snapshot has a non-zero CRC-32C. *)
Theorem LoadNewestAvailable_matches_markers (s : Snapshotter)
  (walSnaps : list WalSnapshot) (w : World) (d1 d2 b1 f1 b2 f2 : bytes) (w0 : World) :
  (forall x m, Metadata x = Some m ->
     (matches walSnaps x = true <->
      exists ws, In ws walSnaps /\ Term m = WalTerm ws /\ Index m = WalIndex ws)) /\
  (open_fault (dir s) = None -> readdir_fault (dir s) = None ->
   removable (dir s) (listing (dir s) w) ->
   (forall n x, In n (candidates (dir s) w) -> read_result w (dir s, n) = Ok x ->
                Metadata x <> None) ->
   exists w',
     LoadNewestAvailable s walSnaps w
     = Done (scan w (dir s) (matches walSnaps) (candidates (dir s) w)) w' /\
     ((exists x, scan w (dir s) (matches walSnaps) (candidates (dir s) w) = Ok x) <->
      (exists n x m ws,
          In n (candidates (dir s) w) /\ read_result w (dir s, n) = Ok x /\
          Metadata x = Some m /\ In ws walSnaps /\
          Term m = WalTerm ws /\ Index m = WalIndex ws))) /\
  (Lawful codec -> healthy io (dir s) ->
   encodes (snapshot_at 1 1 d1) b1 f1 ->
   encodes (snapshot_at 1 2 d2) b2 f2 ->
   crc32.Update 0 crcTable b1 <> 0 ->
   (forall n, In n (listing (dir s) w0) -> strings.HasSuffix n ".snap" = false) ->
   exists w1 w2 w3,
     SaveSnap s (snapshot_at 1 1 d1) w0 = Done None w1 /\
     SaveSnap s (snapshot_at 1 2 d2) w1 = Done None w2 /\
     LoadNewestAvailable s [{| WalTerm := 1; WalIndex := 1 |}] w2
     = Done (Ok (snapshot_at 1 1 d1)) w3).
Proof.
  assert (M : forall l x m, Metadata x = Some m ->
     (matches l x = true <->
      exists ws, In ws l /\ Term m = WalTerm ws /\ Index m = WalIndex ws)).
  { intros l x m Hm. unfold matches. rewrite Hm, existsb_exists. split.
    - intros (ws & Hin & E). apply in_rev in Hin.
      apply andb_true_iff in E. rewrite !Z.eqb_eq in E. eauto.
    - intros (ws & Hin & E1 & E2). exists ws. split; [now apply in_rev in Hin|].
      apply andb_true_iff. now rewrite !Z.eqb_eq. }
  assert (W : forall l y, Metadata y <> None ->
              forall w', matchWal (Metadata y) (rev l) w' = Done (matches l y) w').
  { intros l y Hy w'. unfold matches. destruct (Metadata y) as [m|]; [|congruence].
    apply matchWal_some. }
  split; [apply M|]. split.
  - intros Ho Hr Hrm Hmeta. unfold LoadNewestAvailable.
    destruct (loadMatched_scan s (fun x => matchWal (Metadata x) (rev walSnaps))
                (matches walSnaps) w Ho Hr Hrm) as (w' & E).
    { intros n x Hn R w'. apply W. eapply Hmeta; eauto. }
    exists w'. split; [exact E|]. rewrite scan_ok_iff. split.
    + intros (n & x & Hn & R & P).
      destruct (Metadata x) as [m|] eqn:Hm; [|now elim (Hmeta n x Hn R)].
      apply (M walSnaps x m Hm) in P. destruct P as (ws & P).
      exists n, x, m, ws. tauto.
    + intros (n & x & m & ws & Hn & R & Hm & P).
      exists n, x. repeat split; auto. apply (M walSnaps x m Hm). eauto.
  - intros L H E1 E2 Hc Hempty.
    pose proof H as (Ho & Hr & Hn).
    set (w1 := written (dir s, snapName 1 1) f1 w0).
    set (w2 := written (dir s, snapName 1 2) f2 w1).
    assert (U1 : uint64 1) by (unfold uint64; lia).
    assert (U2 : uint64 2) by (unfold uint64; lia).
    destruct (snapName_lt 1 1 2 U1 U1 U2 ltac:(lia)) as [L12 N12].
    assert (Q1 : lookup (dir s, snapName 1 1) (files w2) = Some f1).
    { unfold w2. rewrite lookup_written_other by congruence. apply lookup_written_same. }
    assert (Q2 : lookup (dir s, snapName 1 2) (files w2) = Some f2)
      by apply lookup_written_same.
    pose proof (read_saved_at 1 1 d1 b1 f1 _ w2 L E1 (proj1 (Hn _)) Q1) as R1.
    pose proof (read_saved_at 1 2 d2 b2 f2 _ w2 L E2 (proj1 (Hn _)) Q2) as R2.
    apply Z.eqb_neq in Hc. rewrite Hc in R1.
    assert (Cases : forall k, In k (candidates (dir s) w2) ->
                              k = snapName 1 2 \/ k = snapName 1 1).
    { intros k Hk.
      apply candidates_written in Hk. destruct Hk as [->|Hk]; [now left|].
      apply candidates_written in Hk. destruct Hk as [->|Hk]; [now right|].
      now apply no_snap_no_candidates in Hk. }
    assert (E : exists w3,
      loadMatched s (fun x => matchWal (Metadata x)
                                (rev [{| WalTerm := 1; WalIndex := 1 |}])) w2
      = Done (Ok (snapshot_at 1 1 d1)) w3).
    { apply (load_newest s _ (matches [{| WalTerm := 1; WalIndex := 1 |}]) w2
               (snapName 1 1)); auto.
      - intros k y Hk R w'. apply W.
        destruct (Cases k Hk) as [->| ->].
        + rewrite R2 in R.
          destruct (crc32.Update 0 crcTable b2 =? 0); [discriminate|].
          injection R as <-. discriminate.
        + rewrite R1 in R. injection R as <-. discriminate.
      - apply candidates_In. split; [congruence | apply snapName_candidate].
      - intros k Hk Lt. destruct (Cases k Hk) as [->| ->].
        + unfold accepts. rewrite R2.
          destruct (crc32.Update 0 crcTable b2 =? 0); reflexivity.
        + rewrite OrderFacts.lt_irrefl in Lt. discriminate. }
    destruct E as [w3 E]. exists w1, w2, w3.
    destruct E1 as [Hb1 Hf1], E2 as [Hb2 Hf2].
    repeat split; auto;
      match goal with
      | |- SaveSnap s (snapshot_at 1 ?i ?d) ?w = _ =>
          eapply (SaveSnap_ok s (snapshot_at 1 i d) {| Term := 1; Index := i |});
          eauto; try apply Hn; cbn; lia
      end.
Qed.

End WithEnv.
(** *** The theorems at closed inputs *)

Lemma no_faults_healthy (d : string) : healthy no_faults d.
Proof. repeat split. Qed.

Lemma hello_encodes : encodes (codec := wire.proto3) hello (payload_of hello) (file_of hello).
Proof. split; vm_compute; reflexivity. Qed.

(** C7 at a snapshot of index 0. *)
Lemma SaveSnap_without_index_is_noop_witness :
  SaveSnap (codec := wire.proto3) (io := no_faults) demo
    {| Data := list_byte_of_string "x"; Metadata := Some {| Term := 7; Index := 0 |} |}
    stray_world
  = Done None stray_world.
Proof.
  apply (SaveSnap_without_index_is_noop (codec := wire.proto3) (io := no_faults)).
  right. exists {| Term := 7; Index := 0 |}. split; reflexivity.
Defined.

(** C3 at a file written by [save]: it validates. *)
Lemma readSnap_error_cases_witness :
  exists r w',
    readSnap (codec := wire.proto3) (io := no_faults) ("member/snap", hello_name) saved_world
    = Done r w' /\ files w' = files saved_world /\ r = Ok hello.
Proof.
  destruct (readSnap_error_cases (codec := wire.proto3) (io := no_faults)
              ("member/snap", hello_name) saved_world (file_of hello)
              eq_refl eq_refl)
    as (r & w' & E & F & _ & _ & _ & Hok).
  exists r, w'. split; [exact E|]. split; [exact F|].
  apply (Hok {| Crc := crc32.Update 0 crcTable (payload_of hello);
                Payload := payload_of hello |}).
  - vm_compute. discriminate.
  - vm_compute. reflexivity.
  - vm_compute. discriminate.
  - vm_compute. discriminate.
  - vm_compute. reflexivity.
Defined.

(** C2 at a directory with one saved snapshot, an orphan and [db]. *)
Lemma loadMatched_returns_first_match_witness :
  exists w',
    loadMatched (codec := wire.proto3) (io := no_faults) demo (fun x => ret true) saved_world
    = Done (Ok hello) w'.
Proof.
  destruct (loadMatched_returns_first_match (codec := wire.proto3) (io := no_faults)
              demo (fun _ => true) saved_world eq_refl eq_refl)
    as (_ & _ & (w' & E) & _).
  - intros n _ _. reflexivity.
  - exists w'. rewrite E. vm_compute. reflexivity.
Defined.

(** C10 at the same directory, with markers that match nothing. *)
Lemma valid_candidates_untouched_witness :
  lookup ("member/snap", hello_name)
    (files (world_of (LoadNewestAvailable (codec := wire.proto3) (io := no_faults) demo
                        [{| WalTerm := 9; WalIndex := 9 |}] saved_world)))
  = Some (file_of hello).
Proof.
  exact (eq_trans
           (proj2 (proj1 (valid_candidates_untouched (codec := wire.proto3)
                            (io := no_faults) demo (fun _ => ret true)
                            [{| WalTerm := 9; WalIndex := 9 |}]
                            saved_world hello_name eq_refl eq_refl) hello eq_refl))
           eq_refl).
Defined.

(** C8 at a directory without snapshots: [db.tmp123] is removed. *)
Lemma orphans_deleted_while_listing_witness :
  lookup ("member/snap", "db.tmp123") (files stray_world) = Some [] /\
  lookup ("member/snap", "db.tmp123")
    (files (world_of (loadMatched (codec := wire.proto3) (io := no_faults) demo
                        (fun _ => ret true) stray_world))) = None.
Proof.
  split; [reflexivity|].
  apply (proj1 (proj2 (orphans_deleted_while_listing (codec := wire.proto3)
                         (io := no_faults) demo (fun _ => ret true) stray_world
                         eq_refl eq_refl))).
  - intros x w. reflexivity.
  - intros n _. reflexivity.
  - reflexivity.
Defined.

(** C9 at the three auxiliary files: the file of index 2 is removed. *)
Lemma ReleaseSnapDBs_deletes_stale_witness :
  exists w',
    ReleaseSnapDBs (io := no_faults) demo retained3 aux_world = Done None w' /\
    lookup ("member/snap", "0000000000000002.snap.db") (files w') = None.
Proof.
  destruct (proj1 (ReleaseSnapDBs_deletes_stale (io := no_faults) demo retained3
                     {| Term := 1; Index := 3 |} aux_world eq_refl eq_refl eq_refl))
    as (w' & E & Gone & _).
  exists w'. split; [exact E|]. apply Gone.
  - vm_compute. auto.
  - vm_compute. reflexivity.
  - reflexivity.
Defined.

(** C4 at a saved file with bit 67 (inside the payload) inverted. *)
Lemma failed_candidate_is_quarantined_witness :
  exists w',
    loadSnap (codec := wire.proto3) (io := no_faults) "member/snap" hello_name
      (written ("member/snap", hello_name) (flip_at 67 (file_of hello)) stray_world)
    = Done (Err ErrCRCMismatch) w' /\
    lookup ("member/snap", hello_name) (files w') = None /\
    lookup ("member/snap", brokenName hello_name) (files w')
    = Some (flip_at 67 (file_of hello)).
Proof.
  destruct (proj1 (proj2 (failed_candidate_is_quarantined
                            (codec := wire.proto3) (io := no_faults) demo hello_name
                            (written ("member/snap", hello_name)
                               (flip_at 67 (file_of hello)) stray_world)))
              hello {| Term := 1; Index := 5 |} (payload_of hello) (file_of hello)
              67%nat stray_world WireFacts.proto3_lawful eq_refl)
    as (w1 & _ & _ & Hflip).
  - discriminate.
  - reflexivity.
  - exact hello_encodes.
  - vm_compute. discriminate.
  - reflexivity.
  - reflexivity.
  - reflexivity.
  - vm_compute. split; apply Nat.leb_le; reflexivity.
  - apply Hflip. reflexivity.
Defined.

(** C1 at a snapshot of index 5. *)
Lemma save_then_load_witness :
  exists w1 w2,
    SaveSnap (codec := wire.proto3) (io := no_faults) demo hello stray_world = Done None w1 /\
    lookup ("member/snap", hello_name) (files w1) = Some (file_of hello) /\
    Load (codec := wire.proto3) (io := no_faults) demo w1 = Done (Ok hello) w2.
Proof.
  apply (save_then_load (codec := wire.proto3) (io := no_faults) demo hello
           {| Term := 1; Index := 5 |} (payload_of hello) (file_of hello) stray_world
           WireFacts.proto3_lawful (no_faults_healthy _) eq_refl).
  - discriminate.
  - exact hello_encodes.
  - vm_compute. discriminate.
  - intros n [<-|[<-|[]]] Hs; vm_compute in Hs; discriminate.
Defined.

(** C5 at three concrete snapshots. *)
Lemma names_sort_like_pairs_witness :
  exists w1 w2 w3 w4,
    SaveSnap (codec := wire.proto3) (io := no_faults) demo (snapshot_at 1 1 []) stray_world
      = Done None w1 /\
    SaveSnap (codec := wire.proto3) (io := no_faults) demo hello w1 = Done None w2 /\
    SaveSnap (codec := wire.proto3) (io := no_faults) demo (snapshot_at 1 3 []) w2
      = Done None w3 /\
    Load (codec := wire.proto3) (io := no_faults) demo w3 = Done (Ok hello) w4.
Proof.
  apply (proj2 (names_sort_like_pairs (codec := wire.proto3) (io := no_faults) demo 1
                  [] (list_byte_of_string "hello") []
                  (payload_of (snapshot_at 1 1 [])) (file_of (snapshot_at 1 1 []))
                  (payload_of hello) (file_of hello)
                  (payload_of (snapshot_at 1 3 [])) (file_of (snapshot_at 1 3 []))
                  stray_world)
           WireFacts.proto3_lawful (no_faults_healthy _)).
  - unfold uint64. lia.
  - split; vm_compute; reflexivity.
  - exact hello_encodes.
  - split; vm_compute; reflexivity.
  - vm_compute. discriminate.
  - intros n [<-|[<-|[]]]; reflexivity.
Defined.

(** C6 at two concrete snapshots. *)
Lemma LoadNewestAvailable_matches_markers_witness :
  exists w1 w2 w3,
    SaveSnap (codec := wire.proto3) (io := no_faults) demo (snapshot_at 1 1 []) stray_world
      = Done None w1 /\
    SaveSnap (codec := wire.proto3) (io := no_faults) demo (snapshot_at 1 2 []) w1
      = Done None w2 /\
    LoadNewestAvailable (codec := wire.proto3) (io := no_faults) demo
      [{| WalTerm := 1; WalIndex := 1 |}] w2
    = Done (Ok (snapshot_at 1 1 [])) w3.
Proof.
  apply (proj2 (proj2 (LoadNewestAvailable_matches_markers (codec := wire.proto3)
                         (io := no_faults) demo [] stray_world [] []
                         (payload_of (snapshot_at 1 1 [])) (file_of (snapshot_at 1 1 []))
                         (payload_of (snapshot_at 1 2 [])) (file_of (snapshot_at 1 2 []))
                         stray_world))
           WireFacts.proto3_lawful (no_faults_healthy _)).
  - split; vm_compute; reflexivity.
  - split; vm_compute; reflexivity.
  - vm_compute. discriminate.
  - intros n [<-|[<-|[]]]; reflexivity.
Defined.

(** *** The branches the theorems leave to the environment *)

(** On a read-only disk the orphan cannot be removed: the listing, and the
    load, fail with the removal error and nothing is changed. *)
Example read_only_listing_fails :
  exists w',
    Load (codec := wire.proto3) (io := read_only) demo saved_world
    = Done (Err (RemoveOrphanError "db.tmp123"
                   (PathError "remove" ("member/snap", "db.tmp123") EROFS))) w' /\
    files w' = files saved_world.
Proof. eexists. split; vm_compute; reflexivity. Qed.

(** On a read-only disk a corrupt file cannot be renamed: [loadSnap] still
    returns the validation error and the file stays where it was. *)
Example read_only_quarantine_fails :
  exists w',
    loadSnap (codec := wire.proto3) (io := read_only) "member/snap" hello_name
      (written ("member/snap", hello_name) (flip_at 67 (file_of hello)) stray_world)
    = Done (Err ErrCRCMismatch) w' /\
    lookup ("member/snap", hello_name) (files w') = Some (flip_at 67 (file_of hello)) /\
    In (rename_failure ("member/snap", hello_name)) (log w').
Proof.
  eexists. split; [vm_compute; reflexivity|].
  split; [vm_compute; reflexivity|]. vm_compute. auto.
Qed.

(** A valid file whose snapshot has no metadata makes the predicate of
    [LoadNewestAvailable] dereference a nil pointer, although an older file
    matches the marker. *)
Example nil_metadata_panics :
  read_result (codec := wire.proto3) (io := no_faults) bare_world
    ("member/snap", "0000000000000001-0000000000000002.snap") = Ok bare /\
  read_result (codec := wire.proto3) (io := no_faults) bare_world
    ("member/snap", "0000000000000001-0000000000000001.snap") = Ok (snapshot_at 1 1 []) /\
  exists w',
    LoadNewestAvailable (codec := wire.proto3) (io := no_faults) demo
      [{| WalTerm := 1; WalIndex := 1 |}] bare_world
    = Panicked NilDereference w'.
Proof.
  split; [vm_compute; reflexivity|]. split; [vm_compute; reflexivity|].
  eexists. vm_compute. reflexivity.
Qed.

(** *** Where the claims as first stated fail *)

(** C1 as first stated fails: the payload of [zero_crc_1] has the checksum
    zero, so the file [save] writes is rejected as empty, quarantined, and
    [Load] finds no snapshot. *)
Lemma save_then_load_counterexample :
  Metadata zero_crc_1 = Some {| Term := 1; Index := 1 |} /\
  crc32.Update 0 crcTable (payload_of zero_crc_1) = 0 /\
  exists w1 w2,
    SaveSnap (codec := wire.proto3) (io := no_faults) demo zero_crc_1 empty_world
      = Done None w1 /\
    map fst (files w1) = [("member/snap", "0000000000000001-0000000000000001.snap")] /\
    Load (codec := wire.proto3) (io := no_faults) demo w1 = Done (Err ErrNoSnapshot) w2.
Proof.
  split; [reflexivity|]. split; [vm_compute; reflexivity|].
  eexists _, _. split; [vm_compute; reflexivity|].
  split; [vm_compute; reflexivity|]. vm_compute. reflexivity.
Qed.

(** C4 as first stated fails: for the same file, a bit inverted inside the
    payload region (bytes 2 to 13) yields [ErrEmptySnapshot], not
    [ErrCRCMismatch]. *)
Lemma flipped_payload_counterexample :
  exists w1 w',
    SaveSnap (codec := wire.proto3) (io := no_faults) demo zero_crc_1 empty_world
      = Done None w1 /\
    lookup ("member/snap", snapName 1 1) (files w1) = Some (file_of zero_crc_1) /\
    PayloadOffset (Codec := wire.proto3)
      {| Crc := crc32.Update 0 crcTable (payload_of zero_crc_1);
         Payload := payload_of zero_crc_1 |} = 2%nat /\
    List.length (payload_of zero_crc_1) = 12%nat /\
    loadSnap (codec := wire.proto3) (io := no_faults) "member/snap" (snapName 1 1)
      (written ("member/snap", snapName 1 1) (flip_at 16 (file_of zero_crc_1)) empty_world)
    = Done (Err ErrEmptySnapshot) w' /\
    Err (T := Snapshot) ErrEmptySnapshot <> Err ErrCRCMismatch.
Proof.
  eexists _, _. split; [vm_compute; reflexivity|].
  split; [vm_compute; reflexivity|]. split; [vm_compute; reflexivity|].
  split; [vm_compute; reflexivity|]. split; [vm_compute; reflexivity|]. discriminate.
Qed.

(** C5 as first stated fails: with [zero_crc_5] saved at index 5, [Load]
    returns the snapshot of index 3. *)
Lemma newest_first_counterexample :
  exists w1 w2 w3 w4,
    SaveSnap (codec := wire.proto3) (io := no_faults) demo (snapshot_at 1 1 []) empty_world
      = Done None w1 /\
    SaveSnap (codec := wire.proto3) (io := no_faults) demo zero_crc_5 w1 = Done None w2 /\
    SaveSnap (codec := wire.proto3) (io := no_faults) demo (snapshot_at 1 3 []) w2
      = Done None w3 /\
    Load (codec := wire.proto3) (io := no_faults) demo w3
      = Done (Ok (snapshot_at 1 3 [])) w4 /\
    snapshot_at 1 3 [] <> zero_crc_5.
Proof.
  eexists _, _, _, _. split; [vm_compute; reflexivity|].
  split; [vm_compute; reflexivity|]. split; [vm_compute; reflexivity|].
  split; [vm_compute; reflexivity|]. discriminate.
Qed.

(** C6 as first stated fails: with [zero_crc_1] saved at (1,1) and the
    markers [[(1,1)]], no snapshot is returned. *)
Lemma marker_match_counterexample :
  exists w1 w2 w3,
    SaveSnap (codec := wire.proto3) (io := no_faults) demo zero_crc_1 empty_world
      = Done None w1 /\
    SaveSnap (codec := wire.proto3) (io := no_faults) demo (snapshot_at 1 2 []) w1
      = Done None w2 /\
    LoadNewestAvailable (codec := wire.proto3) (io := no_faults) demo
      [{| WalTerm := 1; WalIndex := 1 |}] w2
    = Done (Err ErrNoSnapshot) w3.
Proof.
  eexists _, _, _. split; [vm_compute; reflexivity|].
  split; [vm_compute; reflexivity|]. vm_compute. reflexivity.
Qed.

(* ================================================================= *)
(** ** Further facts about the library functions *)

Module ParseFacts.
Import strconv fmt filepath.

Lemma digit_of_hex (d : Z) :
  0 <= d < 16 -> digit_val (Z.of_N (N_of_ascii (hex_digit d))) = Some d.
Proof.
  intros Hd.
  assert (E : d = 0 \/ d = 1 \/ d = 2 \/ d = 3 \/ d = 4 \/ d = 5 \/ d = 6 \/ d = 7 \/
              d = 8 \/ d = 9 \/ d = 10 \/ d = 11 \/ d = 12 \/ d = 13 \/ d = 14 \/ d = 15) by lia.
  repeat (destruct E as [->|E]); try subst d; reflexivity.
Qed.

Lemma hex_digit_not_sep (d : Z) : 0 <= d < 16 -> IsPathSeparator (hex_digit d) = false.
Proof.
  intros Hd.
  assert (E : d = 0 \/ d = 1 \/ d = 2 \/ d = 3 \/ d = 4 \/ d = 5 \/ d = 6 \/ d = 7 \/
              d = 8 \/ d = 9 \/ d = 10 \/ d = 11 \/ d = 12 \/ d = 13 \/ d = 14 \/ d = 15) by lia.
  repeat (destruct E as [->|E]); try subst d; reflexivity.
Qed.

(** Parsing the digits written by the formatter continues from the value
    they denote. *)
Lemma parse_hex_fill (w : nat) :
  forall u acc n,
    0 <= n -> n * 16 ^ Z.of_nat w + u mod 16 ^ Z.of_nat w < 2 ^ 64 ->
    parse_loop 16 (2 ^ 60) maxUint64 (hex_fill w u acc) n
    = parse_loop 16 (2 ^ 60) maxUint64 acc (n * 16 ^ Z.of_nat w + u mod 16 ^ Z.of_nat w).
Proof.
  induction w as [|w IH]; intros u acc n Hn Hb.
  - cbn [hex_fill]. simpl Z.of_nat. rewrite Z.pow_0_r, Z.mod_1_r. f_equal. lia.
  - cbn [hex_fill].
    assert (E : u mod 16 ^ Z.of_nat (S w) =
                16 * ((u / 16) mod 16 ^ Z.of_nat w) + u mod 16).
    { rewrite Nat2Z.inj_succ, Z.pow_succ_r by lia. rewrite Z.rem_mul_r by lia. lia. }
    assert (P : 16 ^ Z.of_nat (S w) = 16 * 16 ^ Z.of_nat w)
      by (rewrite Nat2Z.inj_succ, Z.pow_succ_r by lia; reflexivity).
    rewrite E, P in Hb. rewrite E, P.
    pose proof (Z.mod_pos_bound u 16 ltac:(lia)) as Hd.
    assert (Hp : 0 < 16 ^ Z.of_nat w) by (apply Z.pow_pos_nonneg; lia).
    pose proof (Z.mod_pos_bound (u / 16) (16 ^ Z.of_nat w) Hp) as Hq.
    set (q := (u / 16) mod 16 ^ Z.of_nat w) in *.
    set (n' := n * 16 ^ Z.of_nat w + q).
    assert (Hn' : 0 <= n') by (unfold n'; nia).
    assert (Hb' : n' * 16 + u mod 16 < 2 ^ 64) by (unfold n'; lia).
    rewrite IH; [|exact Hn|fold q; fold n'; lia].
    fold q. fold n'. cbn [parse_loop]. rewrite digit_of_hex by exact Hd.
    replace (16 <=? u mod 16) with false by (symmetry; apply Z.leb_gt; lia).
    replace (2 ^ 60 <=? n') with false by (symmetry; apply Z.leb_gt; lia).
    cbv zeta.
    rewrite (Z.mod_small (n' * 16)) by lia.
    rewrite (Z.mod_small (n' * 16 + u mod 16)) by lia.
    replace (n' * 16 + u mod 16 <? n' * 16) with false by (symmetry; apply Z.ltb_ge; lia).
    replace (maxUint64 <? n' * 16 + u mod 16) with false
      by (symmetry; apply Z.ltb_ge; unfold maxUint64; lia).
    cbn [orb]. f_equal. unfold n'. lia.
Qed.

Lemma hex_fill_nonempty (w : nat) (u : Z) : hex_fill (S w) u "" <> "".
Proof.
  cbn [hex_fill]. rewrite FmtFacts.hex_fill_acc.
  destruct (hex_fill w (u / 16) ""); discriminate.
Qed.

(** The parser reads back what the formatter wrote. *)
Lemma ParseUint_x016 (u : Z) : 0 <= u < 2 ^ 64 -> ParseUint (x016 u) 16 = inr u.
Proof.
  intros Hu. unfold ParseUint, x016.
  destruct (String.eqb_spec (hex_fill 16 u "") "") as [E|_].
  { now apply hex_fill_nonempty in E. }
  change (maxUint64 / 16 + 1) with (2 ^ 60).
  rewrite parse_hex_fill; [|lia|].
  - cbn [parse_loop]. change (16 ^ Z.of_nat 16) with (2 ^ 64).
    rewrite Z.mod_small by lia. f_equal.
  - change (16 ^ Z.of_nat 16) with (2 ^ 64). rewrite Z.mod_small by lia. lia.
Qed.

Lemma has_separator_app (a b : string) :
  has_separator (a ++ b) = has_separator a || has_separator b.
Proof. induction a as [|c a IH]; simpl; [reflexivity|]. now rewrite IH, orb_assoc. Qed.

Lemma has_separator_hex_fill (w : nat) :
  forall u acc, has_separator (hex_fill w u acc) = has_separator acc.
Proof.
  induction w as [|w IH]; intros u acc; [reflexivity|].
  cbn [hex_fill]. rewrite IH. cbn [has_separator].
  rewrite hex_digit_not_sep by (apply Z.mod_pos_bound; lia). reflexivity.
Qed.

Lemma strip_trailing_plain (s : string) : has_separator s = false -> strip_trailing s = s.
Proof.
  induction s as [|c r IH]; [reflexivity|].
  cbn [has_separator strip_trailing]. intros H. apply orb_false_iff in H.
  destruct H as [Hc Hr]. rewrite (IH Hr), Hc. destruct r; reflexivity.
Qed.

Lemma last_element_plain (s : string) : has_separator s = false -> last_element s = s.
Proof.
  destruct s as [|c r]; [reflexivity|].
  cbn [has_separator last_element]. intros H. apply orb_false_iff in H.
  destruct H as [Hc Hr]. now rewrite Hr, Hc.
Qed.

(** [Base] of a plain file name is the name. *)
Lemma Base_plain (s : string) : s <> "" -> has_separator s = false -> Base s = s.
Proof.
  intros Hn Hs. unfold Base.
  destruct (String.eqb_spec s "") as [E|_]; [contradiction|].
  rewrite (strip_trailing_plain s Hs), (last_element_plain s Hs).
  destruct (String.eqb_spec s "") as [E|_]; [contradiction|]. reflexivity.
Qed.

Lemma dbIndex_x016 (i : Z) : 0 <= i < 2 ^ 64 -> dbIndex (x016 i ++ ".snap.db") = inr i.
Proof.
  intros Hi. unfold dbIndex. rewrite Base_plain.
  - rewrite StringFacts.TrimSuffix_append. now apply ParseUint_x016.
  - unfold x016. intros E. apply (f_equal String.length) in E.
    rewrite StringFacts.length_append in E. simpl in E. lia.
  - rewrite has_separator_app. unfold x016. now rewrite has_separator_hex_fill.
Qed.

Lemma snapdb_not_snap (n : string) :
  strings.HasSuffix n ".snap.db" = true -> strings.HasSuffix n ".snap" = false.
Proof.
  intros H. apply StringFacts.HasSuffix_iff in H. destruct H as [p ->].
  destruct (strings.HasSuffix (p ++ ".snap.db") ".snap") eqn:E; auto.
  apply StringFacts.HasSuffix_iff in E. destruct E as [q E].
  change ".snap.db" with (".snap.d" ++ String "b" "")%string in E.
  change ".snap" with (".sna" ++ String "p" "")%string in E.
  rewrite <- !StringFacts.append_assoc in E. apply StringFacts.append_last_inj in E.
  destruct E as [_ E]. discriminate.
Qed.

End ParseFacts.

Module WindowFacts.
Import crc32 CrcFacts.

(** One step backwards: when two states agree from bit [k] upwards after
    a step, the table index of the step was the same and the states before
    it agree from bit [k + 8] upwards. *)
Lemma step_back (k s1 s2 : Z) (v1 v2 : byte) :
  0 <= k <= 24 -> word32 s1 -> word32 s2 ->
  Z.shiftr (step crcTable s1 v1) k = Z.shiftr (step crcTable s2 v2) k ->
  Z.lxor (Z.land s1 255) (byte_val v1) = Z.lxor (Z.land s2 255) (byte_val v2) /\
  Z.shiftr s1 (k + 8) = Z.shiftr s2 (k + 8).
Proof.
  intros Hk H1 H2 E.
  pose proof (index_range s1 v1) as R1. pose proof (index_range s2 v2) as R2.
  assert (Ei : Z.lxor (Z.land s1 255) (byte_val v1) = Z.lxor (Z.land s2 255) (byte_val v2)).
  { pose proof (f_equal (fun x => Z.shiftr x (24 - k)) E) as T. cbv beta in T.
    rewrite !Z.shiftr_shiftr in T by lia.
    replace (k + (24 - k)) with 24 in T by lia.
    rewrite !step_top in T by assumption.
    apply crcTable_top_inj in T; lia. }
  split; [exact Ei|].
  unfold step in E. rewrite Ei, !Z.shiftr_lxor in E. apply lxor_cancel_l in E.
  rewrite !Z.shiftr_shiftr in E by lia.
  now rewrite (Z.add_comm k 8).
Qed.

(** A window of bytes short enough for the register to hold: equal states
    before and after it mean equal windows. *)
Lemma window (xs : bytes) :
  forall ys s1 s2 k,
    List.length xs = List.length ys ->
    0 <= k -> k + 8 * Z.of_nat (List.length xs) <= 32 ->
    word32 s1 -> word32 s2 ->
    Z.shiftr (fold_left (step crcTable) xs s1) k
    = Z.shiftr (fold_left (step crcTable) ys s2) k ->
    Z.shiftr s1 (k + 8 * Z.of_nat (List.length xs))
    = Z.shiftr s2 (k + 8 * Z.of_nat (List.length xs)) /\
    (s1 = s2 -> xs = ys).
Proof.
  induction xs as [|x xs IH]; intros [|y ys] s1 s2 k Hl Hk Hb H1 H2 E;
    try discriminate.
  - simpl in *. rewrite Z.add_0_r. auto.
  - cbn [fold_left] in E. cbn [List.length] in Hb, Hl |- *.
    rewrite Nat2Z.inj_succ in Hb |- *.
    destruct (IH ys (step crcTable s1 x) (step crcTable s2 y) k) as [Es Ew];
      auto; try lia; try (now apply step_range).
    assert (Hk24 : 0 <= k + 8 * Z.of_nat (List.length xs) <= 24) by lia.
    destruct (step_back _ s1 s2 x y Hk24 H1 H2 Es) as [Ei Eb].
    split.
    + replace (k + 8 * Z.succ (Z.of_nat (List.length xs)))
        with (k + 8 * Z.of_nat (List.length xs) + 8) by lia. exact Eb.
    + intros ->. apply lxor_cancel_l, byte_val_inj in Ei. subst y.
      f_equal. now apply Ew.
Qed.

(** Two inputs that differ inside four consecutive bytes have different
    checksums. *)
Lemma Update_window (a c xs ys : bytes) :
  List.length xs = List.length ys -> (List.length xs <= 4)%nat ->
  Update 0 crcTable (a ++ xs ++ c) = Update 0 crcTable (a ++ ys ++ c) -> xs = ys.
Proof.
  intros Hl H4 E. unfold Update, not32 in E. apply lxor_cancel_r in E.
  rewrite !fold_left_app in E.
  set (s := fold_left (step crcTable) a (Z.lxor 0 4294967295)) in *.
  assert (Hs : word32 s) by (apply run_range; unfold word32; simpl; lia).
  apply run_inj in E; try now apply run_range.
  destruct (window xs ys s s 0 Hl ltac:(lia) ltac:(lia) Hs Hs) as [_ W];
    [now rewrite E | now apply W].
Qed.

End WindowFacts.

(* ================================================================= *)
(** ** Further facts about package [snap] *)

Module StoreFacts.

Section WithEnv.
Context {codec : Codec} {io : Faults}.

(** *** Files *)

Lemma delete_idem (p : path) (fs : list (path * bytes)) : delete p (delete p fs) = delete p fs.
Proof.
  unfold delete. induction fs as [|[q b] r IH]; [reflexivity|].
  simpl. destruct (path_eqb p q) eqn:E; simpl; [exact IH|].
  rewrite E. simpl. now rewrite IH.
Qed.

Lemma delete_absent (p : path) (fs : list (path * bytes)) :
  lookup p fs = None -> delete p fs = fs.
Proof.
  unfold delete. induction fs as [|[q b] r IH]; [reflexivity|].
  simpl. destruct (path_eqb p q); [discriminate|]. intros H. simpl. now rewrite IH.
Qed.

Lemma written_twice (p : path) (f g : bytes) (w : World) :
  written p g (written p f w) = written p g w.
Proof.
  unfold written. cbn [files log]. f_equal. f_equal.
  unfold delete at 1. cbn [filter fst]. rewrite FsFacts.path_eqb_refl. cbn [negb].
  apply delete_idem.
Qed.

Lemma snapName_inj (t1 i1 t2 i2 : Z) :
  uint64 t1 -> uint64 i1 -> uint64 t2 -> uint64 i2 ->
  snapName t1 i1 = snapName t2 i2 -> t1 = t2 /\ i1 = i2.
Proof.
  intros H1 H2 H3 H4 E.
  pose proof (NameFacts.snapName_compare t1 i1 t2 i2 H1 H2 H3 H4) as C.
  rewrite E, OrderFacts.compare_refl in C.
  destruct (t1 ?= t2) eqn:T; try discriminate.
  apply Z.compare_eq in T. symmetry in C. apply Z.compare_eq in C. auto.
Qed.

Lemma filter_all {A} (f : A -> bool) (l : list A) :
  (forall x, In x l -> f x = true) -> filter f l = l.
Proof.
  induction l as [|h r IH]; intros H; [reflexivity|].
  simpl. rewrite (H h (or_introl eq_refl)). f_equal. apply IH. intros x Hx. apply H. now right.
Qed.

Lemma filter_none {A} (f : A -> bool) (l : list A) :
  (forall x, In x l -> f x = false) -> filter f l = [].
Proof.
  induction l as [|h r IH]; intros H; [reflexivity|].
  simpl. rewrite (H h (or_introl eq_refl)). apply IH. intros x Hx. apply H. now right.
Qed.

(** *** Reading *)

(** What [readSnap] checked before it returned a snapshot. *)
Lemma read_ok_inv (w : World) (p : path) (x : Snapshot) :
  read_result w p = Ok x ->
  read_fault p = None /\
  exists b e,
    lookup p (files w) = Some b /\ b <> [] /\ UnmarshalSaved b = inr e /\
    Payload e <> [] /\ Crc e <> 0 /\
    crc32.Update 0 crcTable (Payload e) = Crc e /\
    UnmarshalSnapshot (Payload e) = inr x.
Proof.
  unfold read_result, readSnap, ReadFile. go.
  destruct (read_fault p); [discriminate|].
  destruct (lookup p (files w)) as [b|]; [|discriminate].
  destruct (List.length b =? 0)%nat eqn:Lb; [discriminate|].
  destruct (UnmarshalSaved b) as [e|e] eqn:U; [discriminate|].
  destruct (List.length (Payload e) =? 0)%nat eqn:Lp; [discriminate|].
  destruct (Crc e =? 0) eqn:Z0; [discriminate|]. cbn [orb].
  destruct (crc32.Update 0 crcTable (Payload e) =? Crc e) eqn:C; [|discriminate].
  cbn [negb]. destruct (UnmarshalSnapshot (Payload e)) as [e'|y] eqn:V; [discriminate|].
  simpl. intros [= ->]. split; [reflexivity|]. exists b, e.
  apply Nat.eqb_neq in Lb, Lp. apply Z.eqb_neq in Z0. apply Z.eqb_eq in C.
  repeat split; auto.
  - intros ->. now apply Lb.
  - intros H. rewrite H in Lp. now apply Lp.
Qed.

Lemma readSnap_ok_exact (p : path) (w : World) (x : Snapshot) :
  read_result w p = Ok x -> readSnap p w = Done (Ok x) w.
Proof.
  unfold read_result, readSnap, ReadFile. go.
  destruct (read_fault p); [discriminate|].
  destruct (lookup p (files w)) as [b|]; [|discriminate].
  destruct (List.length b =? 0)%nat; [discriminate|].
  destruct (UnmarshalSaved b) as [e|e]; [discriminate|].
  destruct ((List.length (Payload e) =? 0)%nat || (Crc e =? 0)); [discriminate|].
  destruct (negb _); [discriminate|].
  destruct (UnmarshalSnapshot _); [discriminate|]. simpl. congruence.
Qed.

(** *** Listing *)

Lemma cleanup_loop_error (s : Snapshotter) (filenames : list string) :
  forall names w nm err w',
    cleanupSnapdir_loop s filenames names w = Done (nm, Some err) w' ->
    exists n e, In n filenames /\ orphan n = true /\ remove_fault (dir s, n) = Some e /\
                err = RemoveOrphanError n (PathError "remove" (dir s, n) (errno e)).
Proof.
  induction filenames as [|f rest IH]; intros names w nm err w' E; [discriminate|].
  cbn [cleanupSnapdir_loop] in E. fold (orphan f) in E.
  assert (Next : forall names0 w0,
             cleanupSnapdir_loop s rest names0 w0 = Done (nm, Some err) w' ->
             exists n e, In n (f :: rest) /\ orphan n = true /\
                         remove_fault (dir s, n) = Some e /\
                         err = RemoveOrphanError n (PathError "remove" (dir s, n) (errno e))).
  { intros names0 w0 E0. destruct (IH _ _ _ _ _ E0) as (n & e & Hin & H).
    exists n, e. split; [now right | exact H]. }
  destruct (orphan f) eqn:Of; [|eapply Next; eauto].
  unfold bind, logf, Remove in E. cbn [files log] in E.
  destruct (remove_fault (dir s, f)) as [e0|] eqn:Rf.
  - rewrite errno_exists in E. cbn [negb] in E. injection E as _ <- _.
    exists f, e0. split; [now left|]. auto.
  - destruct (lookup (dir s, f) (files w)); cbn [IsNotExist negb] in E;
      eapply Next; eauto.
Qed.

(** [cleanupSnapdir] over a prefix of names whose orphans can be removed. *)
Lemma cleanup_loop_app (s : Snapshotter) (pre rest : list string) :
  removable (dir s) pre ->
  forall names w,
  exists w',
    cleanupSnapdir_loop s (pre ++ rest) names w
    = cleanupSnapdir_loop s rest (names ++ filter (fun n => negb (orphan n)) pre) w' /\
    swept orphan (dir s) pre (files w) (files w') /\
    (forall n, In n pre -> orphan n = true -> lookup (dir s, n) (files w') = None).
Proof.
  induction pre as [|f pre IH]; intros Hr names w.
  - exists w. simpl. rewrite app_nil_r. split; [reflexivity|].
    split; [apply swept_refl | intros n []].
  - assert (Hr' : removable (dir s) pre) by (intros n Hn; apply Hr; now right).
    cbn [app cleanupSnapdir_loop filter]. fold (orphan f).
    destruct (orphan f) eqn:Of; cbn [negb].
    + unfold bind at 1 2, logf.
      match goal with
      | |- context [Remove (dir s, f) ?w0] =>
          destruct (Remove_cases (dir s, f) w0 (Hr f (or_introl eq_refl) Of))
            as (r & w1 & St & Hres & Hf & Hgone)
      end.
      cbn [files] in Hf.
      destruct (IH Hr' names w1) as (w' & E & Sw & Gone).
      exists w'.
      assert (Sw' : swept orphan (dir s) (f :: pre) (files w) (files w')).
      { eapply swept_step; [|exact Sw]. destruct Hf as [->| ->]; auto. }
      assert (Gone' : forall n, In n (f :: pre) -> orphan n = true ->
                 lookup (dir s, n) (files w') = None).
      { intros n [<-|Hn] Ho; [|now apply Gone].
        destruct (Sw (dir s, f)) as [Q|[Q _]]; [|exact Q].
        now rewrite Q. }
      rewrite St. destruct Hres as [->|[e [-> Hn]]]; [|rewrite Hn; cbn [negb]];
        rewrite E; auto.
    + destruct (IH Hr' (names ++ [f]) w) as (w' & E & Sw & Gone).
      exists w'. rewrite E, <- app_assoc. split; [reflexivity|]. split.
      * eapply swept_step; [|exact Sw]. now left.
      * intros n [<-|Hn] Ho; [congruence | now apply Gone].
Qed.

Lemma cleanup_loop_clean (s : Snapshotter) (filenames : list string) :
  (forall k, In k filenames -> orphan k = false) ->
  forall names w,
    cleanupSnapdir_loop s filenames names w = Done (names ++ filenames, None) w.
Proof.
  induction filenames as [|f rest IH]; intros H names w.
  - simpl. now rewrite app_nil_r.
  - cbn [cleanupSnapdir_loop]. fold (orphan f). rewrite (H f (or_introl eq_refl)).
    rewrite IH by (intros k Hk; apply H; now right).
    now rewrite <- app_assoc.
Qed.

Lemma checkSuffix_loop_log (filenames : list string) :
  forall snaps w,
    checkSuffix_loop filenames snaps w
    = Done (snaps ++ filter is_snap filenames)
           {| files := files w;
              log := rev (map unexpected_file (filter unexpected filenames)) ++ log w |}.
Proof.
  induction filenames as [|f rest IH]; intros snaps w.
  - simpl. rewrite app_nil_r. destruct w; reflexivity.
  - cbn [checkSuffix_loop filter]. unfold unexpected at 1. fold (is_snap f).
    destruct (is_snap f); cbn [negb andb].
    + rewrite IH, <- app_assoc. reflexivity.
    + unfold bind. destruct (validFiles_has f); cbn [negb].
      * unfold ret. rewrite IH. reflexivity.
      * unfold logf. rewrite IH. cbn [files log map rev].
        rewrite <- app_assoc. reflexivity.
Qed.

(** Listing a directory without orphans changes no file. *)
Lemma snapnames_clean (s : Snapshotter) (w : World) :
  open_fault (dir s) = None -> readdir_fault (dir s) = None ->
  (forall k, In k (listing (dir s) w) -> orphan k = false) ->
  exists w',
    snapnames s w
    = Done (match unsorted (dir s) w with
            | [] => Err ErrNoSnapshot
            | _ :: _ => Ok (candidates (dir s) w)
            end) w' /\
    files w' = files w.
Proof.
  intros Ho Hr Hno. unfold snapnames, bind, Open, Readdirnames. rewrite Ho, Hr.
  fold (listing (dir s) w). unfold cleanupSnapdir.
  rewrite cleanup_loop_clean by exact Hno. cbn [snd fst app]. unfold checkSuffix.
  destruct (checkSuffix_loop_spec (listing (dir s) w) [] w) as (w2 & E2 & F2).
  rewrite E2. cbn [app]. exists w2. split; [|exact F2].
  assert (Ef : filter (fun k => negb (orphan k)) (listing (dir s) w) = listing (dir s) w).
  { apply filter_all. intros k Hk. now rewrite (Hno k Hk). }
  unfold candidates, unsorted. rewrite Ef.
  destruct (filter is_snap (listing (dir s) w)); reflexivity.
Qed.

Lemma candidates_sorted (d : string) (w : World) : StronglySorted ge_str (candidates d w).
Proof. apply OrderFacts.SortReverseStrings_sorted. Qed.

Lemma swept_candidate (d : string) (l : list string) (fs fs' : list (path * bytes))
  (n : string) :
  swept orphan d l fs fs' -> orphan n = false -> lookup (d, n) fs' = lookup (d, n) fs.
Proof.
  intros Sw O. destruct (Sw (d, n)) as [E|[_ (m & _ & Om & [=H])]]; auto. congruence.
Qed.

(** *** The scan *)

Lemma candidate_not_broken (n h : string) : candidate_name n = true -> n <> brokenName h.
Proof.
  intros C ->. unfold candidate_name, is_snap, brokenName in C.
  rewrite StringFacts.broken_not_snap in C. discriminate.
Qed.

Lemma brokenName_inj (n h : string) : brokenName n = brokenName h -> n = h.
Proof. unfold brokenName. apply StringFacts.append_inj_r. Qed.

Lemma quarantined_kept (d n h : string) (before : option bytes) (fs : list (path * bytes)) :
  candidate_name n = true -> candidate_name h = true ->
  kept d n before fs -> kept d n before (quarantined d h fs).
Proof.
  intros Cn Ch K. destruct (String.eqb_spec h n) as [->|N].
  - unfold quarantined. destruct (rename_fault (d, n)); [exact K|].
    destruct (lookup (d, n) fs) as [b'|] eqn:L; [|exact K].
    assert (Nb : (d, n) <> (d, brokenName n)).
    { intros [=H]. symmetry in H. now apply StringFacts.broken_neq in H. }
    destruct before as [b|]; cbn [kept] in *.
    + destruct K as [K|[K _]]; [|congruence]. right.
      rewrite FsFacts.lookup_cons_other, FsFacts.lookup_delete_other by auto.
      rewrite FsFacts.lookup_delete_same, FsFacts.lookup_cons_same.
      split; congruence.
    + congruence.
  - assert (Q1 : lookup (d, n) (quarantined d h fs) = lookup (d, n) fs).
    { apply quarantined_other; intros [=H]; [congruence|].
      now apply (candidate_not_broken n h). }
    assert (Q2 : lookup (d, brokenName n) (quarantined d h fs)
                 = lookup (d, brokenName n) fs).
    { apply quarantined_other; intros [=H].
      - symmetry in H. now apply (candidate_not_broken h n).
      - apply brokenName_inj in H. congruence. }
    destruct before; cbn [kept] in *; now rewrite Q1, ?Q2.
Qed.

Lemma loop_kept (s : Snapshotter) (matchFn : Snapshot -> Go bool) (n : string)
  (before : option bytes) :
  observer matchFn -> candidate_name n = true ->
  forall names cur,
    Forall (fun k => candidate_name k = true) names ->
    kept (dir s) n before (files cur) ->
    kept (dir s) n before (files (world_of (loadMatched_loop s matchFn names cur))).
Proof.
  intros Hobs Cn. induction names as [|h names IH]; intros cur Hs K; [exact K|].
  inversion Hs as [|? ? Ch Hs']; subst.
  cbn [loadMatched_loop]. unfold bind.
  destruct (read_result cur (dir s, h)) as [x|e] eqn:R.
  - destruct (loadSnap_ok _ _ _ _ R) as (w' & E & F). rewrite E.
    pose proof (Hobs x w') as O.
    destruct (matchFn x w') as [b w''|v w'']; simpl in O; subst w''.
    + destruct b; simpl; [now rewrite F|]. apply IH; auto. now rewrite F.
    + simpl. now rewrite F.
  - destruct (loadSnap_err _ _ _ _ R) as (w' & E & F). rewrite E.
    apply IH; auto. rewrite F. now apply quarantined_kept.
Qed.

Lemma loadMatched_kept (s : Snapshotter) (matchFn : Snapshot -> Go bool) (w : World)
  (n : string) :
  observer matchFn -> candidate_name n = true ->
  kept (dir s) n (lookup (dir s, n) (files w)) (files (world_of (loadMatched s matchFn w))).
Proof.
  intros Hobs Cn.
  assert (On : orphan n = false).
  { unfold candidate_name in Cn. apply andb_true_iff in Cn. destruct Cn as [_ H].
    now apply negb_true_iff in H. }
  unfold loadMatched, bind.
  destruct (snapnames_any s w) as (r & w1 & E & Sw & Hn). rewrite E.
  assert (K1 : kept (dir s) n (lookup (dir s, n) (files w)) (files w1)).
  { pose proof (swept_candidate _ _ _ _ n Sw On) as Q.
    destruct (lookup (dir s, n) (files w)); simpl; auto. }
  destruct r as [names|e]; [|exact K1].
  rewrite (Hn names eq_refl). apply loop_kept; auto. apply candidates_names.
Qed.

Lemma kept_present (d n : string) (before : option bytes) (fs : list (path * bytes)) :
  kept d n before fs -> lookup (d, n) fs <> None -> lookup (d, n) fs = before.
Proof.
  destruct before as [b|]; cbn [kept]; [|congruence].
  intros [K|[K _]]; congruence.
Qed.

Lemma agrees_back (d : string) (w cur : World) (n : string) (x : Snapshot) :
  agrees d w cur -> candidate_name n = true ->
  read_result cur (d, n) = Ok x -> read_result w (d, n) = Ok x.
Proof.
  intros A C R. destruct (read_result w (d, n)) as [y|e] eqn:Rw.
  - rewrite (agrees_valid _ _ _ _ _ A C Rw) in R. exact R.
  - destruct (proj2 (A n C) e Rw) as [e' R']. congruence.
Qed.

(** A snapshot the scan returns was read from one of the names, as the
    directory was before the load, and the predicate answered [true]. *)
Lemma loop_sound (s : Snapshotter) (matchFn : Snapshot -> Go bool) (w : World) :
  observer matchFn ->
  forall names cur x w',
    Forall (fun k => candidate_name k = true) names ->
    agrees (dir s) w cur ->
    loadMatched_loop s matchFn names cur = Done (Ok x) w' ->
    exists n w0, In n names /\ read_result w (dir s, n) = Ok x /\
                 matchFn x w0 = Done true w0.
Proof.
  intros Hobs. induction names as [|h names IH]; intros cur x w' Hs A E;
    [discriminate|].
  inversion Hs as [|? ? Ch Hs']; subst.
  cbn [loadMatched_loop] in E. unfold bind in E.
  destruct (read_result cur (dir s, h)) as [y|e] eqn:R.
  - destruct (loadSnap_ok _ _ _ _ R) as (w1 & E1 & F). rewrite E1 in E.
    pose proof (Hobs y w1) as O.
    destruct (matchFn y w1) as [b w2|v w2] eqn:M; simpl in O; subst w2; [|discriminate].
    destruct b.
    + injection E as <- <-. exists h, w1. split; [now left|].
      split; [eapply agrees_back; eauto | exact M].
    + destruct (IH w1 x w' Hs' (agrees_same_files _ _ _ _ F A) E) as (n & w0 & Hin & H).
      exists n, w0. split; [now right | exact H].
  - destruct (loadSnap_err _ _ _ _ R) as (w1 & E1 & F). rewrite E1 in E.
    destruct (IH w1 x w' Hs' (agrees_quarantine _ _ _ _ _ _ A Ch R F) E)
      as (n & w0 & Hin & H).
    exists n, w0. split; [now right | exact H].
Qed.

(** The scan itself fails in one way only. *)
Lemma loop_error (s : Snapshotter) (matchFn : Snapshot -> Go bool) :
  forall names cur err w',
    loadMatched_loop s matchFn names cur = Done (Err err) w' -> err = ErrNoSnapshot.
Proof.
  induction names as [|h names IH]; intros cur err w' E.
  - injection E as <- _. reflexivity.
  - cbn [loadMatched_loop] in E. unfold bind in E.
    destruct (loadSnap (dir s) h cur) as [[y|e] w1|v w1]; [| |discriminate].
    + destruct (matchFn y w1) as [[|] w2|v w2]; [discriminate| |discriminate].
      eapply IH; eauto.
    + eapply IH; eauto.
Qed.

Lemma loop_ext (s : Snapshotter) (f g : Snapshot -> Go bool) :
  (forall x w, f x w = g x w) ->
  forall names cur, loadMatched_loop s f names cur = loadMatched_loop s g names cur.
Proof.
  intros H. induction names as [|h names IH]; intros cur; [reflexivity|].
  cbn [loadMatched_loop]. unfold bind.
  destruct (loadSnap (dir s) h cur) as [[y|e] w1|v w1]; auto.
  rewrite H. destruct (g y w1) as [[|] w2|v w2]; auto.
Qed.

Lemma loadMatched_ext (s : Snapshotter) (f g : Snapshot -> Go bool) (w : World) :
  (forall x w0, f x w0 = g x w0) -> loadMatched s f w = loadMatched s g w.
Proof.
  intros H. unfold loadMatched, bind.
  destruct (snapnames s w) as [[names|e] w1|v w1]; auto. now apply loop_ext.
Qed.

Lemma loop_rejecting (s : Snapshotter) :
  forall names cur, exists w',
    loadMatched_loop s (fun _ => ret false) names cur = Done (Err ErrNoSnapshot) w'.
Proof.
  induction names as [|h names IH]; intros cur; [eexists; reflexivity|].
  cbn [loadMatched_loop]. unfold bind.
  destruct (read_result cur (dir s, h)) as [x|e] eqn:R.
  - destruct (loadSnap_ok _ _ _ _ R) as (w' & E & _). rewrite E. unfold ret at 1. apply IH.
  - destruct (loadSnap_err _ _ _ _ R) as (w' & E & _). rewrite E. apply IH.
Qed.

(** The scan passes over a prefix of candidates the predicate turns down. *)
Lemma loop_skips (s : Snapshotter) (matchFn : Snapshot -> Go bool) (w : World) :
  forall pre rest cur,
    Forall (fun n => candidate_name n = true) pre ->
    agrees (dir s) w cur ->
    (forall k y, In k pre -> read_result w (dir s, k) = Ok y ->
                 forall w0, matchFn y w0 = Done false w0) ->
    exists cur1,
      loadMatched_loop s matchFn (pre ++ rest) cur = loadMatched_loop s matchFn rest cur1 /\
      agrees (dir s) w cur1.
Proof.
  induction pre as [|h pre IH]; intros rest cur Hc A Hrej.
  - exists cur. auto.
  - inversion Hc as [|? ? Ch Hc']; subst.
    assert (Hrej' : forall k y, In k pre -> read_result w (dir s, k) = Ok y ->
                                forall w0, matchFn y w0 = Done false w0)
      by (intros; eapply Hrej; eauto; now right).
    cbn [app loadMatched_loop]. unfold bind at 1.
    destruct (read_result w (dir s, h)) as [x|e] eqn:Rw.
    + pose proof (agrees_valid _ _ _ _ _ A Ch Rw) as R.
      destruct (loadSnap_ok _ _ _ _ R) as (w' & E & F). rewrite E.
      unfold bind. rewrite (Hrej h x (or_introl eq_refl) Rw).
      apply IH; auto. eapply agrees_same_files; eauto.
    + destruct (proj2 (A h Ch) e Rw) as [e' R].
      destruct (loadSnap_err _ _ _ _ R) as (w' & E & F). rewrite E.
      apply IH; auto. eapply agrees_quarantine; eauto.
Qed.

(** What a second load finds is what the first one left: fewer candidates,
    each reading as before. *)
Lemma after_load (s : Snapshotter) (matchFn : Snapshot -> Go bool) (w : World) :
  observer matchFn ->
  let w1 := world_of (loadMatched s matchFn w) in
  (forall n, In n (candidates (dir s) w1) ->
             In n (candidates (dir s) w) /\
             lookup (dir s, n) (files w1) = lookup (dir s, n) (files w)) /\
  (forall n x, In n (candidates (dir s) w) -> read_result w (dir s, n) = Ok x ->
               In n (candidates (dir s) w1)).
Proof.
  intros Hobs w1. split.
  - intros n Hn. apply candidates_In in Hn. destruct Hn as [L C].
    pose proof (kept_present _ _ _ _ (loadMatched_kept s matchFn w n Hobs C) L) as E.
    fold w1 in E. split; [|exact E].
    apply candidates_In. split; [congruence | exact C].
  - intros n x Hn R. apply candidates_In in Hn. destruct Hn as [L C].
    apply candidates_In. split; [|exact C].
    pose proof (loadMatched_agrees s matchFn w Hobs) as A. fold w1 in A.
    now rewrite (proj1 (A n C) x R).
Qed.

(** *** The result of a scan *)

Lemma find_none_all {A} (f : A -> bool) (l : list A) :
  (forall x, In x l -> f x = false) -> find f l = None.
Proof.
  induction l as [|h r IH]; intros H; [reflexivity|].
  simpl. rewrite (H h (or_introl eq_refl)). apply IH. intros x Hx. apply H. now right.
Qed.

(** In a descending list the first hit is the greatest one. *)
Lemma find_sorted_first (f : string -> bool) (l : list string) (n : string) :
  StronglySorted ge_str l -> find f l = Some n ->
  forall m, In m l -> strings.lt n m = true -> f m = false.
Proof.
  intros Hs. induction Hs as [|h rest Hs IH Hall]; intros F m Hm L; [destruct Hm|].
  rewrite Forall_forall in Hall. cbn [find] in F.
  destruct (f h) eqn:Fh.
  - injection F as <-. destruct Hm as [<-|Hm].
    + rewrite OrderFacts.lt_irrefl in L. discriminate.
    + pose proof (Hall m Hm) as G. unfold ge_str in G. congruence.
  - destruct Hm as [<-|Hm]; [exact Fh|]. now apply IH.
Qed.

(** The scan of a sorted list depends on the names it holds and on what
    each of them reads as, not on the list. *)
Lemma scan_sub (w1 w2 : World) (d : string) (p : Snapshot -> bool) (l1 l2 : list string) :
  StronglySorted ge_str l1 -> StronglySorted ge_str l2 ->
  (forall n, In n l2 -> In n l1) ->
  (forall n, In n l1 -> accepts w1 d p n = true ->
             In n l2 /\ read_result w2 (d, n) = read_result w1 (d, n)) ->
  (forall n, In n l2 -> accepts w1 d p n = false -> accepts w2 d p n = false) ->
  scan w2 d p l2 = scan w1 d p l1.
Proof.
  intros S1 S2 Sub Hacc Hrej. unfold scan at 2.
  destruct (find (accepts w1 d p) l1) as [n|] eqn:F.
  - destruct (find_some _ _ F) as [Hin Ha].
    destruct (Hacc n Hin Ha) as [Hin2 R].
    pose proof Ha as Ha'. unfold accepts in Ha'.
    destruct (read_result w1 (d, n)) as [x|e] eqn:R1; [|discriminate].
    apply scan_newest with (n := n); auto.
    intros m Hm L. apply Hrej; auto.
    exact (find_sorted_first _ _ _ S1 F m (Sub m Hm) L).
  - unfold scan. rewrite find_none_all; [reflexivity|].
    intros m Hm. apply Hrej; auto. exact (find_none _ _ F m (Sub m Hm)).
Qed.

(** The scan of the directory a load left gives what the scan of the
    directory before it gave. *)
Lemma repeated_scan (s : Snapshotter) (p : Snapshot -> bool) (w : World) :
  let w1 := world_of (loadMatched s (fun x => ret (p x)) w) in
  scan w1 (dir s) p (candidates (dir s) w1) = scan w (dir s) p (candidates (dir s) w).
Proof.
  intros w1.
  assert (Hobs : observer (fun x => ret (p x))) by (intros x w0; reflexivity).
  destruct (after_load s (fun x => ret (p x)) w Hobs) as [Sub Stay].
  pose proof (loadMatched_agrees s (fun x => ret (p x)) w Hobs) as A.
  fold w1 in Sub, Stay, A.
  apply scan_sub; try apply candidates_sorted.
  - intros n Hn. apply (Sub n Hn).
  - intros n Hn Ha. unfold accepts in Ha.
    destruct (read_result w (dir s, n)) as [x|e] eqn:R; [|discriminate].
    split; [exact (Stay n x Hn R)|].
    pose proof (candidates_names (dir s) w) as Hc. rewrite Forall_forall in Hc.
    exact (agrees_valid _ _ _ _ _ A (Hc n Hn) R).
  - intros n Hn Ha.
    pose proof (candidates_names (dir s) w1) as Hc. rewrite Forall_forall in Hc.
    unfold accepts in *.
    destruct (read_result w (dir s, n)) as [x|e] eqn:R.
    + now rewrite (agrees_valid _ _ _ _ _ A (Hc n Hn) R).
    + destruct (proj2 (A n (Hc n Hn)) e R) as [e' R']. now rewrite R'.
Qed.

(** A scan that meets only valid files before the one it returns changes
    no file. *)
Lemma loop_quiet (s : Snapshotter) (p : Snapshot -> bool) :
  forall names cur,
    StronglySorted ge_str names ->
    (forall h, In h names ->
       (exists x, read_result cur (dir s, h) = Ok x) \/
       (exists m, In m names /\ strings.lt h m = true /\ accepts cur (dir s) p m = true)) ->
    files (world_of (loadMatched_loop s (fun x => ret (p x)) names cur)) = files cur.
Proof.
  induction names as [|h rest IH]; intros cur Hs H; [reflexivity|].
  inversion Hs as [|? ? Hs' Hall]; subst. rewrite Forall_forall in Hall.
  cbn [loadMatched_loop]. unfold bind.
  destruct (H h (or_introl eq_refl)) as [[x R]|(m & [<-|Hm] & L & _)].
  - destruct (loadSnap_ok _ _ _ _ R) as (w' & E & F). rewrite E. unfold ret at 1.
    destruct (p x) eqn:P; [exact F|].
    rewrite IH; [exact F | exact Hs' |].
    assert (Rd : forall k, read_result w' (dir s, k) = read_result cur (dir s, k))
      by (intros k; apply read_result_ext; now rewrite F).
    intros k Hk. destruct (H k (or_intror Hk)) as [[y Ry]|(m & [<-|Hm] & L & A)].
    + left. exists y. now rewrite Rd.
    + unfold accepts in A. rewrite R, P in A. discriminate.
    + right. exists m. unfold accepts in *. rewrite Rd. auto.
  - rewrite OrderFacts.lt_irrefl in L. discriminate.
  - pose proof (Hall m Hm) as G. unfold ge_str in G. congruence.
Qed.

(** A failing candidate that no accepted one precedes is gone after the
    load. *)
Lemma failing_candidate_gone (s : Snapshotter) (p : Snapshot -> bool) (w : World)
  (h : string) (e : error) :
  open_fault (dir s) = None -> readdir_fault (dir s) = None ->
  removable (dir s) (listing (dir s) w) ->
  NoDup (candidates (dir s) w) ->
  rename_fault (dir s, h) = None ->
  In h (candidates (dir s) w) -> read_result w (dir s, h) = Err e ->
  (forall m, In m (candidates (dir s) w) -> strings.lt h m = true ->
             accepts w (dir s) p m = false) ->
  lookup (dir s, h) (files (world_of (loadMatched s (fun x => ret (p x)) w))) = None.
Proof.
  intros Ho Hr Hrm Hnd Hrn Hin R Hgt.
  destruct (in_split _ _ Hin) as (pre & post & Hc).
  pose proof (proj1 (candidates_In _ _ _) Hin) as [L _].
  destruct (lookup (dir s, h) (files w)) as [b|] eqn:Lb; [|congruence].
  pose proof (candidates_sorted (dir s) w) as Hs. rewrite Hc in Hs.
  apply (loadMatched_quarantines s p w pre post h e b Ho Hr Hrm Hc Hnd); auto.
  intros m Hm. apply Hgt; [rewrite Hc; apply in_or_app; now left|].
  assert (G : ge_str m h).
  { clear - Hs Hm. induction pre as [|a pre IH]; [destruct Hm|].
    simpl in Hs. inversion Hs as [|? ? Hs' Hall]; subst.
    destruct Hm as [<-|Hm]; [|now apply IH].
    rewrite Forall_forall in Hall. apply Hall. apply in_or_app. right. now left. }
  destruct (strings.lt h m) eqn:Lt; [reflexivity|].
  assert (m = h) by (apply OrderFacts.lt_total; assumption). subst m.
  rewrite Hc in Hnd. apply NoDup_remove_2 in Hnd. elim Hnd. apply in_or_app. now left.
Qed.

(** After a load the directory lists no orphan. *)
Lemma no_orphan_left (s : Snapshotter) (matchFn : Snapshot -> Go bool) (w : World) :
  observer matchFn ->
  open_fault (dir s) = None -> readdir_fault (dir s) = None ->
  removable (dir s) (listing (dir s) w) ->
  forall k, In k (listing (dir s) (world_of (loadMatched s matchFn w))) -> orphan k = false.
Proof.
  intros Hobs Ho Hr Hrm k Hk. destruct (orphan k) eqn:Ok; [|reflexivity]. exfalso.
  apply listing_In in Hk. apply Hk. unfold loadMatched, bind.
  destruct (snapnames_ok s w Ho Hr Hrm) as (w1 & E & Sw & Gone). rewrite E.
  assert (G1 : lookup (dir s, k) (files w1) = None).
  { destruct (Sw (dir s, k)) as [Q|[Q _]]; [|exact Q].
    destruct (lookup (dir s, k) (files w)) eqn:L; [|congruence].
    apply Gone; [|exact Ok]. apply listing_In. congruence. }
  destruct (unsorted (dir s) w); [exact G1|].
  rewrite loop_footprint; [exact G1 | exact Hobs |].
  intros n Hn. pose proof (candidates_names (dir s) w) as Hc.
  rewrite Forall_forall in Hc. pose proof (Hc n Hn) as Cn.
  unfold candidate_name in Cn. apply andb_true_iff in Cn. destruct Cn as [Sn On].
  apply negb_true_iff in On. split; intros [=H].
  - congruence.
  - subst k. unfold orphan, brokenName in Ok.
    apply StringFacts.broken_not_orphan in Ok; [|exact Sn].
    unfold orphan in On. congruence.
Qed.

(** *** Markers *)

Lemma existsb_same {A} (f : A -> bool) (l1 l2 : list A) :
  (forall x, In x l1 <-> In x l2) -> existsb f l1 = existsb f l2.
Proof.
  intros H. apply Bool.eq_iff_eq_true. rewrite !existsb_exists.
  split; intros (x & Hx & Fx); exists x; split; auto; now apply H.
Qed.

Lemma matchWal_none (l : list WalSnapshot) (w : World) :
  matchWal None l w = match l with [] => Done false w | _ :: _ => Panicked NilDereference w end.
Proof. destruct l; reflexivity. Qed.

Lemma matchWal_ext (m : option SnapshotMetadata) (l1 l2 : list WalSnapshot) (w : World) :
  (forall ws, In ws l1 <-> In ws l2) -> matchWal m l1 w = matchWal m l2 w.
Proof.
  intros H. destruct m as [md|].
  - rewrite !matchWal_some. f_equal. now apply existsb_same.
  - rewrite !matchWal_none.
    destruct l1 as [|a l1], l2 as [|b l2]; auto.
    + destruct (proj2 (H b) (or_introl eq_refl)).
    + destruct (proj1 (H a) (or_introl eq_refl)).
Qed.

Lemma matchWal_observer (walSnaps : list WalSnapshot) :
  observer (fun x => matchWal (Metadata x) walSnaps).
Proof.
  intros y w0. induction walSnaps as [|ws l IH]; simpl; auto.
  destruct (Metadata y) as [md|]; simpl; auto.
  destruct ((Term md =? WalTerm ws) && (Index md =? WalIndex ws)); simpl; auto.
Qed.

(** *** Releasing *)

Lemma Release_loop_nil (s : Snapshotter) (snap : Snapshot) :
  Metadata snap = None ->
  forall filenames w,
  exists w',
    files w' = files w /\
    ReleaseSnapDBs_loop s snap filenames w
    = if existsb parseable filenames then Panicked NilDereference w' else Done None w'.
Proof.
  intros Hm. induction filenames as [|f rest IH]; intros w.
  - exists w. auto.
  - cbn [ReleaseSnapDBs_loop existsb]. unfold parseable at 1. fold (dbIndex f).
    destruct (strings.HasSuffix f ".snap.db"); cbn [andb orb]; [|apply IH].
    destruct (dbIndex f) as [err|index]; cbn [orb].
    + unfold bind, logf.
      match goal with
      | |- context [ReleaseSnapDBs_loop s snap rest ?w0] =>
          destruct (IH w0) as (w' & F & E)
      end.
      exists w'. rewrite E. auto.
    + rewrite Hm. exists w. auto.
Qed.

Lemma Release_loop_settled (s : Snapshotter) (snap : Snapshot) (m : SnapshotMetadata) :
  Metadata snap = Some m ->
  forall filenames w,
    (forall n, In n filenames -> released (dir s) (Index m) n = true ->
               lookup (dir s, n) (files w) = None) ->
    exists w', ReleaseSnapDBs_loop s snap filenames w = Done None w' /\ files w' = files w.
Proof.
  intros Hm. induction filenames as [|f rest IH]; intros w Hs.
  - exists w. auto.
  - destruct (Release_step s snap m f rest w Hm) as (w1 & E & Hf & _).
    assert (F : files w1 = files w).
    { destruct Hf as [F|[Hrel F]]; [exact F|].
      rewrite F. apply delete_absent. apply Hs; [now left | exact Hrel]. }
    destruct (IH w1) as (w' & E' & F').
    { intros n Hn Hrel. rewrite F. apply Hs; [now right | exact Hrel]. }
    exists w'. rewrite E, E'. split; [reflexivity | congruence].
Qed.

End WithEnv.
End StoreFacts.

(* ================================================================= *)
(** ** Further properties of the snapshot store *)

Import StoreFacts.

(** *** Saving *)

Section WithEnv.
Context {codec : Codec} {io : Faults}.

(** X1.  When the write of the snapshot file fails, [SaveSnap] logs the
    failure, removes whatever is at the path and returns the error of the
    write, never that of the removal: if the removal meets no fault no file
    is left under the snapshot's name (an older file of that name is gone
    too); if it fails, a second warning is logged and the directory is as
    the failed write left it.  No other path changes. *)
Theorem failed_save_leaves_no_file (s : Snapshotter) (snapshot : Snapshot)
  (m : SnapshotMetadata) (b f : bytes) (err : error) (w w0 : World) :
  Metadata snapshot = Some m -> Index m <> 0 ->
  encodes snapshot b f ->
  let p := (dir s, snapName (Term m) (Index m)) in
  pioutil.WriteAndSyncFile p f 438 w = Done (Some err) w0 ->
  exists w',
    SaveSnap s snapshot w = Done (Some err) w' /\
    In (write_failure p) (log w') /\
    (remove_fault p = None -> lookup p (files w') = None) /\
    (forall x, remove_fault p = Some x ->
               files w' = files w0 /\ In (cleanup_failure p) (log w')) /\
    (forall q, q <> p -> lookup q (files w') = lookup q (files w0)).
Proof.
  intros Hm Hi [Hb Hf] p Hw. unfold SaveSnap, save. rewrite Hm.
  apply Z.eqb_neq in Hi. rewrite Hi, Hb, Hf. fold p.
  unfold bind at 1. rewrite Hw.
  unfold bind, logf, Remove. cbn [files log].
  destruct (remove_fault p) as [x|] eqn:Rf.
  - unfold ret. eexists. split; [reflexivity|]. cbn [files log].
    split; [right; now left|]. split; [discriminate|].
    split; [intros y _; split; [reflexivity|now left]|]. reflexivity.
  - destruct (lookup p (files w0)) eqn:L; unfold ret;
      (eexists; split; [reflexivity|]); cbn [files log].
    + split; [now left|]. split; [intros _; apply FsFacts.lookup_delete_same|].
      split; [discriminate|]. intros q N. now apply FsFacts.lookup_delete_other.
    + split; [right; now left|]. split; [auto|]. split; [discriminate|]. reflexivity.
Qed.

(** X2.  Whatever [SaveSnap] does (return, fail or panic), every path other
    than the one named after the snapshot's term and index holds what it
    held before. *)
Theorem SaveSnap_touches_one_file (s : Snapshotter) (snapshot : Snapshot) (w : World)
  (q : path) :
  (forall m, Metadata snapshot = Some m -> q <> (dir s, snapName (Term m) (Index m))) ->
  lookup q (files (world_of (SaveSnap s snapshot w))) = lookup q (files w).
Proof.
  intros Hq. unfold SaveSnap, save.
  destruct (Metadata snapshot) as [m|]; [|reflexivity].
  specialize (Hq m eq_refl).
  destruct (Index m =? 0); [reflexivity|].
  destruct (MarshalSnapshot snapshot) as [e|b]; [reflexivity|].
  destruct (MarshalSaved _) as [e|f]; [reflexivity|].
  unfold bind, pioutil.WriteAndSyncFile, logf, Remove. cbn [files log].
  destruct (write_fault _).
  - destruct (remove_fault _); [reflexivity|].
    destruct (lookup _ (files w)); cbn [world_of files]; [|reflexivity].
    now apply FsFacts.lookup_delete_other.
  - cbn [world_of ret files].
    rewrite FsFacts.lookup_cons_other, FsFacts.lookup_delete_other; auto.
Qed.

(** X3.  Saving a snapshot over one with the same term and index replaces
    it: the directory and the log are exactly what saving the second one
    alone gives, so saving the same snapshot twice is the same as saving it
    once. *)
Theorem SaveSnap_last_write_wins (s : Snapshotter) (x y : Snapshot)
  (m m' : SnapshotMetadata) (bx fx bY fy : bytes) (w : World) :
  Metadata x = Some m -> Metadata y = Some m' ->
  Term m' = Term m -> Index m' = Index m -> Index m <> 0 ->
  encodes x bx fx -> encodes y bY fy ->
  let p := (dir s, snapName (Term m) (Index m)) in
  write_fault p = None ->
  exists w1,
    SaveSnap s x w = Done None w1 /\
    SaveSnap s y w1 = Done None (written p fy w) /\
    SaveSnap s y w = Done None (written p fy w) /\
    lookup p (files (written p fy w)) = Some fy.
Proof.
  intros Hx Hy Ht Hi Hnz [Bx Fx] [By Fy] p Hw.
  exists (written p fx w). split; [|split; [|split]].
  - apply (SaveSnap_ok s x m bx fx w); auto.
  - rewrite <- (written_twice p fx fy w).
    pose proof (SaveSnap_ok s y m' bY fy (written p fx w) Hy) as E.
    rewrite Ht, Hi in E. apply E; auto.
  - pose proof (SaveSnap_ok s y m' bY fy w Hy) as E.
    rewrite Ht, Hi in E. apply E; auto.
  - apply lookup_written_same.
Qed.

(** X4.  On 64-bit terms and indices the file name determines the pair;
    hence two snapshots that differ in term or index are stored in two
    files, and after saving both each file holds its snapshot. *)
Theorem snapshots_get_distinct_files (s : Snapshotter) (x y : Snapshot)
  (mx my : SnapshotMetadata) (bx fx bY fy : bytes) (w : World) :
  (forall t1 i1 t2 i2, uint64 t1 -> uint64 i1 -> uint64 t2 -> uint64 i2 ->
     snapName t1 i1 = snapName t2 i2 -> t1 = t2 /\ i1 = i2) /\
  (Metadata x = Some mx -> Metadata y = Some my ->
   uint64 (Term mx) -> uint64 (Index mx) -> uint64 (Term my) -> uint64 (Index my) ->
   Index mx <> 0 -> Index my <> 0 ->
   Term mx <> Term my \/ Index mx <> Index my ->
   encodes x bx fx -> encodes y bY fy ->
   write_fault (dir s, snapName (Term mx) (Index mx)) = None ->
   write_fault (dir s, snapName (Term my) (Index my)) = None ->
   exists w1 w2,
     SaveSnap s x w = Done None w1 /\ SaveSnap s y w1 = Done None w2 /\
     lookup (dir s, snapName (Term mx) (Index mx)) (files w2) = Some fx /\
     lookup (dir s, snapName (Term my) (Index my)) (files w2) = Some fy).
Proof.
  split; [exact snapName_inj|].
  intros Hx Hy U1 U2 U3 U4 Nx Ny D [Bx Fx] [By Fy] Wx Wy.
  eexists _, _. split; [apply (SaveSnap_ok s x mx bx fx w); auto|].
  split; [apply (SaveSnap_ok s y my bY fy); auto|]. split.
  - rewrite lookup_written_other; [apply lookup_written_same|].
    intros E. assert (E' : snapName (Term mx) (Index mx) = snapName (Term my) (Index my))
      by congruence.
    apply snapName_inj in E'; auto. destruct E'. destruct D; congruence.
  - apply lookup_written_same.
Qed.

(** *** Loading *)

(** X5.  The only errors [loadMatched] returns are [ErrNoSnapshot], the
    error of opening or of listing the directory (the world is then
    untouched), and the error of removing an orphaned [db.tmp] file.  What
    goes wrong with a single candidate (a read error, an empty file, a
    checksum mismatch, a decoding error) is never returned. *)
Theorem loadMatched_error_kinds (s : Snapshotter) (matchFn : Snapshot -> Go bool)
  (w w' : World) (err : error) :
  loadMatched s matchFn w = Done (Err err) w' ->
  err = ErrNoSnapshot \/
  (exists e, open_fault (dir s) = Some e /\
             err = PathError "open" (dir s, "") (errno e) /\ w' = w) \/
  (exists e, readdir_fault (dir s) = Some e /\
             err = PathError "readdirent" (dir s, "") (errno e) /\ w' = w) \/
  (exists n e, In n (listing (dir s) w) /\ strings.HasPrefix n "db.tmp" = true /\
               remove_fault (dir s, n) = Some e /\
               err = RemoveOrphanError n (PathError "remove" (dir s, n) (errno e))).
Proof.
  unfold loadMatched, snapnames, bind, Open, Readdirnames.
  destruct (open_fault (dir s)) as [e|].
  { intros [= <- <-]. right. left. eauto. }
  destruct (readdir_fault (dir s)) as [e|].
  { intros [= <- <-]. right. right. left. eauto. }
  fold (listing (dir s) w). unfold cleanupSnapdir.
  destruct (cleanupSnapdir_loop s (listing (dir s) w) [] w) as [[nm [e|]] w1|v w1] eqn:C;
    cbn [snd fst].
  - intros [= <- <-]. right. right. right.
    destruct (cleanup_loop_error _ _ _ _ _ _ _ C) as (n & e0 & H). exists n, e0. exact H.
  - unfold checkSuffix.
    destruct (checkSuffix_loop_spec nm [] w1) as (w2 & E2 & _). rewrite E2.
    destruct (List.length _ =? 0)%nat.
    + intros [= <- <-]. now left.
    + intros E. left. unfold ret in E. eapply loop_error; exact E.
  - discriminate.
Qed.

(** X6.  A load never alters or loses the bytes of a candidate: what a
    [.snap] name (not an orphan) held before is afterwards under the same
    name, or the name is gone and the bytes are under [name.broken]; a name
    that was absent stays absent. *)
Theorem load_never_loses_bytes (s : Snapshotter) (matchFn : Snapshot -> Go bool)
  (w : World) (n : string) :
  observer matchFn ->
  strings.HasSuffix n ".snap" = true -> strings.HasPrefix n "db.tmp" = false ->
  let after := files (world_of (loadMatched s matchFn w)) in
  match lookup (dir s, n) (files w) with
  | Some b => lookup (dir s, n) after = Some b \/
              (lookup (dir s, n) after = None /\
               lookup (dir s, brokenName n) after = Some b)
  | None => lookup (dir s, n) after = None
  end.
Proof.
  intros Hobs Hs Ho after.
  assert (Cn : candidate_name n = true).
  { unfold candidate_name, is_snap, orphan. now rewrite Hs, Ho. }
  exact (loadMatched_kept s matchFn w n Hobs Cn).
Qed.

(** X7.  A snapshot that a load returns was decoded from a [.snap] file
    (not an orphan) of the directory as it was before the load, whose
    envelope parses, whose stored checksum is not zero and equals the
    CRC-32C of its payload; the predicate accepted it, and the file is
    still there afterwards. *)
Theorem load_returns_checked_data (s : Snapshotter) (matchFn : Snapshot -> Go bool)
  (w w' : World) (x : Snapshot) :
  observer matchFn ->
  loadMatched s matchFn w = Done (Ok x) w' ->
  exists n b e w0,
    strings.HasSuffix n ".snap" = true /\ strings.HasPrefix n "db.tmp" = false /\
    lookup (dir s, n) (files w) = Some b /\
    UnmarshalSaved b = inr e /\
    Crc e <> 0 /\ crc32.Update 0 crcTable (Payload e) = Crc e /\
    UnmarshalSnapshot (Payload e) = inr x /\
    matchFn x w0 = Done true w0 /\
    lookup (dir s, n) (files w') = Some b.
Proof.
  intros Hobs E.
  pose proof (loadMatched_agrees s matchFn w Hobs) as A. rewrite E in A. simpl in A.
  unfold loadMatched, bind in E.
  destruct (snapnames_any s w) as (r & w1 & E1 & Sw & Hn). rewrite E1 in E.
  destruct r as [names|e]; [|discriminate].
  rewrite (Hn names eq_refl) in E.
  destruct (loop_sound s matchFn w Hobs _ _ _ _ (candidates_names _ _)
              (agrees_swept _ _ _ _ Sw) E) as (n & w0 & Hin & R & M).
  pose proof (candidates_names (dir s) w) as Hc. rewrite Forall_forall in Hc.
  pose proof (Hc n Hin) as Cn.
  destruct (read_ok_inv _ _ _ R) as (_ & b & e & L & _ & U & _ & Z0 & C & V).
  pose proof Cn as Cn'. unfold candidate_name, is_snap, orphan in Cn'.
  apply andb_true_iff in Cn'. destruct Cn' as [Sn On]. apply negb_true_iff in On.
  exists n, b, e, w0. repeat split; auto.
  rewrite (proj1 (A n Cn) x R). exact L.
Qed.

(** X8.  A snapshot that [Load] returns is the newest valid one: it is what
    a candidate of the directory before the load reads as, and every
    candidate whose name sorts after that one fails to read or to
    validate. *)
Theorem Load_returns_the_newest_valid (s : Snapshotter) (w w' : World) (x : Snapshot) :
  Load s w = Done (Ok x) w' ->
  exists n,
    In n (candidates (dir s) w) /\ read_result w (dir s, n) = Ok x /\
    forall m, In m (candidates (dir s) w) -> strings.lt n m = true ->
              exists e, read_result w (dir s, m) = Err e.
Proof.
  intros E. unfold Load, loadMatched, bind in E.
  destruct (snapnames_any s w) as (r & w0 & E0 & Sw & Hn). rewrite E0 in E.
  destruct r as [names|e]; [|discriminate].
  rewrite (Hn names eq_refl) in E.
  destruct (loop_scan s (fun _ => ret true) (fun _ => true) w (candidates (dir s) w) w0
              (candidates_names _ _)) as (w2 & E2);
    [reflexivity | eapply agrees_swept; eauto |].
  rewrite E2 in E. injection E as Es _. unfold scan in Es.
  destruct (find (accepts w (dir s) (fun _ => true)) (candidates (dir s) w)) as [n|] eqn:F;
    [|discriminate].
  destruct (find_some _ _ F) as [Hin _].
  exists n. split; [exact Hin|]. split; [exact Es|].
  intros m Hm L.
  pose proof (find_sorted_first _ _ _ (candidates_sorted _ _) F m Hm L) as A.
  unfold accepts in A. destruct (read_result w (dir s, m)) as [y|e]; [discriminate|eauto].
Qed.

(** X9.  Loading again gives the same result: when listing meets no fault,
    a load from the directory that a load left returns what the first one
    returned, whatever it quarantined. *)
Theorem load_is_repeatable (s : Snapshotter) (p : Snapshot -> bool) (w : World) :
  open_fault (dir s) = None -> readdir_fault (dir s) = None ->
  (forall n, strings.HasPrefix n "db.tmp" = true -> remove_fault (dir s, n) = None) ->
  exists r w1 w2,
    loadMatched s (fun x => ret (p x)) w = Done r w1 /\
    loadMatched s (fun x => ret (p x)) w1 = Done r w2.
Proof.
  intros Ho Hr Hrm.
  assert (Rm : forall l, removable (dir s) l) by (intros l n _ O; now apply Hrm).
  destruct (loadMatched_scan s (fun x => ret (p x)) p w Ho Hr (Rm _)) as (w1 & E1);
    [reflexivity|].
  destruct (loadMatched_scan s (fun x => ret (p x)) p w1 Ho Hr (Rm _)) as (w2 & E2);
    [reflexivity|].
  exists (scan w (dir s) p (candidates (dir s) w)), w1, w2.
  split; [exact E1|]. rewrite E2. f_equal.
  pose proof (repeated_scan s p w) as Rs. rewrite E1 in Rs. exact Rs.
Qed.

(** X10.  A second load changes no file: when listing and renaming meet no
    fault and the directory lists no name twice, a load from the directory
    that a load left returns the same result and leaves every file as it
    is. *)
Theorem second_load_changes_no_file (s : Snapshotter) (p : Snapshot -> bool) (w : World) :
  open_fault (dir s) = None -> readdir_fault (dir s) = None ->
  (forall n, strings.HasPrefix n "db.tmp" = true -> remove_fault (dir s, n) = None) ->
  (forall n, rename_fault (dir s, n) = None) ->
  NoDup (candidates (dir s) w) ->
  exists r w1 w2,
    loadMatched s (fun x => ret (p x)) w = Done r w1 /\
    loadMatched s (fun x => ret (p x)) w1 = Done r w2 /\
    files w2 = files w1.
Proof.
  intros Ho Hr Hrm Hrn Hnd.
  assert (Rm : forall l, removable (dir s) l) by (intros l n _ O; now apply Hrm).
  assert (Hobs : observer (fun x => ret (p x))) by (intros x w0; reflexivity).
  destruct (loadMatched_scan s (fun x => ret (p x)) p w Ho Hr (Rm _)) as (w1 & E1);
    [reflexivity|].
  destruct (loadMatched_scan s (fun x => ret (p x)) p w1 Ho Hr (Rm _)) as (w2 & E2);
    [reflexivity|].
  exists (scan w (dir s) p (candidates (dir s) w)), w1, w2.
  split; [exact E1|]. split.
  { rewrite E2. f_equal. pose proof (repeated_scan s p w) as Rs. rewrite E1 in Rs. exact Rs. }
  pose proof (no_orphan_left s _ w Hobs Ho Hr (Rm _)) as Hno.
  destruct (after_load s (fun x => ret (p x)) w Hobs) as [Sub Stay].
  pose proof (loadMatched_agrees s (fun x => ret (p x)) w Hobs) as A.
  assert (Gone : forall h e, In h (candidates (dir s) w) ->
            read_result w (dir s, h) = Err e ->
            (forall m, In m (candidates (dir s) w) -> strings.lt h m = true ->
                       accepts w (dir s) p m = false) ->
            lookup (dir s, h) (files w1) = None).
  { intros h e Hh Rh Hgt.
    pose proof (failing_candidate_gone s p w h e Ho Hr (Rm _) Hnd (Hrn h) Hh Rh Hgt) as G.
    now rewrite E1 in G. }
  rewrite E1 in Hno, Sub, Stay, A. cbn [world_of] in Hno, Sub, Stay, A.
  pose proof (f_equal (fun o => files (world_of o)) E2) as F2. cbn [world_of] in F2.
  rewrite <- F2. unfold loadMatched, bind.
  destruct (snapnames_clean s w1 Ho Hr Hno) as (w1' & E & F). rewrite E.
  destruct (unsorted (dir s) w1) eqn:U; [exact F|]. rewrite <- F.
  apply loop_quiet; [apply candidates_sorted|].
  assert (Rd : forall k, read_result w1' (dir s, k) = read_result w1 (dir s, k))
    by (intros k; apply read_result_ext; now rewrite F).
  intros h Hh. destruct (Sub h Hh) as [Hin Same].
  pose proof (candidates_names (dir s) w) as Hc. rewrite Forall_forall in Hc.
  destruct (read_result w (dir s, h)) as [x|e] eqn:Rh.
  { left. exists x. rewrite Rd. exact (agrees_valid _ _ _ _ _ A (Hc h Hin) Rh). }
  right.
  destruct (existsb (fun m => strings.lt h m && accepts w (dir s) p m)
              (candidates (dir s) w)) eqn:Ex.
  - apply existsb_exists in Ex. destruct Ex as (m & Hm & Hlm).
    apply andb_true_iff in Hlm. destruct Hlm as [Lt Am].
    pose proof Am as Am'. unfold accepts in Am'.
    destruct (read_result w (dir s, m)) as [y|e'] eqn:Rm'; [|discriminate].
    exists m. split; [exact (Stay m y Hm Rm')|]. split; [exact Lt|].
    unfold accepts. rewrite Rd, (agrees_valid _ _ _ _ _ A (Hc m Hm) Rm'). exact Am'.
  - exfalso. apply candidates_In in Hh. destruct Hh as [Lh _]. apply Lh.
    apply (Gone h e Hin Rh). intros m Hm Lt.
    destruct (accepts w (dir s) p m) eqn:Am; [|reflexivity].
    assert (T : existsb (fun m => strings.lt h m && accepts w (dir s) p m)
                  (candidates (dir s) w) = true).
    { apply existsb_exists. exists m. split; [exact Hm|]. now rewrite Lt, Am. }
    congruence.
Qed.

(** X11.  What a load returns depends only on what the candidate names
    hold: when listing meets no fault, two directories that agree on every
    [.snap] name that is no orphan give the same result, whatever their
    directory order and whatever else they contain. *)
Theorem load_depends_on_candidates_only (s : Snapshotter) (p : Snapshot -> bool)
  (w1 w2 : World) :
  open_fault (dir s) = None -> readdir_fault (dir s) = None ->
  (forall n, strings.HasPrefix n "db.tmp" = true -> remove_fault (dir s, n) = None) ->
  (forall n, strings.HasSuffix n ".snap" = true -> strings.HasPrefix n "db.tmp" = false ->
             lookup (dir s, n) (files w1) = lookup (dir s, n) (files w2)) ->
  exists r w1' w2',
    loadMatched s (fun x => ret (p x)) w1 = Done r w1' /\
    loadMatched s (fun x => ret (p x)) w2 = Done r w2'.
Proof.
  intros Ho Hr Hrm Same.
  assert (Rm : forall l, removable (dir s) l) by (intros l n _ O; now apply Hrm).
  destruct (loadMatched_scan s (fun x => ret (p x)) p w1 Ho Hr (Rm _)) as (w1' & E1);
    [reflexivity|].
  destruct (loadMatched_scan s (fun x => ret (p x)) p w2 Ho Hr (Rm _)) as (w2' & E2);
    [reflexivity|].
  exists (scan w1 (dir s) p (candidates (dir s) w1)), w1', w2'.
  split; [exact E1|]. rewrite E2. f_equal.
  assert (Same' : forall n, candidate_name n = true ->
                    lookup (dir s, n) (files w1) = lookup (dir s, n) (files w2)).
  { intros n C. unfold candidate_name, is_snap, orphan in C.
    apply andb_true_iff in C. destruct C as [Sn On]. apply negb_true_iff in On.
    now apply Same. }
  assert (In1 : forall n, In n (candidates (dir s) w2) <-> In n (candidates (dir s) w1)).
  { intros n. rewrite !candidates_In. split; intros [L C]; split; auto.
    - now rewrite (Same' n C).
    - now rewrite <- (Same' n C). }
  assert (Rd : forall n, In n (candidates (dir s) w1) ->
                 read_result w2 (dir s, n) = read_result w1 (dir s, n)).
  { intros n Hn. apply read_result_ext. symmetry. apply Same'.
    apply candidates_In in Hn. apply Hn. }
  apply scan_sub; try apply candidates_sorted.
  - intros n. apply In1.
  - intros n Hn _. split; [now apply In1 | now apply Rd].
  - intros n Hn. unfold accepts. rewrite Rd; [auto | now apply In1].
Qed.

(** X12.  [Load] from a directory that holds only [.snap] files and [db],
    the newest of which validates, returns that snapshot and leaves the
    world, files and log, exactly as it was. *)
Theorem Load_of_clean_directory_changes_nothing (s : Snapshotter) (w : World)
  (n : string) (post : list string) (x : Snapshot) :
  open_fault (dir s) = None -> readdir_fault (dir s) = None ->
  (forall k, In k (listing (dir s) w) ->
             strings.HasPrefix k "db.tmp" = false /\
             (strings.HasSuffix k ".snap" = true \/ k = "db")) ->
  candidates (dir s) w = n :: post ->
  read_result w (dir s, n) = Ok x ->
  Load s w = Done (Ok x) w.
Proof.
  intros Ho Hr Hclean Hc R.
  assert (Hno : forall k, In k (listing (dir s) w) -> orphan k = false)
    by (intros k Hk; apply (Hclean k Hk)).
  assert (Hun : forall k, In k (listing (dir s) w) -> unexpected k = false).
  { intros k Hk. destruct (Hclean k Hk) as [_ [H| ->]]; [|reflexivity].
    unfold unexpected, is_snap. now rewrite H. }
  assert (Ef : filter (fun k => negb (orphan k)) (listing (dir s) w) = listing (dir s) w).
  { apply filter_all. intros k Hk. now rewrite (Hno k Hk). }
  unfold Load, loadMatched, snapnames, bind, Open, Readdirnames. rewrite Ho, Hr.
  fold (listing (dir s) w). unfold cleanupSnapdir.
  rewrite cleanup_loop_clean by exact Hno. cbn [snd fst app].
  unfold checkSuffix. rewrite checkSuffix_loop_log, (filter_none unexpected) by exact Hun.
  cbn [map rev app].
  assert (Ec : sort.SortReverseStrings (filter is_snap (listing (dir s) w)) = n :: post).
  { unfold candidates, unsorted in Hc. now rewrite Ef in Hc. }
  destruct (filter is_snap (listing (dir s) w)) as [|h r] eqn:Fs; [discriminate|].
  cbn [List.length Nat.eqb]. unfold ret at 1. rewrite Ec.
  cbn [loadMatched_loop]. unfold bind, loadSnap, bind.
  replace {| files := files w; log := log w |} with w by (destruct w; reflexivity).
  rewrite (readSnap_ok_exact _ _ _ R). reflexivity.
Qed.

(** X13.  Whenever [LoadNewestAvailable] returns a snapshot, [Load] from the
    same directory returns one too. *)
Theorem Load_succeeds_when_LoadNewestAvailable_does (s : Snapshotter)
  (walSnaps : list WalSnapshot) (w w1 : World) (x : Snapshot) :
  LoadNewestAvailable s walSnaps w = Done (Ok x) w1 ->
  exists y w2, Load s w = Done (Ok y) w2.
Proof.
  intros E. unfold LoadNewestAvailable, Load, loadMatched, bind in *.
  destruct (snapnames_any s w) as (r & w0 & E0 & Sw & Hn). rewrite E0 in *.
  destruct r as [names|e]; [|discriminate].
  rewrite (Hn names eq_refl) in *.
  destruct (loop_sound s _ w (matchWal_observer (rev walSnaps)) _ _ _ _
              (candidates_names _ _) (agrees_swept _ _ _ _ Sw) E)
    as (n & _ & Hin & R & _).
  destruct (loop_scan s (fun _ => ret true) (fun _ => true) w (candidates (dir s) w) w0
              (candidates_names _ _)) as (w2 & E2);
    [reflexivity | eapply agrees_swept; eauto |].
  destruct (proj2 (scan_ok_iff w (dir s) (fun _ => true) (candidates (dir s) w)))
    as [y Hy]; [exists n, x; auto|].
  exists y, w2. now rewrite E2, Hy.
Qed.

(** *** Loading against markers *)

(** X14.  A snapshot that [LoadNewestAvailable] returns has metadata, and its
    term and index are those of one of the markers. *)
Theorem LoadNewestAvailable_returns_a_marked_snapshot (s : Snapshotter)
  (walSnaps : list WalSnapshot) (w w' : World) (x : Snapshot) :
  LoadNewestAvailable s walSnaps w = Done (Ok x) w' ->
  exists m ws,
    Metadata x = Some m /\ In ws walSnaps /\
    Term m = WalTerm ws /\ Index m = WalIndex ws.
Proof.
  intros E. unfold LoadNewestAvailable, loadMatched, bind in E.
  destruct (snapnames_any s w) as (r & w0 & E0 & Sw & Hn). rewrite E0 in E.
  destruct r as [names|e]; [|discriminate].
  rewrite (Hn names eq_refl) in E.
  destruct (loop_sound s _ w (matchWal_observer (rev walSnaps)) _ _ _ _
              (candidates_names _ _) (agrees_swept _ _ _ _ Sw) E)
    as (n & w1 & _ & _ & M).
  destruct (Metadata x) as [m|].
  - rewrite matchWal_some in M. injection M as M.
    apply existsb_exists in M. destruct M as (ws & Hin & Hm).
    apply andb_true_iff in Hm. destruct Hm as [Ht Hi].
    apply Z.eqb_eq in Ht, Hi. apply in_rev in Hin. exists m, ws. auto.
  - rewrite matchWal_none in M. destruct (rev walSnaps); discriminate.
Qed.

(** X15.  With no markers [LoadNewestAvailable] returns an error, never a
    snapshot and never a panic (the metadata is not looked at); when the
    listing succeeds the error is [ErrNoSnapshot]. *)
Theorem no_markers_no_snapshot (s : Snapshotter) (w : World) :
  exists err w',
    LoadNewestAvailable s [] w = Done (Err err) w' /\
    (open_fault (dir s) = None -> readdir_fault (dir s) = None ->
     removable (dir s) (listing (dir s) w) -> err = ErrNoSnapshot).
Proof.
  change (LoadNewestAvailable s [] w) with (loadMatched s (fun _ => ret false) w).
  assert (T : exists err w', loadMatched s (fun _ => ret false) w = Done (Err err) w').
  { unfold loadMatched, bind.
    destruct (snapnames_any s w) as (r & w1 & E & _). rewrite E.
    destruct r as [names|e]; [|unfold ret; eauto].
    destruct (loop_rejecting s names w1) as (w' & E'). rewrite E'. eauto. }
  destruct T as (err & w' & E). exists err, w'. split; [exact E|].
  intros Ho Hr Hrm.
  destruct (loadMatched_scan s (fun _ => ret false) (fun _ => false) w Ho Hr Hrm)
    as (w2 & E2); [reflexivity|].
  rewrite E in E2. injection E2 as E3 _.
  unfold scan in E3. rewrite find_none_all in E3; [congruence|].
  intros n _. unfold accepts. destruct (read_result w (dir s, n)); reflexivity.
Qed.

(** X16.  The result of [LoadNewestAvailable], and the world it leaves,
    depend only on which markers are given, not on their order or
    repetition. *)
Theorem marker_order_is_irrelevant (s : Snapshotter) (walSnaps walSnaps' : list WalSnapshot)
  (w : World) :
  (forall ws, In ws walSnaps <-> In ws walSnaps') ->
  LoadNewestAvailable s walSnaps w = LoadNewestAvailable s walSnaps' w.
Proof.
  intros H. unfold LoadNewestAvailable. apply loadMatched_ext.
  intros x w0. apply matchWal_ext. intros ws. rewrite <- !in_rev. apply H.
Qed.

(** X17.  With at least one marker, [LoadNewestAvailable] panics on a nil
    dereference as soon as the scan reaches a valid snapshot without
    metadata: every newer candidate failing, or carrying metadata that
    matches no marker. *)
Theorem nil_metadata_stops_the_scan (s : Snapshotter) (walSnaps : list WalSnapshot)
  (w : World) (pre post : list string) (n : string) (x : Snapshot) :
  open_fault (dir s) = None -> readdir_fault (dir s) = None ->
  removable (dir s) (listing (dir s) w) ->
  walSnaps <> [] ->
  candidates (dir s) w = pre ++ n :: post ->
  (forall k y, In k pre -> read_result w (dir s, k) = Ok y ->
               Metadata y <> None /\ matches walSnaps y = false) ->
  read_result w (dir s, n) = Ok x -> Metadata x = None ->
  exists w', LoadNewestAvailable s walSnaps w = Panicked NilDereference w'.
Proof.
  intros Ho Hr Hrm Hne Hc Hpre R Hx.
  unfold LoadNewestAvailable, loadMatched, bind.
  destruct (snapnames_ok s w Ho Hr Hrm) as (w1 & E & Sw & _). rewrite E.
  pose proof (candidates_names (dir s) w) as Hall. rewrite Hc in Hall.
  apply Forall_app in Hall. destruct Hall as [Cpre Cn].
  inversion Cn as [|? ? Cn' _]; subst.
  destruct (unsorted (dir s) w) eqn:U.
  { exfalso. unfold candidates in Hc. rewrite U in Hc. simpl in Hc.
    destruct pre; discriminate. }
  rewrite Hc.
  destruct (loop_skips s (fun y => matchWal (Metadata y) (rev walSnaps)) w pre (n :: post) w1
              Cpre (agrees_swept _ _ _ _ Sw)) as (cur1 & E1 & A1).
  { intros k y Hk Rk w0. destruct (Hpre k y Hk Rk) as [Hm Hn].
    unfold matches in Hn. destruct (Metadata y) as [md|]; [|congruence].
    now rewrite matchWal_some, Hn. }
  rewrite E1. cbn [loadMatched_loop]. unfold bind.
  destruct (loadSnap_ok _ _ _ _ (agrees_valid _ _ _ _ _ A1 Cn' R)) as (w2 & E2 & _).
  rewrite E2, Hx, matchWal_none.
  destruct (rev walSnaps) eqn:V; [|eauto].
  apply (f_equal (@rev _)) in V. rewrite rev_involutive in V. simpl in V. congruence.
Qed.

(** *** Reading one file *)

(** X18.  [loadSnap] on a name that is not in the directory returns the
    not-exist error of the read; the rename it attempts fails as well, which
    is logged, and no file changes. *)
Theorem loadSnap_of_missing_file (d name : string) (w : World) :
  lookup (d, name) (files w) = None -> read_fault (d, name) = None ->
  exists w',
    loadSnap d name w = Done (Err (PathError "open" (d, name) ENOENT)) w' /\
    files w' = files w /\
    In (rename_failure (d, name)) (log w').
Proof.
  intros L Hr. unfold loadSnap, readSnap, bind, ReadFile, logf, Rename.
  rewrite Hr, L. unfold ret at 1. cbn [files log]. rewrite L.
  destruct (rename_fault (d, name)); unfold ret; eexists;
    (split; [reflexivity|]); cbn [files log]; split; auto; now left.
Qed.

(** X19.  In a file written by [save] whose stored checksum is not zero,
    replacing up to four consecutive bytes of the payload by other bytes is
    always detected: [readSnap] fails with [ErrCRCMismatch]. *)
Theorem corrupted_window_is_detected (snapshot : Snapshot) (a xs c f : bytes) :
  Lawful codec ->
  encodes snapshot (a ++ xs ++ c) f ->
  crc32.Update 0 crcTable (a ++ xs ++ c) <> 0 ->
  exists hd tl,
    f = hd ++ (a ++ xs ++ c) ++ tl /\
    forall ys p w,
      List.length ys = List.length xs -> (List.length xs <= 4)%nat -> ys <> xs ->
      read_fault p = None ->
      lookup p (files w) = Some (hd ++ (a ++ ys ++ c) ++ tl) ->
      read_result w p = Err ErrCRCMismatch.
Proof.
  intros L [Hb Hf] Hc.
  destruct (payload_verbatim _ L _ _ Hf) as (hd & tl & Ef & _ & Hd).
  cbn [Payload Crc] in *. exists hd, tl. split; [exact Ef|].
  intros ys p w Hl H4 N Hr Hl'.
  assert (Hlen : List.length (a ++ ys ++ c) = List.length (a ++ xs ++ c))
    by (rewrite !length_app; lia).
  pose proof (saved_roundtrip _ L _ _ (Hd _ Hlen)) as Hu.
  assert (Hy : ys <> []) by (intros ->; destruct xs; [congruence|discriminate]).
  unfold read_result, readSnap, bind, ReadFile. rewrite Hr, Hl'.
  replace (List.length (hd ++ (a ++ ys ++ c) ++ tl) =? 0)%nat with false.
  2:{ symmetry. apply Nat.eqb_neq. rewrite !length_app. destruct ys; [congruence|].
      simpl. lia. }
  rewrite Hu. cbn [Payload Crc].
  replace (List.length (a ++ ys ++ c) =? 0)%nat with false.
  2:{ symmetry. apply Nat.eqb_neq. rewrite !length_app. destruct ys; [congruence|].
      simpl. lia. }
  apply Z.eqb_neq in Hc. rewrite Hc. cbn [orb].
  replace (crc32.Update 0 crcTable (a ++ ys ++ c)
           =? crc32.Update 0 crcTable (a ++ xs ++ c)) with false; [reflexivity|].
  symmetry. apply Z.eqb_neq. intros E.
  apply WindowFacts.Update_window in E; auto. lia.
Qed.

(** *** Listing *)

(** X20.  [checkSuffix] returns the names ending in [.snap], in the order
    given, changes no file, and logs one warning, in order, for each other
    name except [db]. *)
Theorem checkSuffix_keeps_snap_names (filenames : list string) (w : World) :
  checkSuffix filenames w
  = Done (filter (fun f => strings.HasSuffix f ".snap") filenames)
         {| files := files w;
            log := rev (map unexpected_file (filter unexpected filenames)) ++ log w |} /\
  (forall f, unexpected f = true <-> strings.HasSuffix f ".snap" = false /\ f <> "db").
Proof.
  split; [exact (checkSuffix_loop_log filenames [] w)|].
  intros f. unfold unexpected, is_snap, validFiles_has, validFiles. cbn [existsb fst].
  rewrite orb_false_r, andb_true_iff, !negb_true_iff.
  destruct (String.eqb_spec "db" f) as [<-|N]; split; intros [H1 H2]; split; auto;
    congruence.
Qed.

(** X21.  [cleanupSnapdir] stops at the first orphan it cannot remove: it
    returns that error with the other names seen so far; the orphans listed
    before it are gone, and everything else, the orphans listed after it
    included, is as before. *)
Theorem cleanup_stops_at_first_failure (s : Snapshotter) (pre post : list string)
  (n : string) (e : Fault) (w : World) :
  (forall k, In k pre -> strings.HasPrefix k "db.tmp" = true ->
             remove_fault (dir s, k) = None) ->
  strings.HasPrefix n "db.tmp" = true -> remove_fault (dir s, n) = Some e ->
  exists w',
    cleanupSnapdir s (pre ++ n :: post) w
    = Done (filter (fun k => negb (strings.HasPrefix k "db.tmp")) pre,
            Some (RemoveOrphanError n (PathError "remove" (dir s, n) (errno e)))) w' /\
    (forall k, In k pre -> strings.HasPrefix k "db.tmp" = true ->
               lookup (dir s, k) (files w') = None) /\
    (forall q, (forall k, In k pre -> strings.HasPrefix k "db.tmp" = true -> q <> (dir s, k)) ->
               lookup q (files w') = lookup q (files w)).
Proof.
  intros Hpre Hn He. unfold cleanupSnapdir.
  destruct (cleanup_loop_app s pre (n :: post) Hpre [] w) as (w1 & E & Sw & Gone).
  rewrite E. cbn [app cleanupSnapdir_loop]. rewrite Hn.
  unfold bind, logf, Remove. cbn [files log]. rewrite He, errno_exists. cbn [negb].
  unfold ret. eexists. split; [reflexivity|]. cbn [files]. split; [exact Gone|].
  intros q Hq. destruct (Sw q) as [Q|[_ (k & Hk & Ok & ->)]]; [exact Q|].
  now elim (Hq k Hk Ok).
Qed.

(** *** Releasing *)

(** X22.  [ReleaseSnapDBs] on a snapshot without metadata panics on a nil
    dereference exactly when the directory lists a [.snap.db] name whose
    index parses, and returns [nil] otherwise; in both cases no file
    changes. *)
Theorem ReleaseSnapDBs_without_metadata (s : Snapshotter) (snap : Snapshot) (w : World) :
  Metadata snap = None ->
  open_fault (dir s) = None -> readdir_fault (dir s) = None ->
  exists w',
    files w' = files w /\
    ReleaseSnapDBs s snap w
    = if existsb parseable (listing (dir s) w)
      then Panicked NilDereference w' else Done None w'.
Proof.
  intros Hm Ho Hr. unfold ReleaseSnapDBs, bind, Open, Readdirnames. rewrite Ho, Hr.
  apply Release_loop_nil. exact Hm.
Qed.

(** X23.  [ReleaseSnapDBs] is idempotent: a second call with the same
    snapshot returns [nil] and changes no file, also when removals
    failed. *)
Theorem ReleaseSnapDBs_is_idempotent (s : Snapshotter) (snap : Snapshot)
  (m : SnapshotMetadata) (w : World) :
  Metadata snap = Some m ->
  open_fault (dir s) = None -> readdir_fault (dir s) = None ->
  exists w1 w2,
    ReleaseSnapDBs s snap w = Done None w1 /\
    ReleaseSnapDBs s snap w1 = Done None w2 /\
    files w2 = files w1.
Proof.
  intros Hm Ho Hr. unfold ReleaseSnapDBs, bind, Open, Readdirnames. rewrite Ho, Hr.
  fold (listing (dir s) w).
  destruct (Release_loop s snap m Hm (listing (dir s) w) w) as (w1 & E & Sw & Gone & _).
  exists w1. rewrite E. fold (listing (dir s) w1).
  destruct (Release_loop_settled s snap m Hm (listing (dir s) w1) w1) as (w2 & E2 & F2).
  - intros n Hn Hrel. apply listing_In in Hn.
    destruct (Sw (dir s, n)) as [Q|[Q _]]; [|exact Q].
    apply Gone; [|exact Hrel]. apply listing_In. congruence.
  - exists w2. auto.
Qed.

(** X24.  The index parser reads back what the 16-digit formatter writes:
    the file [<i:016x>.snap.db] has index [i] for every 64-bit [i], so
    [ReleaseSnapDBs] removes it when [i] is below the index of the snapshot
    and keeps it otherwise. *)
Theorem release_by_formatted_index (s : Snapshotter) (snap : Snapshot)
  (m : SnapshotMetadata) (w : World) (i : Z) :
  Metadata snap = Some m ->
  open_fault (dir s) = None -> readdir_fault (dir s) = None ->
  uint64 i ->
  let name := (fmt.x016 i ++ ".snap.db")%string in
  remove_fault (dir s, name) = None ->
  dbIndex name = inr i /\
  exists w',
    ReleaseSnapDBs s snap w = Done None w' /\
    lookup (dir s, name) (files w')
    = if i <? Index m then None else lookup (dir s, name) (files w).
Proof.
  intros Hm Ho Hr Hi name Hrm.
  pose proof (ParseFacts.dbIndex_x016 i Hi) as D. fold name in D. split; [exact D|].
  unfold ReleaseSnapDBs, bind, Open, Readdirnames. rewrite Ho, Hr.
  fold (listing (dir s) w).
  destruct (Release_loop s snap m Hm (listing (dir s) w) w) as (w' & E & Sw & Gone & _).
  exists w'. split; [exact E|].
  assert (Hs : strings.HasSuffix name ".snap.db" = true)
    by (apply StringFacts.HasSuffix_iff; now exists (fmt.x016 i)).
  assert (Rel : released (dir s) (Index m) name = (i <? Index m)).
  { unfold released, stale. now rewrite Hs, D, Hrm, andb_true_r. }
  destruct (i <? Index m).
  - destruct (Sw (dir s, name)) as [Q|[Q _]]; [|exact Q].
    destruct (lookup (dir s, name) (files w)) eqn:L; [|congruence].
    apply Gone; [|exact Rel]. apply listing_In. congruence.
  - destruct (Sw (dir s, name)) as [Q|[_ (k & _ & Hk & [= <-])]]; [exact Q|]. congruence.
Qed.

(** X25.  [ReleaseSnapDBs] never changes what a load returns: a load after
    it returns what a load in its place would have returned. *)
Theorem release_keeps_loads (s : Snapshotter) (snap : Snapshot) (m : SnapshotMetadata)
  (p : Snapshot -> bool) (w : World) :
  Metadata snap = Some m ->
  open_fault (dir s) = None -> readdir_fault (dir s) = None ->
  (forall n, strings.HasPrefix n "db.tmp" = true -> remove_fault (dir s, n) = None) ->
  exists r w1 w2 w3,
    loadMatched s (fun x => ret (p x)) w = Done r w2 /\
    ReleaseSnapDBs s snap w = Done None w1 /\
    loadMatched s (fun x => ret (p x)) w1 = Done r w3.
Proof.
  intros Hm Ho Hr Hrm.
  assert (Rm : forall l, removable (dir s) l) by (intros l n _ O; now apply Hrm).
  destruct (loadMatched_scan s (fun x => ret (p x)) p w Ho Hr (Rm _)) as (w2 & E2);
    [reflexivity|].
  assert (R : exists w1, ReleaseSnapDBs s snap w = Done None w1 /\
                forall n, candidate_name n = true ->
                          lookup (dir s, n) (files w1) = lookup (dir s, n) (files w)).
  { unfold ReleaseSnapDBs, bind, Open, Readdirnames. rewrite Ho, Hr.
    fold (listing (dir s) w).
    destruct (Release_loop s snap m Hm (listing (dir s) w) w) as (w1 & E & Sw & _).
    exists w1. split; [exact E|]. intros n C.
    destruct (Sw (dir s, n)) as [Q|[_ (k & _ & Hk & [= <-])]]; [exact Q|].
    unfold released, stale in Hk. apply andb_true_iff in Hk. destruct Hk as [Hk _].
    apply andb_true_iff in Hk. destruct Hk as [Hk _].
    apply ParseFacts.snapdb_not_snap in Hk.
    unfold candidate_name, is_snap in C. rewrite Hk in C. discriminate. }
  destruct R as (w1 & E1 & Same).
  destruct (loadMatched_scan s (fun x => ret (p x)) p w1 Ho Hr (Rm _)) as (w3 & E3);
    [reflexivity|].
  exists (scan w (dir s) p (candidates (dir s) w)), w1, w2, w3.
  split; [exact E2|]. split; [exact E1|]. rewrite E3. f_equal.
  assert (In1 : forall n, In n (candidates (dir s) w1) <-> In n (candidates (dir s) w)).
  { intros n. rewrite !candidates_In. split; intros [L C]; split; auto.
    - now rewrite <- (Same n C).
    - now rewrite (Same n C). }
  assert (Rd : forall n, In n (candidates (dir s) w) ->
                 read_result w1 (dir s, n) = read_result w (dir s, n)).
  { intros n Hn. apply read_result_ext. apply Same.
    apply candidates_In in Hn. apply Hn. }
  apply scan_sub; try apply candidates_sorted.
  - intros n. apply In1.
  - intros n Hn _. split; [now apply In1 | now apply Rd].
  - intros n Hn. unfold accepts. rewrite Rd; [auto | now apply In1].
Qed.

End WithEnv.

(** *** The further properties at closed inputs *)

Lemma empty15_encodes :
  encodes (codec := wire.proto3) (snapshot_at 1 5 []) (payload_of (snapshot_at 1 5 []))
    (file_of (snapshot_at 1 5 [])).
Proof. split; vm_compute; reflexivity. Qed.

Lemma empty11_encodes :
  encodes (codec := wire.proto3) (snapshot_at 1 1 []) (payload_of (snapshot_at 1 1 []))
    (file_of (snapshot_at 1 1 [])).
Proof. split; vm_compute; reflexivity. Qed.

Lemma hello_window_encodes :
  encodes (codec := wire.proto3) hello
    (firstn 2 (payload_of hello)
     ++ firstn 4 (skipn 2 (payload_of hello)) ++ skipn 6 (payload_of hello))
    (file_of hello).
Proof. split; vm_compute; reflexivity. Qed.

(** X1 on a full disk, over a file saved earlier: the file is gone. *)
Lemma failed_save_leaves_no_file_witness :
  lookup ("member/snap", hello_name) (files saved_world) = Some (file_of hello) /\
  exists w',
    SaveSnap (codec := wire.proto3) (io := full_disk) demo hello saved_world
    = Done (Some (PathError "open" ("member/snap", hello_name) ENOSPC)) w' /\
    lookup ("member/snap", hello_name) (files w') = None.
Proof.
  split; [reflexivity|].
  destruct (failed_save_leaves_no_file (codec := wire.proto3) (io := full_disk)
              demo hello {| Term := 1; Index := 5 |} (payload_of hello) (file_of hello)
              (PathError "open" ("member/snap", hello_name) ENOSPC)
              saved_world saved_world eq_refl)
    as (w' & E & _ & Gone & _).
  - discriminate.
  - exact hello_encodes.
  - reflexivity.
  - exists w'. split; [exact E|]. apply Gone. reflexivity.
Defined.

(** X2 at the file [db]. *)
Lemma SaveSnap_touches_one_file_witness :
  lookup ("member/snap", "db")
    (files (world_of (SaveSnap (codec := wire.proto3) (io := no_faults) demo hello
                        stray_world)))
  = Some [].
Proof.
  etransitivity;
    [apply (SaveSnap_touches_one_file (codec := wire.proto3) (io := no_faults) demo hello
              stray_world ("member/snap", "db")) | reflexivity].
  intros m [= <-]. vm_compute. discriminate.
Defined.

(** X3 at two snapshots of term 1 and index 5. *)
Lemma SaveSnap_last_write_wins_witness :
  exists w1,
    SaveSnap (codec := wire.proto3) (io := no_faults) demo hello stray_world = Done None w1 /\
    SaveSnap (codec := wire.proto3) (io := no_faults) demo (snapshot_at 1 5 []) w1
    = Done None (written ("member/snap", hello_name) (file_of (snapshot_at 1 5 []))
                   stray_world).
Proof.
  destruct (SaveSnap_last_write_wins (codec := wire.proto3) (io := no_faults) demo
              hello (snapshot_at 1 5 []) {| Term := 1; Index := 5 |} {| Term := 1; Index := 5 |}
              (payload_of hello) (file_of hello)
              (payload_of (snapshot_at 1 5 [])) (file_of (snapshot_at 1 5 []))
              stray_world eq_refl eq_refl eq_refl eq_refl)
    as (w1 & E1 & E2 & _).
  - discriminate.
  - exact hello_encodes.
  - exact empty15_encodes.
  - reflexivity.
  - exists w1. split; [exact E1 | exact E2].
Defined.

(** X4 at the snapshots (1,1) and (1,5). *)
Lemma snapshots_get_distinct_files_witness :
  exists w1 w2,
    SaveSnap (codec := wire.proto3) (io := no_faults) demo (snapshot_at 1 1 []) stray_world
    = Done None w1 /\
    SaveSnap (codec := wire.proto3) (io := no_faults) demo hello w1 = Done None w2 /\
    lookup ("member/snap", "0000000000000001-0000000000000001.snap") (files w2)
    = Some (file_of (snapshot_at 1 1 [])) /\
    lookup ("member/snap", hello_name) (files w2) = Some (file_of hello).
Proof.
  apply (proj2 (snapshots_get_distinct_files (codec := wire.proto3) (io := no_faults) demo
                  (snapshot_at 1 1 []) hello {| Term := 1; Index := 1 |}
                  {| Term := 1; Index := 5 |}
                  (payload_of (snapshot_at 1 1 [])) (file_of (snapshot_at 1 1 []))
                  (payload_of hello) (file_of hello) stray_world) eq_refl eq_refl);
    try (unfold uint64; simpl; lia); try reflexivity.
  - exact empty11_encodes.
  - exact hello_encodes.
Defined.

(** X5 on a read-only disk: the error is that of removing the orphan. *)
Lemma loadMatched_error_kinds_witness :
  exists n e,
    In n (listing "member/snap" saved_world) /\ strings.HasPrefix n "db.tmp" = true /\
    remove_fault (Faults := read_only) ("member/snap", n) = Some e /\
    RemoveOrphanError "db.tmp123" (PathError "remove" ("member/snap", "db.tmp123") EROFS)
    = RemoveOrphanError n (PathError "remove" ("member/snap", n) (errno e)).
Proof.
  destruct (loadMatched_error_kinds (codec := wire.proto3) (io := read_only) demo
              (fun _ => ret true) saved_world
              (world_of (Load (codec := wire.proto3) (io := read_only) demo saved_world))
              (RemoveOrphanError "db.tmp123"
                 (PathError "remove" ("member/snap", "db.tmp123") EROFS)))
    as [H|[(e & H & _)|[(e & H & _)|H]]]; try discriminate.
  - vm_compute. reflexivity.
  - exact H.
Defined.

(** X6 at a damaged file. *)
Lemma load_never_loses_bytes_witness :
  let after := files (world_of (Load (codec := wire.proto3) (io := no_faults) demo
                                  damaged_world)) in
  lookup ("member/snap", hello_name) after = Some (flip_at 67 (file_of hello)) \/
  (lookup ("member/snap", hello_name) after = None /\
   lookup ("member/snap", brokenName hello_name) after = Some (flip_at 67 (file_of hello))).
Proof.
  exact (load_never_loses_bytes (codec := wire.proto3) (io := no_faults) demo
           (fun _ => ret true) damaged_world hello_name
           (fun x w => eq_refl) eq_refl eq_refl).
Defined.

(** X7 at a directory with one saved snapshot. *)
Lemma load_returns_checked_data_witness :
  exists n b e,
    strings.HasSuffix n ".snap" = true /\
    lookup ("member/snap", n) (files saved_world) = Some b /\
    wire.UnmarshalSaved b = inr e /\
    Crc e <> 0 /\ crc32.Update 0 crcTable (Payload e) = Crc e /\
    wire.UnmarshalSnapshot (Payload e) = inr hello.
Proof.
  destruct (load_returns_checked_data (codec := wire.proto3) (io := no_faults) demo
              (fun _ => ret true) saved_world
              (world_of (Load (codec := wire.proto3) (io := no_faults) demo saved_world))
              hello (fun x w => eq_refl))
    as (n & b & e & _ & H1 & _ & H2 & H3 & H4 & H5 & H6 & _).
  - vm_compute. reflexivity.
  - exists n, b, e. exact (conj H1 (conj H2 (conj H3 (conj H4 (conj H5 H6))))).
Defined.

(** X8 at a directory with one saved snapshot. *)
Lemma Load_returns_the_newest_valid_witness :
  exists n,
    In n (candidates "member/snap" saved_world) /\
    read_result (codec := wire.proto3) (io := no_faults) saved_world ("member/snap", n)
    = Ok hello /\
    forall m, In m (candidates "member/snap" saved_world) -> strings.lt n m = true ->
              exists e, read_result (codec := wire.proto3) (io := no_faults) saved_world
                          ("member/snap", m) = Err e.
Proof.
  apply (Load_returns_the_newest_valid (codec := wire.proto3) (io := no_faults) demo
           saved_world
           (world_of (Load (codec := wire.proto3) (io := no_faults) demo saved_world))
           hello).
  vm_compute. reflexivity.
Defined.

(** X9 at a directory whose only candidate is damaged. *)
Lemma load_is_repeatable_witness :
  exists r w1 w2,
    Load (codec := wire.proto3) (io := no_faults) demo damaged_world = Done r w1 /\
    Load (codec := wire.proto3) (io := no_faults) demo w1 = Done r w2.
Proof.
  apply (load_is_repeatable (codec := wire.proto3) (io := no_faults) demo (fun _ => true)
           damaged_world eq_refl eq_refl).
  intros n _. reflexivity.
Defined.

(** X10 at a directory whose only candidate is damaged. *)
Lemma second_load_changes_no_file_witness :
  exists r w1 w2,
    Load (codec := wire.proto3) (io := no_faults) demo damaged_world = Done r w1 /\
    Load (codec := wire.proto3) (io := no_faults) demo w1 = Done r w2 /\
    files w2 = files w1.
Proof.
  apply (second_load_changes_no_file (codec := wire.proto3) (io := no_faults) demo
           (fun _ => true) damaged_world eq_refl eq_refl).
  - intros n _. reflexivity.
  - intros n. reflexivity.
  - vm_compute. repeat constructor. intros [].
Defined.

(** X11 at the same entries in another order, with one more file. *)
Lemma load_depends_on_candidates_only_witness :
  exists r w1' w2',
    Load (codec := wire.proto3) (io := no_faults) demo saved_world = Done r w1' /\
    Load (codec := wire.proto3) (io := no_faults) demo shuffled_world = Done r w2'.
Proof.
  apply (load_depends_on_candidates_only (codec := wire.proto3) (io := no_faults) demo
           (fun _ => true) saved_world shuffled_world eq_refl eq_refl).
  - intros n _. reflexivity.
  - intros n Hs Ho. unfold saved_world, shuffled_world, written, stray_world.
    cbn [files delete filter fst negb path_eqb snd lookup dir demo NewSnapshotter].
    destruct (String.eqb_spec n hello_name) as [->|N].
    + vm_compute. reflexivity.
    + assert (F : forall k, n <> k ->
                path_eqb ("member/snap", n) ("member/snap", k) = false)
        by (intros k H; apply FsFacts.path_eqb_neq; congruence).
      simpl. rewrite (F hello_name N), (F "db.tmp123"), (F "db"), (F "notes.txt");
        [reflexivity| | |]; intros ->; discriminate.
Defined.

(** X12 at a saved snapshot next to [db]. *)
Lemma Load_of_clean_directory_changes_nothing_witness :
  Load (codec := wire.proto3) (io := no_faults) demo clean_world = Done (Ok hello) clean_world.
Proof.
  apply (Load_of_clean_directory_changes_nothing (codec := wire.proto3) (io := no_faults)
           demo clean_world hello_name [] hello eq_refl eq_refl).
  - intros k Hk. vm_compute in Hk. destruct Hk as [<-|[<-|[]]]; split; auto.
  - vm_compute. reflexivity.
  - vm_compute. reflexivity.
Defined.

(** X13 with the marker (1,5). *)
Lemma Load_succeeds_when_LoadNewestAvailable_does_witness :
  exists y w2, Load (codec := wire.proto3) (io := no_faults) demo saved_world = Done (Ok y) w2.
Proof.
  apply (Load_succeeds_when_LoadNewestAvailable_does (codec := wire.proto3)
           (io := no_faults) demo [{| WalTerm := 1; WalIndex := 5 |}] saved_world
           (world_of (LoadNewestAvailable (codec := wire.proto3) (io := no_faults) demo
                        [{| WalTerm := 1; WalIndex := 5 |}] saved_world))
           hello).
  vm_compute. reflexivity.
Defined.

(** X14 with the markers (1,1) and (1,5). *)
Lemma LoadNewestAvailable_returns_a_marked_snapshot_witness :
  exists m ws,
    Metadata hello = Some m /\
    In ws [{| WalTerm := 1; WalIndex := 1 |}; {| WalTerm := 1; WalIndex := 5 |}] /\
    Term m = WalTerm ws /\ Index m = WalIndex ws.
Proof.
  apply (LoadNewestAvailable_returns_a_marked_snapshot (codec := wire.proto3)
           (io := no_faults) demo
           [{| WalTerm := 1; WalIndex := 1 |}; {| WalTerm := 1; WalIndex := 5 |}] saved_world
           (world_of (LoadNewestAvailable (codec := wire.proto3) (io := no_faults) demo
                        [{| WalTerm := 1; WalIndex := 1 |}; {| WalTerm := 1; WalIndex := 5 |}]
                        saved_world))
           hello).
  vm_compute. reflexivity.
Defined.

(** X15 at a directory with one saved snapshot. *)
Lemma no_markers_no_snapshot_witness :
  exists w',
    LoadNewestAvailable (codec := wire.proto3) (io := no_faults) demo [] saved_world
    = Done (Err ErrNoSnapshot) w'.
Proof.
  destruct (no_markers_no_snapshot (codec := wire.proto3) (io := no_faults) demo saved_world)
    as (err & w' & E & H).
  exists w'. rewrite E, (H eq_refl eq_refl); [reflexivity|].
  intros n _ _. reflexivity.
Defined.

(** X16 at two arrangements of the markers (1,1) and (1,5). *)
Lemma marker_order_is_irrelevant_witness :
  LoadNewestAvailable (codec := wire.proto3) (io := no_faults) demo
    [{| WalTerm := 1; WalIndex := 1 |}; {| WalTerm := 1; WalIndex := 5 |}] saved_world
  = LoadNewestAvailable (codec := wire.proto3) (io := no_faults) demo
      [{| WalTerm := 1; WalIndex := 5 |}; {| WalTerm := 1; WalIndex := 1 |};
       {| WalTerm := 1; WalIndex := 5 |}] saved_world.
Proof.
  apply (marker_order_is_irrelevant (codec := wire.proto3) (io := no_faults)).
  intros ws. simpl. tauto.
Defined.

(** X17 at a valid file without metadata stored as the newest candidate. *)
Lemma nil_metadata_stops_the_scan_witness :
  exists w',
    LoadNewestAvailable (codec := wire.proto3) (io := no_faults) demo
      [{| WalTerm := 1; WalIndex := 1 |}] bare_world
    = Panicked NilDereference w'.
Proof.
  apply (nil_metadata_stops_the_scan (codec := wire.proto3) (io := no_faults) demo
           [{| WalTerm := 1; WalIndex := 1 |}] bare_world []
           ["0000000000000001-0000000000000001.snap"]
           "0000000000000001-0000000000000002.snap" bare eq_refl eq_refl).
  - intros n _ _. reflexivity.
  - discriminate.
  - vm_compute. reflexivity.
  - intros k y [].
  - vm_compute. reflexivity.
  - reflexivity.
Defined.

(** X18 at a directory without snapshots. *)
Lemma loadSnap_of_missing_file_witness :
  exists w',
    loadSnap (codec := wire.proto3) (io := no_faults) "member/snap" hello_name stray_world
    = Done (Err (PathError "open" ("member/snap", hello_name) ENOENT)) w' /\
    files w' = files stray_world /\
    In (rename_failure ("member/snap", hello_name)) (log w').
Proof.
  exact (loadSnap_of_missing_file (codec := wire.proto3) (io := no_faults)
           "member/snap" hello_name stray_world eq_refl eq_refl).
Defined.

(** X19 at bytes 2 to 5 of the payload of a saved snapshot. *)
Lemma corrupted_window_is_detected_witness :
  exists hd tl,
    file_of hello
    = hd ++ (firstn 2 (payload_of hello)
             ++ firstn 4 (skipn 2 (payload_of hello)) ++ skipn 6 (payload_of hello)) ++ tl /\
    forall ys p w,
      List.length ys = List.length (firstn 4 (skipn 2 (payload_of hello))) ->
      (List.length (firstn 4 (skipn 2 (payload_of hello))) <= 4)%nat ->
      ys <> firstn 4 (skipn 2 (payload_of hello)) ->
      read_fault (Faults := no_faults) p = None ->
      lookup p (files w)
      = Some (hd ++ (firstn 2 (payload_of hello) ++ ys ++ skipn 6 (payload_of hello)) ++ tl) ->
      read_result (codec := wire.proto3) (io := no_faults) w p = Err ErrCRCMismatch.
Proof.
  apply (corrupted_window_is_detected (codec := wire.proto3) (io := no_faults) hello
           (firstn 2 (payload_of hello)) (firstn 4 (skipn 2 (payload_of hello)))
           (skipn 6 (payload_of hello)) (file_of hello) WireFacts.proto3_lawful
           hello_window_encodes).
  vm_compute. discriminate.
Defined.

(** X21 at three orphans, the second of which cannot be removed. *)
Lemma cleanup_stops_at_first_failure_witness :
  exists w',
    cleanupSnapdir (io := stuck_orphan) demo ["db.tmp1"; "x"; "db.tmp2"; "db.tmp3"]
      orphans_world
    = Done (["x"], Some (RemoveOrphanError "db.tmp2"
                           (PathError "remove" ("member/snap", "db.tmp2") EACCES))) w' /\
    lookup ("member/snap", "db.tmp1") (files w') = None /\
    lookup ("member/snap", "db.tmp3") (files w') = Some [].
Proof.
  destruct (cleanup_stops_at_first_failure (io := stuck_orphan) demo ["db.tmp1"; "x"]
              ["db.tmp3"] "db.tmp2" Denied orphans_world)
    as (w' & E & Gone & Rest).
  - intros k [<-|[<-|[]]] _; reflexivity.
  - reflexivity.
  - reflexivity.
  - exists w'. split; [exact E|]. split.
    + apply Gone; [now left | reflexivity].
    + rewrite Rest; [reflexivity|].
      intros k [<-|[<-|[]]] _; discriminate.
Defined.

(** X22 at three auxiliary files: the call panics. *)
Lemma ReleaseSnapDBs_without_metadata_witness :
  exists w',
    files w' = files aux_world /\
    ReleaseSnapDBs (io := no_faults) demo bare aux_world = Panicked NilDereference w'.
Proof.
  exact (ReleaseSnapDBs_without_metadata (io := no_faults) demo bare aux_world
           eq_refl eq_refl eq_refl).
Defined.

(** X23 at three auxiliary files. *)
Lemma ReleaseSnapDBs_is_idempotent_witness :
  exists w1 w2,
    ReleaseSnapDBs (io := no_faults) demo retained3 aux_world = Done None w1 /\
    ReleaseSnapDBs (io := no_faults) demo retained3 w1 = Done None w2 /\
    files w2 = files w1.
Proof.
  exact (ReleaseSnapDBs_is_idempotent (io := no_faults) demo retained3
           {| Term := 1; Index := 3 |} aux_world eq_refl eq_refl eq_refl).
Defined.

(** X24 at the file of index 2, below the threshold 3. *)
Lemma release_by_formatted_index_witness :
  dbIndex "0000000000000002.snap.db" = inr 2 /\
  exists w',
    ReleaseSnapDBs (io := no_faults) demo retained3 aux_world = Done None w' /\
    lookup ("member/snap", "0000000000000002.snap.db") (files w') = None.
Proof.
  apply (release_by_formatted_index (io := no_faults) demo retained3
           {| Term := 1; Index := 3 |} aux_world 2 eq_refl eq_refl eq_refl).
  - unfold uint64. simpl. lia.
  - reflexivity.
Defined.

(** X25 at a saved snapshot next to three auxiliary files. *)
Lemma release_keeps_loads_witness :
  exists r w1 w2 w3,
    Load (codec := wire.proto3) (io := no_faults) demo mixed_world = Done r w2 /\
    ReleaseSnapDBs (io := no_faults) demo retained3 mixed_world = Done None w1 /\
    Load (codec := wire.proto3) (io := no_faults) demo w1 = Done r w3.
Proof.
  apply (release_keeps_loads (codec := wire.proto3) (io := no_faults) demo retained3
           {| Term := 1; Index := 3 |} (fun _ => true) mixed_world eq_refl eq_refl eq_refl).
  intros n _. reflexivity.
Defined.
